(** * A front end for a small C++-like language: scanner, parser, semantic analyzer

    Shallow embedding of [src/lexer.py], [src/ast.py], [src/parser.py] and
    [src/semantic.py].  Source text is a [string] of 8-bit characters; on
    that range the regular-expression class [\d] is exactly ['0'..'9'].
    Python dictionaries that are only looked up are [gmap]s, the function
    table (which is iterated in insertion order) is an association list. *)

From Stdlib Require Import Ascii DecimalString Sorted.
From Stdlib Require String.
From stdpp Require Import gmap strings list.

#[local] Set Warnings "-register-all".


(** ** Strings as Python uses them *)

Definition str_eq (a b : string) : bool := String.eqb a b.

(** [x in (a, b, ...)] on a tuple of strings. *)
Definition str_in (x : string) (l : list string) : bool := existsb (str_eq x) l.

(** Truthiness of a [str]: only the empty string is false. *)
Definition truthy_str (s : string) : bool := negb (str_eq s "").

(** Truthiness of an optional [str] ([None] is false). *)
Definition truthy (o : option string) : bool :=
  match o with Some s => truthy_str s | None => false end.

(** [str(n)] for a non-negative integer, as an f-string prints it. *)
Definition str_of_nat (n : nat) : string := NilZero.string_of_uint (Nat.to_uint n).

Fixpoint drop_str (n : nat) (s : string) : string :=
  match n, s with
  | S n', String _ r => drop_str n' r
  | _, _ => s
  end.

Definition take_str (n : nat) (s : string) : string := String.substring 0 n s.

(** ** lexer.py *)

Module Lexer.

Record Token := mkToken { type : string; value : string; line : nat; column : nat }.

Definition KEYWORDS : list string :=
  ["int"; "float"; "char"; "bool"; "if"; "else"; "for"; "while"; "do";
   "return"; "const"; "true"; "false"; "void"].

(** *** Character classes of the token patterns *)

Definition in_range (lo hi c : ascii) : bool :=
  (nat_of_ascii lo <=? nat_of_ascii c) && (nat_of_ascii c <=? nat_of_ascii hi).

Definition newline : ascii := ascii_of_nat 10.
Definition tab : ascii := ascii_of_nat 9.

(** [\d] *)
Definition is_digit (c : ascii) : bool := in_range "0" "9" c.
(** [[A-Za-z_]] *)
Definition is_id_start (c : ascii) : bool :=
  in_range "A" "Z" c || in_range "a" "z" c || Ascii.eqb c "_".
(** [[A-Za-z0-9_]] *)
Definition is_id_char (c : ascii) : bool := is_id_start c || is_digit c.
(** [.] without DOTALL: anything but a line feed *)
Definition is_dot (c : ascii) : bool := negb (Ascii.eqb c newline).
(** [[ \t]] *)
Definition is_blank (c : ascii) : bool := Ascii.eqb c " " || Ascii.eqb c tab.

Fixpoint mem_ascii (c : ascii) (s : string) : bool :=
  match s with
  | EmptyString => false
  | String d r => Ascii.eqb c d || mem_ascii c r
  end.

(** [[+\-*/%<>=!&|.,;:(){}\[\]]] *)
Definition is_symbol (c : ascii) : bool := mem_ascii c "+-*/%<>=!&|.,;:(){}[]".

(** Length of the longest prefix of [s] whose characters satisfy [p]
    (a greedy [p*]). *)
Fixpoint span (p : ascii -> bool) (s : string) : nat :=
  match s with
  | String c r => if p c then S (span p r) else 0
  | EmptyString => 0
  end.

(** *** One matcher per named group

    Each returns the length of the match of its pattern at the head of the
    input, or [None] when the pattern does not match there. *)

(** [//.*] *)
Definition match_COMMENT (s : string) : option nat :=
  match s with
  | String a (String b r) =>
      if Ascii.eqb a "/" && Ascii.eqb b "/" then Some (2 + span is_dot r) else None
  | _ => None
  end.

(** Offset of the first ["*/"] in [s]: the lazy [[\s\S]*?] stops there. *)
Fixpoint find_close (s : string) : option nat :=
  match s with
  | EmptyString => None
  | String a r =>
      match r with
      | String b _ =>
          if Ascii.eqb a "*" && Ascii.eqb b "/" then Some 0
          else option_map S (find_close r)
      | EmptyString => None
      end
  end.

(** [/\*[\s\S]*?\*/] *)
Definition match_MULTICOMMENT (s : string) : option nat :=
  match s with
  | String a (String b r) =>
      if Ascii.eqb a "/" && Ascii.eqb b "*"
      then option_map (fun i => 2 + i + 2) (find_close r)
      else None
  | _ => None
  end.

(** ['(?:\\.|[^\\'])'] *)
Definition match_CHAR (s : string) : option nat :=
  match s with
  | String q (String x r) =>
      if Ascii.eqb q "'" then
        if Ascii.eqb x "\" then
          match r with
          | String y (String z _) =>
              if is_dot y && Ascii.eqb z "'" then Some 4 else None
          | _ => None
          end
        else if Ascii.eqb x "'" then None
        else
          match r with
          | String z _ => if Ascii.eqb z "'" then Some 3 else None
          | EmptyString => None
          end
      else None
  | _ => None
  end.

(** [\d+\.\d+] *)
Definition match_FLOAT (s : string) : option nat :=
  let n := span is_digit s in
  if n =? 0 then None
  else
    match drop_str n s with
    | String d r =>
        if Ascii.eqb d "." then
          let m := span is_digit r in
          if m =? 0 then None else Some (n + 1 + m)
        else None
    | EmptyString => None
    end.

(** [\d+] *)
Definition match_INT (s : string) : option nat :=
  let n := span is_digit s in if n =? 0 then None else Some n.

(** [[A-Za-z_][A-Za-z0-9_]*] *)
Definition match_ID (s : string) : option nat :=
  match s with
  | String c r => if is_id_start c then Some (1 + span is_id_char r) else None
  | EmptyString => None
  end.

Definition OPERATORS : list string :=
  ["=="; "!="; "<="; ">="; "||"; "&&"; "++"; "--"; "+="; "-="; "*="; "/="; "%="].

(** [==|!=|<=|>=|\|\||&&|\+\+|--|\+=|-=|\*=|/=|%=] *)
Definition match_OP (s : string) : option nat :=
  match s with
  | String a (String b _) =>
      if str_in (String a (String b EmptyString)) OPERATORS then Some 2 else None
  | _ => None
  end.

Definition match_SYMBOL (s : string) : option nat :=
  match s with
  | String c _ => if is_symbol c then Some 1 else None
  | EmptyString => None
  end.

(** [[ \t]+] *)
Definition match_SKIP (s : string) : option nat :=
  let n := span is_blank s in if n =? 0 then None else Some n.

(** [\n] *)
Definition match_NEWLINE (s : string) : option nat :=
  match s with
  | String c _ => if Ascii.eqb c newline then Some 1 else None
  | EmptyString => None
  end.

Definition token_specification : list (string * (string -> option nat)) :=
  [("COMMENT", match_COMMENT); ("MULTICOMMENT", match_MULTICOMMENT);
   ("CHAR", match_CHAR); ("FLOAT", match_FLOAT); ("INT", match_INT);
   ("ID", match_ID); ("OP", match_OP); ("SYMBOL", match_SYMBOL);
   ("SKIP", match_SKIP); ("NEWLINE", match_NEWLINE)].

(** The compiled alternation [(?P<COMMENT>..)|(?P<MULTICOMMENT>..)|...] tried
    at the head of [s]: the first alternative that matches wins; the result
    is [lastgroup] and the length of the match. *)
Fixpoint first_match (spec : list (string * (string -> option nat))) (s : string)
  : option (string * nat) :=
  match spec with
  | [] => None
  | (name, m) :: spec' =>
      match m s with
      | Some n => Some (name, n)
      | None => first_match spec' s
      end
  end.

Definition regex_match (s : string) : option (string * nat) :=
  first_match token_specification s.

(** The body of [for mo in self.regex.finditer(self.code)].  [rest] is the
    text from offset [pos] on; where no alternative matches, the search
    moves one character forward.  The result is the token list and the final
    [line_num]; [None] only when [fuel] runs out. *)
Fixpoint tokenize_loop (fuel : nat) (rest : string) (pos line_num line_start : nat)
    (tokens : list Token) : option (list Token * nat) :=
  match rest with
  | EmptyString => Some (tokens, line_num)
  | String _ rest' =>
      match fuel with
      | 0 => None
      | S fuel' =>
          match regex_match rest with
          | None => tokenize_loop fuel' rest' (S pos) line_num line_start tokens
          | Some (kind, n) =>
              let value := take_str n rest in
              let column := pos - line_start + 1 in
              let rest'' := drop_str n rest in
              let pos' := pos + n in
              if str_eq kind "NEWLINE" then
                tokenize_loop fuel' rest'' pos' (line_num + 1) pos' tokens
              else if str_eq kind "SKIP" || str_eq kind "COMMENT" || str_eq kind "MULTICOMMENT" then
                tokenize_loop fuel' rest'' pos' line_num line_start tokens
              else
                let kind' := if str_eq kind "ID" && str_in value KEYWORDS then value else kind in
                tokenize_loop fuel' rest'' pos' line_num line_start
                  (tokens ++ [mkToken kind' value line_num column])
          end
      end
  end.

Definition tokenize (code : string) : option (list Token) :=
  match tokenize_loop (String.length code) code 0 1 0 [] with
  | Some (tokens, line_num) => Some (tokens ++ [mkToken "EOF" "" line_num 1])
  | None => None
  end.

End Lexer.

Import Lexer.

Example tokenize_ex1 :
  tokenize "int x = 12.5; // c" =
  Some [mkToken "int" "int" 1 1; mkToken "ID" "x" 1 5; mkToken "SYMBOL" "=" 1 7;
        mkToken "FLOAT" "12.5" 1 9; mkToken "SYMBOL" ";" 1 13; mkToken "EOF" "" 1 1].
Proof. vm_compute. reflexivity. Qed.

(** ** ast.py *)

(** The [value] of a [Literal]: [int(lexeme)], [float(lexeme)] (kept as the
    lexeme that determines it), the text between the quotes, or a boolean. *)
Inductive PyValue :=
| VInt (z : Z)
| VFloat (lexeme : string)
| VStr (s : string)
| VBool (b : bool).

(** The node classes of [ast.py] that occur below the root.  The fields are
    untyped in the source ([Any]); [PyList] is a Python list standing where
    a node is expected (a declaration group returned by the parser). *)
Inductive Node :=
| FuncDecl (ret_type name : string) (params : list (string * string)) (body : Node)
| VarDecl (var_type name : string) (init : option Node) (is_const : bool)
| Compound (statements : list Node)
| If (cond then_branch : Node) (else_branch : option Node)
| While (cond body : Node)
| For (init cond post : option Node) (body : Node)
| Return (expr : option Node)
| ExprStmt (expr : Node)
| BinaryOp (op : string) (left right : Node)
| UnaryOp (op : string) (expr : Node)
| Literal (v : PyValue) (typ : string)
| VarRef (name : string)
| FuncCall (name : string) (args : list Node)
| PyList (items : list Node).

(** Induction over trees, with the induction hypothesis available for
    every child held in a list or an optional field. *)
Section NodeInduction.

Variable P : Node → Prop.

Definition opt_holds (o : option Node) : Prop :=
  match o with Some n => P n | None => True end.

Hypothesis HFuncDecl : ∀ rt n ps b, P b → P (FuncDecl rt n ps b).
Hypothesis HVarDecl : ∀ t n init c, opt_holds init → P (VarDecl t n init c).
Hypothesis HCompound : ∀ l, Forall P l → P (Compound l).
Hypothesis HIf : ∀ c t e, P c → P t → opt_holds e → P (If c t e).
Hypothesis HWhile : ∀ c b, P c → P b → P (While c b).
Hypothesis HFor : ∀ i c p b,
  opt_holds i → opt_holds c → opt_holds p → P b → P (For i c p b).
Hypothesis HReturn : ∀ e, opt_holds e → P (Return e).
Hypothesis HExprStmt : ∀ e, P e → P (ExprStmt e).
Hypothesis HBinaryOp : ∀ op l r, P l → P r → P (BinaryOp op l r).
Hypothesis HUnaryOp : ∀ op e, P e → P (UnaryOp op e).
Hypothesis HLiteral : ∀ v t, P (Literal v t).
Hypothesis HVarRef : ∀ n, P (VarRef n).
Hypothesis HFuncCall : ∀ n args, Forall P args → P (FuncCall n args).
Hypothesis HPyList : ∀ l, Forall P l → P (PyList l).

Fixpoint Node_nested_ind (n : Node) : P n :=
  let all := fix all (l : list Node) : Forall P l :=
    match l with
    | [] => @List.Forall_nil Node P
    | x :: l' => @List.Forall_cons Node P x l' (Node_nested_ind x) (all l')
    end in
  let opt := fun o : option Node =>
    match o return opt_holds o with
    | Some x => Node_nested_ind x
    | None => I
    end in
  match n with
  | FuncDecl rt n ps b => HFuncDecl rt n ps b (Node_nested_ind b)
  | VarDecl t n init c => HVarDecl t n init c (opt init)
  | Compound l => HCompound l (all l)
  | If c t e => HIf c t e (Node_nested_ind c) (Node_nested_ind t) (opt e)
  | While c b => HWhile c b (Node_nested_ind c) (Node_nested_ind b)
  | For i c p b => HFor i c p b (opt i) (opt c) (opt p) (Node_nested_ind b)
  | Return e => HReturn e (opt e)
  | ExprStmt e => HExprStmt e (Node_nested_ind e)
  | BinaryOp op l r => HBinaryOp op l r (Node_nested_ind l) (Node_nested_ind r)
  | UnaryOp op e => HUnaryOp op e (Node_nested_ind e)
  | Literal v t => HLiteral v t
  | VarRef n => HVarRef n
  | FuncCall n args => HFuncCall n args (all args)
  | PyList l => HPyList l (all l)
  end.

End NodeInduction.

(** The expression nodes: what [parse_expression] builds. *)
Fixpoint is_expr (n : Node) : bool :=
  match n with
  | Literal _ _ | VarRef _ => true
  | UnaryOp _ e => is_expr e
  | BinaryOp _ l r => is_expr l && is_expr r
  | FuncCall _ args => forallb is_expr args
  | _ => false
  end.

(** The root of the tree. *)
Record Program := mkProgram { declarations : list Node }.

(** ** parser.py *)

Module Parser.

Inductive exn :=
| ParseError (msg : string)
| IndexError
| ValueError.

(** Outcome of a parsing method: a value and the new [self.pos], an
    exception, or the model's recursion budget exhausted. *)
Inductive result (A : Type) :=
| Ok (a : A)
| Raise (e : exn)
| OutOfFuel.
Arguments Ok {A} a.
Arguments Raise {A} e.
Arguments OutOfFuel {A}.

(** A method of [Parser]: it reads [self.pos] and returns the new one. *)
Definition M (A : Type) : Type := nat -> result (A * nat).

Definition ret {A} (a : A) : M A := fun pos => Ok (a, pos).
Definition bind {A B} (m : M A) (k : A -> M B) : M B :=
  fun pos =>
    match m pos with
    | Ok (a, pos') => k a pos'
    | Raise e => Raise e
    | OutOfFuel => OutOfFuel
    end.
Definition raise {A} (e : exn) : M A := fun _ => Raise e.
Definition out_of_fuel {A} : M A := fun _ => OutOfFuel.

Notation "'let*' x ':=' m 'in' k" := (bind m (fun x => k))
  (at level 10, x binder, m at level 100, k at level 200).

(** [int(s)] on a string of decimal digits. *)
Fixpoint int_digits (acc : Z) (s : string) : option Z :=
  match s with
  | EmptyString => Some acc
  | String c r =>
      if is_digit c
      then int_digits (10 * acc + Z.of_nat (nat_of_ascii c - 48)) r
      else None
  end.

(** [sys.int_info.default_max_str_digits]: [int(s)] raises [ValueError] on
    a string of more decimal digits than this, leading zeros counted. *)
Definition MAX_STR_DIGITS : nat := 4300.

Definition int_of_str (s : string) : option Z :=
  match s with
  | EmptyString => None
  | _ => if MAX_STR_DIGITS <? String.length s then None else int_digits 0 s
  end.

(** [s.upper()] on the letters a token type is made of. *)
Definition upper_ascii (c : ascii) : ascii :=
  if in_range "a" "z" c then ascii_of_nat (nat_of_ascii c - 32) else c.

Fixpoint upper (s : string) : string :=
  match s with
  | EmptyString => EmptyString
  | String c r => String (upper_ascii c) (upper r)
  end.

(** [s[1:-1]] *)
Definition strip_ends (s : string) : string :=
  String.substring 1 (String.length s - 2) s.

Definition PRECEDENCE (op : string) : option nat :=
  if str_eq op "||" then Some 1
  else if str_eq op "&&" then Some 2
  else if str_in op ["=="; "!="] then Some 3
  else if str_in op ["<"; ">"; "<="; ">="] then Some 4
  else if str_in op ["+"; "-"] then Some 5
  else if str_in op ["*"; "/"; "%"] then Some 6
  else if str_in op ["="; "+="; "-="; "*="; "/="; "%="] then Some 0
  else None.

Definition ASSIGN_OPS : list string := ["="; "+="; "-="; "*="; "/="; "%="].

(** [decls.extend(d) if isinstance(d, list) else decls.append(d)] *)
Definition extend_or_append (decls : list Node) (d : Node) : list Node :=
  match d with
  | PyList l => decls ++ l
  | _ => decls ++ [d]
  end.

Section Methods.

Variable tokens : list Token.

Definition peek : M Token := fun pos =>
  match tokens !! pos with
  | Some tok => Ok (tok, pos)
  | None => Raise IndexError
  end.

Definition next : M Token := fun pos =>
  match tokens !! pos with
  | Some tok => Ok (tok, S pos)
  | None => Raise IndexError
  end.

Definition expect (typ : string) (value : option string) : M Token :=
  let* tok := peek in
  if negb (str_eq tok.(type) typ) &&
     match value with None => true | Some v => negb (str_eq tok.(Lexer.value) v) end
  then raise (ParseError
    ("Expected " +:+ typ +:+ " " +:+
     (match value with Some v => v | None => "" end) +:+
     " got " +:+ tok.(type) +:+ " " +:+ tok.(Lexer.value) +:+
     " at " +:+ str_of_nat tok.(line) +:+ ":" +:+ str_of_nat tok.(column)))
  else next.

(** [self.peek().value == '=' or (self.peek().type == 'OP' and self.peek().value == '=')] *)
Definition is_assign_tok (t : Token) : bool :=
  str_eq t.(Lexer.value) "=" || (str_eq t.(type) "OP" && str_eq t.(Lexer.value) "=").

Definition TYPE_KEYWORDS : list string := ["int"; "float"; "char"; "bool"; "const"].

(** [while self.peek().value in ('++','--')] *)
Fixpoint parse_postfix (fuel : nat) (lhs : Node) {struct fuel} : M Node :=
  match fuel with
  | 0 => out_of_fuel
  | S fuel =>
      let* t := peek in
      if str_in t.(Lexer.value) ["++"; "--"] then
        let* op := next in
        parse_postfix fuel (UnaryOp ("post" +:+ op.(Lexer.value)) lhs)
      else ret lhs
  end.

Fixpoint parse_expression (fuel : nat) (min_prec : nat) {struct fuel} : M Node :=
  match fuel with
  | 0 => out_of_fuel
  | S fuel =>
      let* tok := peek in
      if str_in tok.(Lexer.value) ["!"; "+"; "-"; "++"; "--"] then
        let op := tok.(Lexer.value) in
        let* _ := next in
        let* expr := parse_expression fuel 7 in
        ret (UnaryOp (if negb (str_in op ["++"; "--"]) then op else "pre" +:+ op) expr)
      else
        let* lhs :=
          (if str_eq tok.(type) "INT" then
             let* _ := next in
             match int_of_str tok.(Lexer.value) with
             | Some z => ret (Literal (VInt z) "int")
             | None => raise ValueError
             end
           else if str_eq tok.(type) "FLOAT" then
             let* _ := next in ret (Literal (VFloat tok.(Lexer.value)) "float")
           else if str_eq tok.(type) "CHAR" then
             let* _ := next in ret (Literal (VStr (strip_ends tok.(Lexer.value))) "char")
           else if str_in tok.(type) ["true"; "false"] then
             let* _ := next in ret (Literal (VBool (str_eq tok.(type) "true")) "bool")
           else if str_eq tok.(type) "ID" then
             let* idtok := next in
             let* t := peek in
             if str_eq t.(Lexer.value) "(" then
               let* _ := next in
               let* t' := peek in
               let* args := (if negb (str_eq t'.(Lexer.value) ")")
                             then parse_args fuel []
                             else ret []) in
               let* _ := expect "SYMBOL" (Some ")") in
               ret (FuncCall idtok.(Lexer.value) args)
             else ret (VarRef idtok.(Lexer.value))
           else if str_eq tok.(Lexer.value) "(" then
             let* _ := next in
             let* e := parse_expression fuel 0 in
             let* _ := expect "SYMBOL" (Some ")") in
             ret e
           else raise (ParseError
             ("Unexpected expression token " +:+ tok.(type) +:+ " " +:+
              tok.(Lexer.value) +:+ " at " +:+ str_of_nat tok.(line) +:+ ":" +:+
              str_of_nat tok.(column)))) in
        let* lhs := parse_postfix fuel lhs in
        parse_binary fuel min_prec lhs
  end

(** The [while True] loop that collects call arguments. *)
with parse_args (fuel : nat) (args : list Node) {struct fuel} : M (list Node) :=
  match fuel with
  | 0 => out_of_fuel
  | S fuel =>
      let* a := parse_expression fuel 0 in
      let* t := peek in
      if str_eq t.(Lexer.value) "," then let* _ := next in parse_args fuel (args ++ [a])
      else ret (args ++ [a])
  end

(** The precedence-climbing [while True] loop. *)
with parse_binary (fuel : nat) (min_prec : nat) (lhs : Node) {struct fuel} : M Node :=
  match fuel with
  | 0 => out_of_fuel
  | S fuel =>
      let* op_tok := peek in
      let op := op_tok.(Lexer.value) in
      match PRECEDENCE op with
      | Some prec =>
          if str_in op_tok.(type) ["OP"; "SYMBOL"] && (min_prec <=? prec) then
            let* _ := next in
            let next_min := if str_in op ASSIGN_OPS then prec else prec + 1 in
            let* rhs := parse_expression fuel next_min in
            parse_binary fuel min_prec (BinaryOp op lhs rhs)
          else ret lhs
      | None => ret lhs
      end
  end.

(** The declarator loop of [parse_typed_declaration]:
    [while self.peek().value == ',']. *)
Fixpoint parse_declarators (fuel : nat) (typ : string) (is_const : bool)
    (decls : list Node) {struct fuel} : M (list Node) :=
  match fuel with
  | 0 => out_of_fuel
  | S fuel =>
      let* t := peek in
      if str_eq t.(Lexer.value) "," then
        let* _ := next in
        let* next_name := expect "ID" None in
        let* t' := peek in
        let* init :=
          (if is_assign_tok t' then
             let* _ := next in
             let* e := parse_expression fuel 0 in ret (Some e)
           else ret None) in
        parse_declarators fuel typ is_const
          (decls ++ [VarDecl typ next_name.(Lexer.value) init is_const])
      else ret decls
  end.

(** The parameter loop of [parse_typed_declaration] ([while True]). *)
Fixpoint parse_params (fuel : nat) (params : list (string * string)) {struct fuel}
  : M (list (string * string)) :=
  match fuel with
  | 0 => out_of_fuel
  | S fuel =>
      let* ptype := next in
      let* pname := expect "ID" None in
      let params := params ++ [(ptype.(Lexer.value), pname.(Lexer.value))] in
      let* t := peek in
      if str_eq t.(Lexer.value) "," then let* _ := next in parse_params fuel params
      else ret params
  end.

Fixpoint parse_declaration (fuel : nat) {struct fuel} : M Node :=
  match fuel with
  | 0 => out_of_fuel
  | S fuel =>
      let* tok := peek in
      if str_eq tok.(type) "const" then parse_typed_declaration fuel
      else if str_in tok.(type) ["int"; "float"; "char"; "bool"; "void"] ||
              str_in (upper tok.(type)) ["INT"; "FLOAT"; "CHAR"; "BOOL"; "VOID"]
      then parse_typed_declaration fuel
      else raise (ParseError
        ("Unexpected token " +:+ tok.(type) +:+ " at " +:+
         str_of_nat tok.(line) +:+ ":" +:+ str_of_nat tok.(column)))
  end

with parse_typed_declaration (fuel : nat) {struct fuel} : M Node :=
  match fuel with
  | 0 => out_of_fuel
  | S fuel =>
      let* tok := peek in
      let is_const := str_eq tok.(type) "const" in
      let* _ := (if is_const then next else ret tok) in
      let* typ_tok := next in
      let typ := typ_tok.(Lexer.value) in
      let* name_tok := expect "ID" None in
      let name := name_tok.(Lexer.value) in
      let* t := peek in
      if str_eq t.(Lexer.value) "(" then
        let* _ := next in
        let* t' := peek in
        let* params := (if negb (str_eq t'.(Lexer.value) ")")
                        then parse_params fuel []
                        else ret []) in
        let* _ := expect "SYMBOL" (Some ")") in
        let* body := parse_compound fuel in
        ret (FuncDecl typ name params body)
      else
        let* init :=
          (if is_assign_tok t then
             let* _ := next in
             let* e := parse_expression fuel 0 in ret (Some e)
           else ret None) in
        let* decls := parse_declarators fuel typ is_const [VarDecl typ name init is_const] in
        let* _ := expect "SYMBOL" (Some ";") in
        ret (PyList decls)
  end

with parse_compound (fuel : nat) {struct fuel} : M Node :=
  match fuel with
  | 0 => out_of_fuel
  | S fuel =>
      let* t := peek in
      if negb (str_eq t.(Lexer.value) "{") then
        raise (ParseError "Expected { for compound")
      else
        let* _ := next in
        let* stmts := parse_statements fuel [] in
        let* _ := next in
        ret (Compound stmts)
  end

(** [while self.peek().value != '}'] in [parse_compound]. *)
with parse_statements (fuel : nat) (stmts : list Node) {struct fuel} : M (list Node) :=
  match fuel with
  | 0 => out_of_fuel
  | S fuel =>
      let* t := peek in
      if negb (str_eq t.(Lexer.value) "}") then
        let* s := parse_statement fuel in
        parse_statements fuel (extend_or_append stmts s)
      else ret stmts
  end

with parse_statement (fuel : nat) {struct fuel} : M Node :=
  match fuel with
  | 0 => out_of_fuel
  | S fuel =>
      let* tok := peek in
      if str_eq tok.(type) "return" then
        let* _ := next in
        let* t := peek in
        if str_eq t.(Lexer.value) ";" then
          let* _ := next in ret (Return None)
        else
          let* expr := parse_expression fuel 0 in
          let* _ := expect "SYMBOL" (Some ";") in
          ret (Return (Some expr))
      else if str_eq tok.(Lexer.value) "{" then parse_compound fuel
      else if str_eq tok.(type) "if" then
        let* _ := next in
        let* _ := expect "SYMBOL" (Some "(") in
        let* cond := parse_expression fuel 0 in
        let* _ := expect "SYMBOL" (Some ")") in
        let* thenb := parse_statement fuel in
        let* t := peek in
        let* elseb :=
          (if str_eq t.(type) "else" then
             let* _ := next in
             let* s := parse_statement fuel in ret (Some s)
           else ret None) in
        ret (If cond thenb elseb)
      else if str_eq tok.(type) "while" then
        let* _ := next in
        let* _ := expect "SYMBOL" (Some "(") in
        let* cond := parse_expression fuel 0 in
        let* _ := expect "SYMBOL" (Some ")") in
        let* body := parse_statement fuel in
        ret (While cond body)
      else if str_eq tok.(type) "for" then
        let* _ := next in
        let* _ := expect "SYMBOL" (Some "(") in
        let* t := peek in
        let* init :=
          (if str_eq t.(Lexer.value) ";" then
             let* _ := next in ret None
           else if str_in t.(type) TYPE_KEYWORDS then
             let* d := parse_declaration fuel in ret (Some d)
           else
             let* e := parse_expression fuel 0 in
             let* _ := expect "SYMBOL" (Some ";") in
             ret (Some e)) in
        let* t := peek in
        let* cond :=
          (if str_eq t.(Lexer.value) ";" then
             let* _ := next in ret None
           else
             let* e := parse_expression fuel 0 in
             let* _ := expect "SYMBOL" (Some ";") in
             ret (Some e)) in
        let* t := peek in
        let* post :=
          (if str_eq t.(Lexer.value) ")" then ret None
           else let* e := parse_expression fuel 0 in ret (Some e)) in
        let* _ := expect "SYMBOL" (Some ")") in
        let* body := parse_statement fuel in
        ret (For init cond post body)
      else if str_eq tok.(type) "do" then
        let* _ := next in
        let* body := parse_statement fuel in
        let* t := peek in
        if negb (str_eq t.(type) "while") then
          raise (ParseError "Expected while after do-block")
        else
          let* _ := next in
          let* _ := expect "SYMBOL" (Some "(") in
          let* cond := parse_expression fuel 0 in
          let* _ := expect "SYMBOL" (Some ")") in
          let* _ := expect "SYMBOL" (Some ";") in
          ret (While cond body)
      else if str_in tok.(type) TYPE_KEYWORDS then parse_typed_declaration fuel
      else
        let* expr := parse_expression fuel 0 in
        let* _ := expect "SYMBOL" (Some ";") in
        ret (ExprStmt expr)
  end.

(** [while self.peek().type != 'EOF'] in [parse]. *)
Fixpoint parse_loop (fuel : nat) (decls : list Node) {struct fuel} : M Program :=
  match fuel with
  | 0 => out_of_fuel
  | S fuel =>
      let* t := peek in
      if negb (str_eq t.(type) "EOF") then
        let* d := parse_declaration fuel in
        parse_loop fuel (extend_or_append decls d)
      else ret (mkProgram decls)
  end.

End Methods.

(** The result of a method run from [self.pos = 0], the final position
    dropped. *)
Definition run {A} (m : M A) : result A :=
  match m 0 with
  | Ok (a, _) => Ok a
  | Raise e => Raise e
  | OutOfFuel => OutOfFuel
  end.

(** [Parser(code).parse()] with a recursion budget of [fuel]. *)
Definition parse (fuel : nat) (code : string) : result Program :=
  match tokenize code with
  | Some tokens => run (parse_loop tokens fuel [])
  | None => OutOfFuel
  end.

(** [Parser(code).parse_expression()] *)
Definition parse_expr (fuel : nat) (code : string) : result Node :=
  match tokenize code with
  | Some tokens => run (parse_expression tokens fuel 0)
  | None => OutOfFuel
  end.

End Parser.

Import Parser.

Example parse_ex1 :
  parse 50 "int f(int a) { return a + 1; }" =
  Ok (mkProgram [FuncDecl "int" "f" [("int", "a")]
        (Compound [Return (Some (BinaryOp "+" (VarRef "a") (Literal (VInt 1) "int")))])]).
Proof. vm_compute. reflexivity. Qed.

(** ** semantic.py *)

Module Semantic.

(** A scope table: name -> (type, is_const). *)
Abbreviation Scope := (gmap string (string * bool)).

(** A [FuncDecl] object as the function table holds it. *)
Record FuncDeclT := mkFuncDecl {
  ret_type : string;
  name : string;
  params : list (string * string);
  body : Node
}.

(** [self.functions]: a dict read in insertion order by [analyze]. *)
Abbreviation FuncTable := (list (string * FuncDeclT)).

Fixpoint lookup_function (n : string) (fs : FuncTable) : option FuncDeclT :=
  match fs with
  | [] => None
  | (k, fd) :: fs' => if str_eq k n then Some fd else lookup_function n fs'
  end.

Definition in_functions (n : string) (fs : FuncTable) : bool :=
  match lookup_function n fs with Some _ => true | None => false end.

Definition in_scope (n : string) (sc : Scope) : bool :=
  match sc !! n with Some _ => true | None => false end.

Record SemanticAnalyzer := mkAnalyzer {
  program : Program;
  errors : list string;
  global_scope : Scope;
  functions : FuncTable
}.

(** [SemanticAnalyzer(program)] *)
Definition new (p : Program) : SemanticAnalyzer :=
  mkAnalyzer p [] ∅ [].

(** [x in s] for two strings: [x] occurs in [s] as a substring. *)
Fixpoint str_contains (s x : string) : bool :=
  String.prefix x s ||
  match s with
  | String _ r => str_contains r x
  | EmptyString => false
  end.

(** Truthiness of an optional child: [None] and the empty list are false,
    every node object is true. *)
Definition node_truthy (o : option Node) : bool :=
  match o with
  | None => false
  | Some (PyList []) => false
  | Some _ => true
  end.

Definition ARITH_OPS : list string := ["+"; "-"; "*"; "/"; "%"].
Definition COMPARE_OPS : list string := ["=="; "!="; "<"; ">"; "<="; ">="].
Definition LOGIC_OPS : list string := ["&&"; "||"].

(** [got and got != expected], then the int->float exemption
    [not (got == 'int' and expected == 'float')]: is the pair of types
    flagged as a mismatch? *)
Definition mismatch (got : option string) (expected : string) : bool :=
  truthy got &&
  negb (bool_decide (got = Some expected)) &&
  negb (bool_decide (got = Some "int") && str_eq expected "float").

Section CheckFunction.

Variable self_global_scope : Scope.
Variable self_functions : FuncTable.
Variable f : FuncDeclT.

Definition msg_undeclared (n : string) : string :=
  "Use of undeclared identifier " +:+ n +:+ " in function " +:+ f.(name).
Definition msg_func_as_value (n : string) : string :=
  "Function " +:+ n +:+ " used as value in function " +:+ f.(name).
Definition msg_undeclared_call (n : string) : string :=
  "Call to undeclared function " +:+ n +:+ " in function " +:+ f.(name).
Definition msg_arg_count (n : string) : string :=
  "Wrong number of arguments in call to " +:+ n +:+ " in function " +:+ f.(name).
Definition msg_arg_type (i : nat) (n expected got : string) : string :=
  "Type mismatch for argument " +:+ str_of_nat (i + 1) +:+ " in call to " +:+ n +:+
  ": expected " +:+ expected +:+ ", got " +:+ got.
Definition msg_redeclaration (n : string) : string :=
  "Redeclaration of " +:+ n +:+ " in function " +:+ f.(name).
Definition msg_init_type (n it var_type : string) : string :=
  "Type mismatch in initializer for " +:+ n +:+ ": " +:+ it +:+ " -> " +:+ var_type +:+
  " in function " +:+ f.(name).
Definition msg_return_type (got : string) : string :=
  "Return type mismatch in function " +:+ f.(name) +:+ ": expected " +:+
  f.(ret_type) +:+ ", got " +:+ got.
Definition msg_const_local (n : string) : string :=
  "Assignment to const variable " +:+ n +:+ " in function " +:+ f.(name).
Definition msg_const_global (n : string) : string :=
  "Assignment to const global " +:+ n +:+ " in function " +:+ f.(name).

(** The text of a type that is known to be present. *)
Definition type_text (o : option string) : string :=
  match o with Some s => s | None => "None" end.

(** [for i, a in enumerate(node.args)]: infer the type of each argument and
    compare it with the parameter at the same position, if there is one. *)
Fixpoint check_args (infer : Node → list string → option string * list string)
    (callee : FuncDeclT) (n : string) (i : nat) (l : list Node) (errors : list string)
  : list string :=
  match l with
  | [] => errors
  | a :: l' =>
      let '(at_, errors) := infer a errors in
      let errors :=
        match callee.(params) !! i with
        | Some (expected, _) =>
            if truthy_str expected && mismatch at_ expected
            then errors ++ [msg_arg_type i n expected (type_text at_)]
            else errors
        | None => errors
        end in
      check_args infer callee n (S i) l' errors
  end.

(** [for s in node.statements: visit(s)] and [for a in node.args: visit(a)] *)
Fixpoint visit_all (visit : Node → Scope → list string → Scope * list string)
    (l : list Node) (scope : Scope) (errors : list string) : Scope * list string :=
  match l with
  | [] => (scope, errors)
  | s :: l' => let '(scope, errors) := visit s scope errors in visit_all visit l' scope errors
  end.

(** The closure [infer_type] of [check_function]; [errors] is
    [self.errors] before the call, the second component is [self.errors]
    after it. *)
Fixpoint infer_type (scope : Scope) (node : Node) (errors : list string) {struct node}
  : option string * list string :=
  match node with
  | Literal _ typ => (Some typ, errors)
  | UnaryOp op e =>
      if str_contains "!" op || str_eq op "pre!" || str_eq op "post!" then
        (Some "bool", errors)
      else if str_in op ["pre++"; "pre--"; "post++"; "post--"] then
        infer_type scope e errors
      else if str_in op ["+"; "-"] then infer_type scope e errors
      else (* the second [if t is _ast.UnaryOp] *) infer_type scope e errors
  | VarRef n =>
      match scope !! n with
      | Some (t, _) => (Some t, errors)
      | None =>
          match self_global_scope !! n with
          | Some (t, _) => (Some t, errors)
          | None =>
              if in_functions n self_functions
              then (None, errors ++ [msg_func_as_value n])
              else (None, errors ++ [msg_undeclared n])
          end
      end
  | FuncCall n args =>
      match lookup_function n self_functions with
      | None => (None, errors ++ [msg_undeclared_call n])
      | Some callee =>
          let errors :=
            if negb (length args =? length callee.(params))
            then errors ++ [msg_arg_count n] else errors in
          let errors := check_args (infer_type scope) callee n 0 args errors in
          (Some callee.(ret_type), errors)
      end
  | BinaryOp op l r =>
      let '(ltype, errors) := infer_type scope l errors in
      let '(rtype, errors) := infer_type scope r errors in
      if str_in op ARITH_OPS then
        if bool_decide (ltype = Some "float") || bool_decide (rtype = Some "float")
        then (Some "float", errors) else (Some "int", errors)
      else if str_in op COMPARE_OPS then (Some "bool", errors)
      else if str_in op LOGIC_OPS then (Some "bool", errors)
      else if str_in op ASSIGN_OPS then
        match l with
        | VarRef lname =>
            match scope !! lname with
            | Some (t, _) => (Some t, errors)
            | None =>
                match self_global_scope !! lname with
                | Some (t, _) => (Some t, errors)
                | None => (None, errors)
                end
            end
        | _ => (None, errors)
        end
      else (None, errors)
  | _ => (None, errors)
  end.

(** [infer_type(node)] where [node] may be [None]. *)
Definition infer_type_opt (scope : Scope) (o : option Node) (errors : list string)
  : option string * list string :=
  match o with
  | Some n => infer_type scope n errors
  | None => (None, errors)
  end.

(** The closure [visit]: it updates the local [scope] and [self.errors]. *)
Fixpoint visit (node : Node) (scope : Scope) (errors : list string) {struct node}
  : Scope * list string :=
  match node with
  | Compound stmts =>
      visit_all visit stmts scope errors
  | VarDecl var_type n init is_const =>
      let errors :=
        if in_scope n scope then errors ++ [msg_redeclaration n] else errors in
      let scope := <[n := (var_type, is_const)]> scope in
      match init with
      | Some i =>
          if node_truthy init then
            let '(it, errors) := infer_type scope i errors in
            let errors :=
              if mismatch it var_type
              then errors ++ [msg_init_type n (type_text it) var_type] else errors in
            visit i scope errors
          else (scope, errors)
      | None => (scope, errors)
      end
  | If cond then_branch else_branch =>
      let '(scope, errors) := visit cond scope errors in
      let '(scope, errors) := visit then_branch scope errors in
      match else_branch with
      | Some e => if node_truthy else_branch then visit e scope errors else (scope, errors)
      | None => (scope, errors)
      end
  | While cond b =>
      let '(scope, errors) := visit cond scope errors in
      visit b scope errors
  | Return expr =>
      match expr with
      | Some e =>
          if node_truthy expr then
            let '(rtype, errors) := infer_type scope e errors in
            let errors :=
              if negb (str_eq f.(ret_type) "void") && mismatch rtype f.(ret_type)
              then errors ++ [msg_return_type (type_text rtype)] else errors in
            visit e scope errors
          else (scope, errors)
      | None => (scope, errors)
      end
  | ExprStmt e => visit e scope errors
  | BinaryOp op l r =>
      let errors :=
        if str_in op ASSIGN_OPS then
          match l with
          | VarRef lname =>
              let errors :=
                match scope !! lname with
                | Some (_, true) => errors ++ [msg_const_local lname]
                | _ => errors
                end in
              match self_global_scope !! lname with
              | Some (_, true) => errors ++ [msg_const_global lname]
              | _ => errors
              end
          | _ => errors
          end
        else errors in
      let '(scope, errors) := visit l scope errors in
      visit r scope errors
  | UnaryOp _ e => visit e scope errors
  | VarRef n =>
      if negb (in_scope n scope) && negb (in_scope n self_global_scope) &&
         negb (in_functions n self_functions)
      then (scope, errors ++ [msg_undeclared n]) else (scope, errors)
  | FuncCall n args =>
      let errors :=
        if negb (in_functions n self_functions)
        then errors ++ [msg_undeclared_call n] else errors in
      visit_all visit args scope errors
  | _ => (scope, errors)
  end.

(** [{ name: (typ, False) for typ, name in f.params }] *)
Definition param_scope (ps : list (string * string)) : Scope :=
  fold_left (fun sc p => <[p.2 := (p.1, false)]> sc) ps ∅.

(** [check_function(f)]: [self.errors] after the walk of the body. *)
Definition check_function (errors : list string) : list string :=
  (visit f.(body) (param_scope f.(params)) errors).2.

End CheckFunction.

(** Pass 1 of [analyze]: one iteration of the loop over the top-level
    declarations. *)
Definition collect (self : SemanticAnalyzer) (decl : Node) : SemanticAnalyzer :=
  match decl with
  | VarDecl var_type n _ is_const =>
      if in_scope n self.(global_scope) then
        mkAnalyzer self.(program) (self.(errors) ++ ["Redeclaration of global " +:+ n])
                   self.(global_scope) self.(functions)
      else
        mkAnalyzer self.(program) self.(errors)
                   (<[n := (var_type, is_const)]> self.(global_scope)) self.(functions)
  | FuncDecl rt n ps b =>
      if in_functions n self.(functions) then
        mkAnalyzer self.(program) (self.(errors) ++ ["Redeclaration of function " +:+ n])
                   self.(global_scope) self.(functions)
      else
        mkAnalyzer self.(program) self.(errors) self.(global_scope)
                   (self.(functions) ++ [(n, mkFuncDecl rt n ps b)])
  | _ => self
  end.

Definition pass1 (self : SemanticAnalyzer) : SemanticAnalyzer :=
  fold_left collect self.(program).(declarations) self.

(** Pass 2: [for fname, fdecl in self.functions.items(): self.check_function(fdecl)]. *)
Definition pass2 (self : SemanticAnalyzer) : SemanticAnalyzer :=
  mkAnalyzer self.(program)
    (fold_left (fun errs kv => check_function self.(global_scope) self.(functions) kv.2 errs)
               self.(functions) self.(errors))
    self.(global_scope) self.(functions).

Definition analyze (self : SemanticAnalyzer) : SemanticAnalyzer := pass2 (pass1 self).

(** The diagnostics of a fresh analyzer run once over [p]. *)
Definition diagnostics (p : Program) : list string := (analyze (new p)).(errors).

(** The pipeline of [run.py]: parse, then analyze. *)
Definition check_source (fuel : nat) (code : string) : result (list string) :=
  match parse fuel code with
  | Ok p => Ok (diagnostics p)
  | Raise e => Raise e
  | OutOfFuel => OutOfFuel
  end.

End Semantic.

Import Semantic.


(** * Properties *)

(** ** The recursion budget of the parser

    A method that returns or raises with some budget does the same with
    any larger one, so the outcome of a parse does not depend on the budget
    once it is large enough. *)

Module ParserFacts.

Definition le_res {A} (r r' : result A) : Prop := r = OutOfFuel ∨ r = r'.

Lemma le_res_refl {A} (r : result A) : le_res r r.
Proof. by right. Qed.

Lemma le_res_bot {A} (r : result A) : le_res OutOfFuel r.
Proof. by left. Qed.

Lemma bind_le {A B} (m m' : M A) (k k' : A → M B) pos :
  le_res (m pos) (m' pos) →
  (∀ a p, le_res (k a p) (k' a p)) →
  le_res (bind m k pos) (bind m' k' pos).
Proof.
  intros [Hm | Hm] Hk; unfold bind.
  - rewrite Hm. apply le_res_bot.
  - rewrite Hm. destruct (m' pos) as [[a p] | e |]; [apply Hk | apply le_res_refl ..].
Qed.

Ltac mono_step IH :=
  lazymatch goal with
  | |- le_res (bind _ _ _) (bind _ _ _) => apply bind_le; [ | intros ? ? ]
  | |- le_res ((if ?b then _ else _) _) _ => destruct b
  | |- le_res (match ?o with _ => _ end _) _ => destruct o
  | |- le_res _ _ => first [ solve [ IH ] | apply le_res_refl ]
  end.

Section Mono.

Variable tokens : list Token.

Lemma parse_postfix_mono f f' :
  f ≤ f' → ∀ lhs pos,
  le_res (parse_postfix tokens f lhs pos) (parse_postfix tokens f' lhs pos).
Proof.
  revert f'. induction f as [| f IH]; intros f' Hle lhs pos; [apply le_res_bot |].
  destruct f' as [| f']; [lia |].
  cbn [parse_postfix].
  repeat mono_step ltac:(apply IH; lia).
Qed.

Lemma parse_expression_mono f :
  (∀ f', f ≤ f' → ∀ min_prec pos,
     le_res (parse_expression tokens f min_prec pos)
            (parse_expression tokens f' min_prec pos)) ∧
  (∀ f', f ≤ f' → ∀ args pos,
     le_res (parse_args tokens f args pos) (parse_args tokens f' args pos)) ∧
  (∀ f', f ≤ f' → ∀ min_prec lhs pos,
     le_res (parse_binary tokens f min_prec lhs pos)
            (parse_binary tokens f' min_prec lhs pos)).
Proof.
  induction f as [| f (IHe & IHa & IHb)].
  { repeat split; intros; apply le_res_bot. }
  repeat split; intros f' Hle; (destruct f' as [| f']; [lia |]); intros.
  - cbn [parse_expression].
    repeat mono_step ltac:(first [ apply IHe; lia | apply IHa; lia | apply IHb; lia
                                 | apply parse_postfix_mono; lia ]).
  - cbn [parse_args].
    repeat mono_step ltac:(first [ apply IHe; lia | apply IHa; lia ]).
  - cbn [parse_binary].
    repeat mono_step ltac:(first [ apply IHe; lia | apply IHb; lia ]).
Qed.

Lemma parse_expr_mono f f' :
  f ≤ f' → ∀ min_prec pos,
  le_res (parse_expression tokens f min_prec pos)
         (parse_expression tokens f' min_prec pos).
Proof. intros. by apply parse_expression_mono. Qed.

Lemma parse_declarators_mono f f' :
  f ≤ f' → ∀ typ is_const decls pos,
  le_res (parse_declarators tokens f typ is_const decls pos)
         (parse_declarators tokens f' typ is_const decls pos).
Proof.
  revert f'. induction f as [| f IH]; intros f' Hle **; [apply le_res_bot |].
  destruct f' as [| f']; [lia |].
  cbn [parse_declarators].
  repeat mono_step ltac:(first [ apply IH; lia | apply parse_expr_mono; lia ]).
Qed.

Lemma parse_params_mono f f' :
  f ≤ f' → ∀ params pos,
  le_res (parse_params tokens f params pos) (parse_params tokens f' params pos).
Proof.
  revert f'. induction f as [| f IH]; intros f' Hle **; [apply le_res_bot |].
  destruct f' as [| f']; [lia |].
  cbn [parse_params].
  repeat mono_step ltac:(apply IH; lia).
Qed.

Lemma parse_statement_mono f :
  (∀ f', f ≤ f' → ∀ pos,
     le_res (parse_declaration tokens f pos) (parse_declaration tokens f' pos)) ∧
  (∀ f', f ≤ f' → ∀ pos,
     le_res (parse_typed_declaration tokens f pos)
            (parse_typed_declaration tokens f' pos)) ∧
  (∀ f', f ≤ f' → ∀ pos,
     le_res (parse_compound tokens f pos) (parse_compound tokens f' pos)) ∧
  (∀ f', f ≤ f' → ∀ stmts pos,
     le_res (parse_statements tokens f stmts pos)
            (parse_statements tokens f' stmts pos)) ∧
  (∀ f', f ≤ f' → ∀ pos,
     le_res (parse_statement tokens f pos) (parse_statement tokens f' pos)).
Proof.
  induction f as [| f (IHd & IHt & IHc & IHss & IHs)].
  { repeat split; intros; apply le_res_bot. }
  repeat split; intros f' Hle; (destruct f' as [| f']; [lia |]); intros.
  - cbn [parse_declaration].
    repeat mono_step ltac:(apply IHt; lia).
  - cbn [parse_typed_declaration].
    repeat mono_step ltac:(first [ apply IHc; lia | apply parse_params_mono; lia
                                 | apply parse_declarators_mono; lia
                                 | apply parse_expr_mono; lia ]).
  - cbn [parse_compound].
    repeat mono_step ltac:(apply IHss; lia).
  - cbn [parse_statements].
    repeat mono_step ltac:(first [ apply IHs; lia | apply IHss; lia ]).
  - cbn [parse_statement].
    repeat mono_step ltac:(first [ apply IHs; lia | apply IHc; lia | apply IHd; lia
                                 | apply IHt; lia | apply parse_expr_mono; lia ]).
Qed.

Lemma parse_loop_mono f f' :
  f ≤ f' → ∀ decls pos,
  le_res (parse_loop tokens f decls pos) (parse_loop tokens f' decls pos).
Proof.
  revert f'. induction f as [| f IH]; intros f' Hle **; [apply le_res_bot |].
  destruct f' as [| f']; [lia |].
  cbn [parse_loop].
  repeat mono_step ltac:(first [ apply IH; lia | apply parse_statement_mono; lia ]).
Qed.

End Mono.

Lemma run_le {A} (m m' : M A) : le_res (m 0) (m' 0) → le_res (run m) (run m').
Proof. unfold run. intros [-> | ->]; [apply le_res_bot | apply le_res_refl]. Qed.

(** More budget never changes an outcome that was reached. *)
Lemma parse_mono f f' code : f ≤ f' → le_res (parse f code) (parse f' code).
Proof.
  intros Hle. unfold parse. destruct (tokenize code); [| apply le_res_refl].
  by apply run_le, parse_loop_mono.
Qed.

Lemma parse_expr_code_mono f f' code :
  f ≤ f' → le_res (parse_expr f code) (parse_expr f' code).
Proof.
  intros Hle. unfold parse_expr. destruct (tokenize code); [| apply le_res_refl].
  by apply run_le, parse_expr_mono.
Qed.

Lemma check_source_mono f f' code :
  f ≤ f' → le_res (check_source f code) (check_source f' code).
Proof.
  intros Hle. unfold check_source.
  destruct (parse_mono f f' code Hle) as [-> | ->]; [apply le_res_bot | apply le_res_refl].
Qed.

Lemma le_res_det {A} (r r1 r2 : result A) (x y : A) :
  le_res r1 r → le_res r2 r → r1 = Ok x → r2 = Ok y → x = y.
Proof. intros [-> | ->] [-> | ->] ??; congruence. Qed.

End ParserFacts.

(** ** Outcomes that do not mention the budget *)

(** [Parser(code).parse()] returns the tree [p]. *)
Definition parses_to (code : string) (p : Program) : Prop :=
  ∃ fuel, parse fuel code = Ok p.

(** [Parser(code).parse_expression()] returns the tree [e]. *)
Definition expr_parses_to (code : string) (e : Node) : Prop :=
  ∃ fuel, parse_expr fuel code = Ok e.

(** Parsing [code] succeeds and analysing the tree leaves [errs] in
    [self.errors]. *)
Definition analyzes_to (code : string) (errs : list string) : Prop :=
  ∃ fuel, check_source fuel code = Ok errs.

Lemma parses_to_det code p p' : parses_to code p → parses_to code p' → p = p'.
Proof.
  intros [f Hf] [f' Hf'].
  eapply (ParserFacts.le_res_det (parse (f `max` f') code)); eauto;
    apply ParserFacts.parse_mono; lia.
Qed.

Lemma expr_parses_to_det code e e' :
  expr_parses_to code e → expr_parses_to code e' → e = e'.
Proof.
  intros [f Hf] [f' Hf'].
  eapply (ParserFacts.le_res_det (parse_expr (f `max` f') code)); eauto;
    apply ParserFacts.parse_expr_code_mono; lia.
Qed.

Lemma analyzes_to_det code errs errs' :
  analyzes_to code errs → analyzes_to code errs' → errs = errs'.
Proof.
  intros [f Hf] [f' Hf'].
  eapply (ParserFacts.le_res_det (check_source (f `max` f') code)); eauto;
    apply ParserFacts.check_source_mono; lia.
Qed.

(** ** The scanner is total *)

Module LexerFacts.

Lemma span_le p s : span p s ≤ String.length s.
Proof. induction s as [| c r IH]; simpl; [lia |]. destruct (p c); lia. Qed.

Lemma length_drop_str n s : String.length (drop_str n s) = String.length s - n.
Proof.
  revert s. induction n as [| n IH]; intros [| c r]; simpl; try lia. apply IH.
Qed.

Lemma find_close_bound s i : find_close s = Some i → i + 2 ≤ String.length s.
Proof.
  revert i. induction s as [| a r IH]; intros i; simpl; [done |].
  destruct r as [| b r']; [done |].
  destruct (Ascii.eqb a "*" && Ascii.eqb b "/").
  - intros [= <-]. simpl. lia.
  - destruct (find_close (String b r')) as [j |] eqn:Hj; [| done].
    intros [= <-]. specialize (IH j eq_refl). simpl in *. lia.
Qed.

(** A match is never empty and never runs past the end of the text. *)
Definition in_bounds (m : string → option nat) : Prop :=
  ∀ s n, m s = Some n → 1 ≤ n ≤ String.length s.

Lemma match_COMMENT_bounds : in_bounds match_COMMENT.
Proof.
  intros [| a [| b r]] n; simpl; try done.
  destruct (_ && _); [| done]. intros [= <-]. pose proof (span_le is_dot r). lia.
Qed.

Lemma match_MULTICOMMENT_bounds : in_bounds match_MULTICOMMENT.
Proof.
  intros [| a [| b r]] n; simpl; try done.
  destruct (_ && _); [| done].
  destruct (find_close r) as [i |] eqn:Hi; [| done].
  intros [= <-]. apply find_close_bound in Hi. lia.
Qed.

Lemma match_CHAR_bounds : in_bounds match_CHAR.
Proof.
  intros [| q [| x r]] n; simpl; try done.
  destruct (Ascii.eqb q "'"); [| done].
  destruct (Ascii.eqb x "\").
  - destruct r as [| y [| z r']]; try done.
    destruct (_ && _); [| done]. intros [= <-]. simpl. lia.
  - destruct (Ascii.eqb x "'"); [done |].
    destruct r as [| z r']; [done |].
    destruct (Ascii.eqb z "'"); [| done]. intros [= <-]. simpl. lia.
Qed.

Lemma match_FLOAT_bounds : in_bounds match_FLOAT.
Proof.
  intros s n. unfold match_FLOAT.
  destruct (span is_digit s =? 0) eqn:Hn; [done |].
  destruct (drop_str (span is_digit s) s) as [| d r] eqn:Hd; [done |].
  destruct (Ascii.eqb d "."); [| done].
  destruct (span is_digit r =? 0); [done |].
  intros [= <-].
  pose proof (length_drop_str (span is_digit s) s) as Hl. rewrite Hd in Hl.
  pose proof (span_le is_digit r). pose proof (span_le is_digit s).
  simpl in Hl. lia.
Qed.

Lemma match_INT_bounds : in_bounds match_INT.
Proof.
  intros s n. unfold match_INT.
  destruct (span is_digit s =? 0) eqn:Hn; [done |].
  intros [= <-]. apply Nat.eqb_neq in Hn. pose proof (span_le is_digit s). lia.
Qed.

Lemma match_ID_bounds : in_bounds match_ID.
Proof.
  intros [| c r] n; simpl; [done |].
  destruct (is_id_start c); [| done].
  intros [= <-]. pose proof (span_le is_id_char r). lia.
Qed.

Lemma match_OP_bounds : in_bounds match_OP.
Proof.
  intros [| a [| b r]] n; cbn [match_OP]; try done.
  destruct (str_in _ _); [| done]. intros [= <-]. simpl. lia.
Qed.

Lemma match_SYMBOL_bounds : in_bounds match_SYMBOL.
Proof.
  intros [| c r] n; simpl; [done |].
  destruct (is_symbol c); [| done]. intros [= <-]. lia.
Qed.

Lemma match_SKIP_bounds : in_bounds match_SKIP.
Proof.
  intros s n. unfold match_SKIP.
  destruct (span is_blank s =? 0) eqn:Hn; [done |].
  intros [= <-]. apply Nat.eqb_neq in Hn. pose proof (span_le is_blank s). lia.
Qed.

Lemma match_NEWLINE_bounds : in_bounds match_NEWLINE.
Proof.
  intros [| c r] n; simpl; [done |].
  destruct (Ascii.eqb c newline); [| done]. intros [= <-]. lia.
Qed.

Lemma first_match_spec spec s k n :
  Forall (λ nm, in_bounds nm.2) spec →
  first_match spec s = Some (k, n) →
  k ∈ spec.*1 ∧ 1 ≤ n ≤ String.length s.
Proof.
  induction 1 as [| [name m] spec Hm Hspec IH]; simpl; [done |].
  destruct (m s) as [n' |] eqn:Hms.
  - intros [= <- <-]. split; [left | by apply Hm].
  - intros H. destruct (IH H) as [Hk Hn]. split; [by right | done].
Qed.

Lemma token_specification_bounds :
  Forall (λ nm, in_bounds nm.2) token_specification.
Proof.
  unfold token_specification.
  repeat (apply Forall_cons; split); try apply Forall_nil; cbn [snd].
  - apply match_COMMENT_bounds.
  - apply match_MULTICOMMENT_bounds.
  - apply match_CHAR_bounds.
  - apply match_FLOAT_bounds.
  - apply match_INT_bounds.
  - apply match_ID_bounds.
  - apply match_OP_bounds.
  - apply match_SYMBOL_bounds.
  - apply match_SKIP_bounds.
  - apply match_NEWLINE_bounds.
  - exact I.
Qed.

Lemma regex_match_spec s k n :
  regex_match s = Some (k, n) →
  k ∈ token_specification.*1 ∧ 1 ≤ n ≤ String.length s.
Proof. apply first_match_spec, token_specification_bounds. Qed.

Definition not_EOF (t : Token) : Prop := t.(type) ≠ "EOF".

(** The type of an emitted token: a group name, or a keyword. *)
Lemma emitted_type_not_EOF k v :
  k ∈ token_specification.*1 →
  (if str_eq k "ID" && str_in v KEYWORDS then v else k) ≠ "EOF".
Proof.
  intros Hk. destruct (str_eq k "ID" && str_in v KEYWORDS) eqn:Hc.
  - apply andb_prop in Hc as [_ Hv]. intros ->. by vm_compute in Hv.
  - intros ->. simpl in Hk.
    repeat (apply elem_of_cons in Hk as [Hk | Hk]; [done |]).
    by apply elem_of_nil in Hk.
Qed.

(** With a budget of at least the length of the remaining text, the loop
    runs to the end of the text; it only appends to [tokens], and never a
    token of type [EOF]. *)
Lemma tokenize_loop_total fuel :
  ∀ rest pos line_num line_start tokens,
  String.length rest ≤ fuel →
  ∃ new line_num',
    tokenize_loop fuel rest pos line_num line_start tokens
      = Some (tokens ++ new, line_num') ∧
    Forall not_EOF new.
Proof.
  induction fuel as [| fuel IH]; intros rest pos ln ls tokens Hlen.
  { destruct rest; simpl in *; [| lia]. exists [], ln. by rewrite app_nil_r. }
  destruct rest as [| c rest']; simpl tokenize_loop.
  { exists [], ln. by rewrite app_nil_r. }
  destruct (regex_match (String c rest')) as [[k n] |] eqn:Hm.
  - apply regex_match_spec in Hm as [Hk Hn].
    assert (String.length (drop_str n (String c rest')) ≤ fuel) as Hd.
    { rewrite length_drop_str. simpl in *. lia. }
    destruct (str_eq k "NEWLINE"); [by apply IH |].
    destruct (_ || _); [by apply IH |].
    edestruct (IH (drop_str n (String c rest')) (pos + n) ln ls) as (new & ln' & -> & Hnew);
      [done |].
    eexists (_ :: new), ln'. rewrite <- app_assoc. split; [done |].
    constructor; [| done]. by apply emitted_type_not_EOF.
  - apply IH. simpl in Hlen. lia.
Qed.

(** A string all of whose characters start no token pattern. *)
Definition starts_nothing (c : ascii) : bool :=
  negb (is_digit c || is_id_start c || is_symbol c || is_blank c ||
        Ascii.eqb c newline || Ascii.eqb c "'").

Fixpoint all_chars (p : ascii → bool) (s : string) : bool :=
  match s with
  | EmptyString => true
  | String c r => p c && all_chars p r
  end.

Lemma regex_match_starts_nothing c rest :
  starts_nothing c = true → regex_match (String c rest) = None.
Proof.
  unfold starts_nothing. rewrite negb_true_iff, !orb_false_iff.
  intros (((((Hd & Hi) & Hs) & Hb) & Hn) & Hq).
  assert (Ascii.eqb c "/" = false) as Hsl.
  { destruct (Ascii.eqb c "/") eqn:E; [| done].
    apply Ascii.eqb_eq in E as ->. by vm_compute in Hs. }
  unfold regex_match, token_specification, first_match.
  assert (match_COMMENT (String c rest) = None) as ->.
  { simpl. destruct rest; [done |]. by rewrite Hsl. }
  assert (match_MULTICOMMENT (String c rest) = None) as ->.
  { simpl. destruct rest; [done |]. by rewrite Hsl. }
  assert (match_CHAR (String c rest) = None) as ->.
  { simpl. destruct rest; [done |]. by rewrite Hq. }
  assert (match_FLOAT (String c rest) = None) as ->.
  { unfold match_FLOAT. simpl. by rewrite Hd. }
  assert (match_INT (String c rest) = None) as ->.
  { unfold match_INT. simpl. by rewrite Hd. }
  assert (match_ID (String c rest) = None) as ->.
  { simpl. by rewrite Hi. }
  assert (match_OP (String c rest) = None) as ->.
  { cbn [match_OP]. destruct rest as [| b r]; [done |].
    destruct (str_in _ OPERATORS) eqn:E; [| done].
    unfold str_in, OPERATORS in E. simpl in E.
    unfold str_eq in E. simpl in E.
    repeat (apply orb_prop in E as [E | E];
            [ apply andb_prop in E as [E _]; apply Ascii.eqb_eq in E as ->;
              by vm_compute in Hs |]).
    done. }
  assert (match_SYMBOL (String c rest) = None) as ->.
  { simpl. by rewrite Hs. }
  assert (match_SKIP (String c rest) = None) as ->.
  { unfold match_SKIP. simpl. by rewrite Hb. }
  simpl. by rewrite Hn.
Qed.

Lemma tokenize_loop_starts_nothing s :
  ∀ fuel pos line_num line_start tokens,
  all_chars starts_nothing s = true → String.length s ≤ fuel →
  tokenize_loop fuel s pos line_num line_start tokens = Some (tokens, line_num).
Proof.
  induction s as [| c r IH]; intros fuel pos ln ls tokens Hall Hlen.
  { by destruct fuel. }
  simpl in Hall. apply andb_prop in Hall as [Hc Hr].
  destruct fuel as [| fuel]; [simpl in Hlen; lia |].
  simpl tokenize_loop. rewrite (regex_match_starts_nothing c r Hc).
  apply IH; [done |]. simpl in Hlen. lia.
Qed.

End LexerFacts.

(** ** The analyzer only appends to [self.errors] *)

Module SemanticFacts.

Section Walks.

Variable gs : Scope.
Variable fs : FuncTable.
Variable f : FuncDeclT.

(** [g] threads the diagnostics list and only appends to it. *)
Definition appends {A} (g : list string → A * list string) : Prop :=
  ∀ errs, g errs = ((g []).1, errs ++ (g []).2).

Lemma appends_ret {A} (a : A) : appends (λ errs, (a, errs)).
Proof. intros errs. simpl. by rewrite app_nil_r. Qed.

Lemma appends_push {A} (a : A) msg : appends (λ errs, (a, errs ++ [msg])).
Proof. by intros errs. Qed.

Lemma appends_bind {A B} (g : list string → A * list string)
    (k : A → list string → B * list string) :
  appends g → (∀ a, appends (k a)) →
  appends (λ errs, let '(a, errs') := g errs in k a errs').
Proof.
  intros Hg Hk errs. rewrite (Hg errs).
  destruct (g []) as [a e0]. simpl.
  rewrite (Hk a (errs ++ e0)), (Hk a e0). simpl. by rewrite app_assoc.
Qed.

Lemma check_args_app scope callee n l :
  Forall (λ a, appends (infer_type gs fs f scope a)) l →
  ∀ i errs,
  check_args (infer_type gs fs f scope) callee n i l errs =
  errs ++ check_args (infer_type gs fs f scope) callee n i l [].
Proof.
  induction 1 as [| a l Ha Hl IH]; intros i errs; cbn [check_args].
  { by rewrite app_nil_r. }
  rewrite (Ha errs). destruct (infer_type gs fs f scope a []) as [at_ e0].
  cbn [fst snd].
  destruct (params callee !! i) as [[expected ?] |].
  - destruct (truthy_str expected && mismatch at_ expected).
    + rewrite (IH (S i) ((errs ++ e0) ++ _)), (IH (S i) (e0 ++ _)).
      by rewrite !app_assoc.
    + rewrite (IH (S i) (errs ++ e0)), (IH (S i) e0). by rewrite app_assoc.
  - rewrite (IH (S i) (errs ++ e0)), (IH (S i) e0). by rewrite app_assoc.
Qed.

Lemma infer_type_appends n : ∀ scope, appends (infer_type gs fs f scope n).
Proof.
  induction n as [ | | | | | | | | op l r IHl IHr | op e IHe | v t | x | x args IHargs | ]
    using Node_nested_ind; intros scope; cbn [infer_type];
    try apply appends_ret.
  - (* BinaryOp *)
    apply (appends_bind (infer_type gs fs f scope l)); [apply IHl |].
    intros ltype.
    apply (appends_bind (infer_type gs fs f scope r)); [apply IHr |].
    intros rtype.
    repeat case_match; apply appends_ret.
  - (* UnaryOp *)
    repeat case_match; first [ apply appends_ret | apply IHe ].
  - (* VarRef *)
    repeat case_match; first [ apply appends_ret | apply appends_push ].
  - (* FuncCall *)
    destruct (lookup_function x fs) as [callee |]; [| apply appends_push].
    assert (Forall (λ a, appends (infer_type gs fs f scope a)) args) as Hall.
    { eapply Forall_impl; [exact IHargs |]. intros a Ha. apply Ha. }
    pose proof (check_args_app scope callee x args Hall 0) as Hc.
    intros errs. cbn [fst snd].
    destruct (negb (length args =? length (params callee))).
    + cbn [app]. rewrite (Hc (errs ++ _)), (Hc [msg_arg_count f x]).
      by rewrite !app_assoc.
    + rewrite (Hc errs). done.
Qed.

Lemma visit_all_appends (v : Node → Scope → list string → Scope * list string) l :
  Forall (λ s, ∀ scope, appends (v s scope)) l →
  ∀ scope, appends (visit_all v l scope).
Proof.
  induction 1 as [| s l Hs Hl IH]; intros scope errs; cbn [visit_all].
  { cbn. by rewrite app_nil_r. }
  rewrite (Hs scope errs). destruct (v s scope []) as [sc1 e1]. cbn [fst snd].
  rewrite (IH sc1 (errs ++ e1)), (IH sc1 e1). cbn [fst snd].
  by rewrite app_assoc.
Qed.

Ltac not_nil e := lazymatch e with @nil _ => fail | _ => idtac end.

Ltac plain_scope sc :=
  lazymatch sc with
  | context [visit _ _ _ _ _ _] => fail
  | context [visit_all _ _ _ _] => fail
  | _ => idtac
  end.

Ltac app_step :=
  match goal with
  | E : ?call = (_, _) |- context [?call] => rewrite E; cbn [fst snd app]
  | |- context [infer_type ?g ?t ?h ?sc ?n ?e] =>
      not_nil e; rewrite (infer_type_appends n sc e)
  | H : (∀ sc, appends (visit _ _ _ ?n sc)) |- context [visit _ _ _ ?n ?sc ?e] =>
      not_nil e; rewrite (H sc e)
  | H : (∀ sc, appends (visit_all _ ?l sc)) |- context [visit_all _ ?l ?sc ?e] =>
      not_nil e; rewrite (H sc e)
  | |- context [visit ?g ?t ?h ?n ?sc []] =>
      plain_scope sc; destruct (visit g t h n sc []) as [? ?] eqn:?; cbn [fst snd app]
  | |- context [visit_all ?v ?l ?sc []] =>
      plain_scope sc; destruct (visit_all v l sc []) as [? ?] eqn:?; cbn [fst snd app]
  | |- context [infer_type ?g ?t ?h ?sc ?n []] =>
      plain_scope sc; destruct (infer_type g t h sc n []) as [? ?] eqn:?;
      cbn [fst snd app]
  | |- context [if ?b then _ else _] => destruct b; cbn [fst snd app]
  | |- context [match ?x with _ => _ end] =>
      lazymatch x with
      | visit _ _ _ _ _ _ => fail
      | visit_all _ _ _ _ => fail
      | infer_type _ _ _ _ _ _ => fail
      | _ => destruct x; cbn [fst snd app]
      end
  end.

Ltac app_solve :=
  cbn [fst snd app]; repeat app_step;
  rewrite ?app_nil_r, <- ?app_assoc; cbn [app]; try done.

Lemma visit_appends n : ∀ scope, appends (visit gs fs f n scope).
Proof.
  induction n as [ | t x init c IHi | l IHl | c t e IHc IHt IHe | c b IHc IHb |
                   | e IHe | e IHe | op l r IHl IHr | op e IHe | | x | x args IHargs | ]
    using Node_nested_ind; intros scope; cbn [visit];
    try apply appends_ret.
  - (* VarDecl *)
    intros errs. destruct init as [i |]; cbn [opt_holds] in IHi; app_solve.
  - (* Compound *)
    by apply visit_all_appends.
  - (* If *)
    intros errs. destruct e as [e |]; cbn [opt_holds] in IHe; app_solve.
  - (* While *)
    intros errs. app_solve.
  - (* Return *)
    intros errs. destruct e as [e |]; cbn [opt_holds] in IHe; app_solve.
  - (* ExprStmt *)
    apply IHe.
  - (* BinaryOp *)
    intros errs. app_solve.
  - (* UnaryOp *)
    apply IHe.
  - (* VarRef *)
    intros errs. app_solve.
  - (* FuncCall *)
    pose proof (visit_all_appends _ _ IHargs) as Hall.
    intros errs. app_solve.
Qed.

Lemma check_function_app errs :
  check_function gs fs f errs = errs ++ check_function gs fs f [].
Proof. unfold check_function. by rewrite (visit_appends _ _ errs). Qed.

(** Walking an expression leaves the local scope as it is. *)
Lemma visit_expr_scope n :
  is_expr n = true → ∀ scope errs, (visit gs fs f n scope errs).1 = scope.
Proof.
  induction n as [ | | | | | | | | op l r IHl IHr | op e IHe | | x | x args IHargs | ]
    using Node_nested_ind; cbn [is_expr]; try done; intros He scope errs;
    cbn [visit].
  - apply andb_prop in He as [Hl Hr].
    match goal with
    | |- context [visit gs fs f l scope ?e] =>
        pose proof (IHl Hl scope e) as H1;
        destruct (visit gs fs f l scope e) as [sc1 e1]
    end.
    cbn in H1. subst sc1. by apply IHr.
  - by destruct (_ && _).
  - generalize (if negb (in_functions x fs)
                then errs ++ [msg_undeclared_call f x] else errs).
    revert scope. induction IHargs as [| a l Ha Hl IH]; intros scope e; [done |].
    cbn [forallb] in He. apply andb_prop in He as [Ha' Hl'].
    cbn [visit_all].
    destruct (visit gs fs f a scope e) as [sc1 e1] eqn:E1.
    pose proof (Ha Ha' scope e) as H1. rewrite E1 in H1. cbn in H1. subst sc1.
    by apply IH.
Qed.

End Walks.
End SemanticFacts.

(** ** Pass 1: the collection of globals and functions *)

Module CollectFacts.

(** The names of the top-level variable declarations, in order. *)
Fixpoint var_names (l : list Node) : list string :=
  match l with
  | [] => []
  | VarDecl _ n _ _ :: l' => n :: var_names l'
  | _ :: l' => var_names l'
  end.

(** The names of the top-level function declarations, in order. *)
Fixpoint func_names (l : list Node) : list string :=
  match l with
  | [] => []
  | FuncDecl _ n _ _ :: l' => n :: func_names l'
  | _ :: l' => func_names l'
  end.

(** The diagnostic pass 1 gives when every declaration is a redeclaration. *)
Fixpoint redeclarations (l : list Node) : list string :=
  match l with
  | [] => []
  | VarDecl _ n _ _ :: l' => ("Redeclaration of global " +:+ n) :: redeclarations l'
  | FuncDecl _ n _ _ :: l' => ("Redeclaration of function " +:+ n) :: redeclarations l'
  | _ :: l' => redeclarations l'
  end.

Definition collect_all (l : list Node) (self : SemanticAnalyzer) : SemanticAnalyzer :=
  fold_left collect l self.

Lemma str_eq_true a b : str_eq a b = true ↔ a = b.
Proof. apply String.eqb_eq. Qed.

Lemma str_eq_false a b : str_eq a b = false ↔ a ≠ b.
Proof. apply String.eqb_neq. Qed.

Lemma str_eq_refl a : str_eq a a = true.
Proof. by apply str_eq_true. Qed.

Lemma var_names_app l l' : var_names (l ++ l') = var_names l ++ var_names l'.
Proof.
  induction l as [| d l IH]; [done |].
  destruct d; simpl; by rewrite ?IH.
Qed.

Lemma func_names_app l l' : func_names (l ++ l') = func_names l ++ func_names l'.
Proof.
  induction l as [| d l IH]; [done |].
  destruct d; simpl; by rewrite ?IH.
Qed.

Lemma collect_all_app l l' self :
  collect_all (l ++ l') self = collect_all l' (collect_all l self).
Proof. apply fold_left_app. Qed.

Lemma lookup_function_app n fs k d :
  lookup_function n (fs ++ [(k, d)]) =
  match lookup_function n fs with
  | Some v => Some v
  | None => if str_eq k n then Some d else None
  end.
Proof.
  induction fs as [| [k' d'] fs IH]; simpl; [done |].
  by destruct (str_eq k' n).
Qed.

Lemma in_scope_true n (sc : Scope) : in_scope n sc = true ↔ is_Some (sc !! n).
Proof.
  unfold in_scope. destruct (sc !! n) as [v |]; split; intros H;
    [by exists v | done | done | by destruct H].
Qed.

Lemma in_scope_false n (sc : Scope) : in_scope n sc = false ↔ sc !! n = None.
Proof. unfold in_scope. by destruct (sc !! n). Qed.

Lemma in_functions_false n fs : in_functions n fs = false ↔ lookup_function n fs = None.
Proof. unfold in_functions. by destruct (lookup_function n fs). Qed.

Lemma in_functions_true n fs : in_functions n fs = true ↔ is_Some (lookup_function n fs).
Proof.
  unfold in_functions. destruct (lookup_function n fs) as [v |]; split; intros H;
    [by exists v | done | done | by destruct H].
Qed.

(** Pass 1 never touches [self.program]. *)
Lemma collect_all_program l self : (collect_all l self).(program) = self.(program).
Proof.
  revert self. induction l as [| d l IH]; intros self; [done |].
  cbn [collect_all fold_left]. fold (collect_all l (collect self d)). rewrite IH.
  destruct d; simpl; try done; by case_match.
Qed.

(** A name that is bound stays bound to the same entry: first wins. *)
Lemma collect_all_global_keep l : ∀ self n v,
  self.(global_scope) !! n = Some v →
  (collect_all l self).(global_scope) !! n = Some v.
Proof.
  induction l as [| d l IH]; intros self n v Hn; [done |].
  cbn [collect_all fold_left]. apply IH.
  destruct d; simpl; try done; case_match; simpl; try done.
  match goal with H : in_scope _ _ = false |- _ => apply in_scope_false in H end.
  rewrite lookup_insert_ne; [done |]. congruence.
Qed.

Lemma collect_all_function_keep l : ∀ self n d,
  lookup_function n self.(functions) = Some d →
  lookup_function n (collect_all l self).(functions) = Some d.
Proof.
  induction l as [| x l IH]; intros self n d Hn; [done |].
  cbn [collect_all fold_left]. apply IH.
  destruct x; simpl; try done; case_match; simpl; try done.
  by rewrite lookup_function_app, Hn.
Qed.

(** The names bound after the pass are those bound before and those
    declared. *)
Lemma collect_all_global_none l : ∀ self n,
  (collect_all l self).(global_scope) !! n = None ↔
  self.(global_scope) !! n = None ∧ n ∉ var_names l.
Proof.
  induction l as [| d l IH]; intros self n.
  { simpl. split; [intros H; split; [done | apply not_elem_of_nil] | by intros [? _]]. }
  cbn [collect_all fold_left]. fold (collect_all l (collect self d)). rewrite IH.
  destruct d as [ | t x i c | | | | | | | | | | | | ]; simpl; try done.
  - destruct (in_functions _ _); simpl; done.
  - rewrite not_elem_of_cons.
    destruct (in_scope x (global_scope self)) eqn:Hx; simpl.
    + apply in_scope_true in Hx as [v Hv].
      split; [intros [? ?]; repeat split; try done; congruence | by intros [? [? ?]]].
    + apply in_scope_false in Hx.
      destruct (decide (x = n)) as [-> | Hne].
      * rewrite lookup_insert_eq. split; [by intros [? _] | by intros [_ [? _]]].
      * rewrite lookup_insert_ne by done. split; [by intros [? ?] | by intros [? [_ ?]]].
Qed.

Lemma collect_all_function_none l : ∀ self n,
  lookup_function n (collect_all l self).(functions) = None ↔
  lookup_function n self.(functions) = None ∧ n ∉ func_names l.
Proof.
  induction l as [| d l IH]; intros self n.
  { simpl. split; [intros H; split; [done | apply not_elem_of_nil] | by intros [? _]]. }
  cbn [collect_all fold_left]. fold (collect_all l (collect self d)). rewrite IH.
  destruct d as [ rt x ps b | | | | | | | | | | | | | ]; simpl; try done.
  - rewrite not_elem_of_cons.
    destruct (in_functions x (functions self)) eqn:Hx; simpl.
    + apply in_functions_true in Hx as [v Hv].
      split; [intros [? ?]; repeat split; try done; congruence | by intros [? [? ?]]].
    + apply in_functions_false in Hx. rewrite lookup_function_app.
      destruct (lookup_function n (functions self)) eqn:Hn.
      * split; [by intros [? _] | by intros [? _]].
      * destruct (str_eq x n) eqn:E.
        -- apply str_eq_true in E. split; [by intros [? _] | by intros [_ [? _]]].
        -- apply str_eq_false in E. split; [by intros [_ ?] | by intros [_ [_ ?]]].
  - destruct (in_scope _ _); simpl; done.
Qed.

(** Declarations whose names are new and pairwise distinct add no
    diagnostic. *)
Definition fresh_for (self : SemanticAnalyzer) (l : list Node) : Prop :=
  NoDup (var_names l) ∧ (∀ n, n ∈ var_names l → self.(global_scope) !! n = None) ∧
  NoDup (func_names l) ∧
  (∀ n, n ∈ func_names l → lookup_function n self.(functions) = None).

Lemma collect_all_fresh l : ∀ self,
  fresh_for self l → (collect_all l self).(errors) = self.(errors).
Proof.
  induction l as [| d l IH]; intros self (Hv & Hgs & Hf & Hfs); [done |].
  cbn [collect_all fold_left]. fold (collect_all l (collect self d)).
  destruct d as [ rt x ps b | t x i c | | | | | | | | | | | | ];
    try (apply IH; by repeat split).
  - (* FuncDecl *)
    simpl in Hv, Hgs, Hf, Hfs. apply NoDup_cons in Hf as [Hx Hf].
    cbn [collect]. rewrite (proj2 (in_functions_false _ _) (Hfs x (list_elem_of_here _ _))).
    rewrite IH; [done |]. repeat split; simpl; try done.
    intros n Hn. rewrite lookup_function_app, (Hfs n) by by right.
    destruct (str_eq x n) eqn:E; [| done]. apply str_eq_true in E. congruence.
  - (* VarDecl *)
    simpl in Hv, Hgs, Hf, Hfs. apply NoDup_cons in Hv as [Hx Hv].
    cbn [collect]. rewrite (proj2 (in_scope_false _ _) (Hgs x (list_elem_of_here _ _))).
    rewrite IH; [done |]. repeat split; simpl; try done.
    intros n Hn. rewrite lookup_insert_ne by congruence. apply Hgs. by right.
Qed.

(** Declarations whose names are all bound already: each one adds its
    redeclaration diagnostic and nothing else changes. *)
Lemma collect_all_seen l : ∀ self,
  (∀ n, n ∈ var_names l → is_Some (self.(global_scope) !! n)) →
  (∀ n, n ∈ func_names l → is_Some (lookup_function n self.(functions))) →
  collect_all l self =
  mkAnalyzer self.(program) (self.(errors) ++ redeclarations l)
             self.(global_scope) self.(functions).
Proof.
  induction l as [| d l IH]; intros self Hv Hf.
  { simpl. rewrite app_nil_r. by destruct self. }
  cbn [collect_all fold_left]. fold (collect_all l (collect self d)).
  destruct d as [ rt x ps b | t x i c | | | | | | | | | | | | ];
    try (by apply IH).
  - cbn [collect]. simpl in Hf.
    rewrite (proj2 (in_functions_true _ _) (Hf x (list_elem_of_here _ _))).
    rewrite IH; simpl; [by rewrite <- app_assoc | done |].
    intros n Hn. apply Hf. by right.
  - cbn [collect]. simpl in Hv.
    rewrite (proj2 (in_scope_true _ _) (Hv x (list_elem_of_here _ _))).
    rewrite IH; simpl; [by rewrite <- app_assoc | | done].
    intros n Hn. apply Hv. by right.
Qed.

(** The tables pass 1 builds do not depend on the diagnostics so far. *)
Lemma collect_all_tables l : ∀ self self',
  self.(global_scope) = self'.(global_scope) →
  self.(functions) = self'.(functions) →
  (collect_all l self).(global_scope) = (collect_all l self').(global_scope) ∧
  (collect_all l self).(functions) = (collect_all l self').(functions).
Proof.
  induction l as [| d l IH]; intros self self' Hg Hf; [done |].
  cbn [collect_all fold_left]. apply IH.
  - destruct d; simpl; try done; rewrite <- ?Hg, <- ?Hf; by case_match.
  - destruct d; simpl; try done; rewrite <- ?Hg, <- ?Hf; by case_match.
Qed.

Lemma fresh_for_tables self self' l :
  self.(global_scope) = self'.(global_scope) →
  self.(functions) = self'.(functions) →
  fresh_for self l → fresh_for self' l.
Proof. unfold fresh_for. by intros <- <-. Qed.

Lemma fresh_for_app self l l' :
  fresh_for self (l ++ l') →
  fresh_for self l ∧ fresh_for (collect_all l self) l'.
Proof.
  unfold fresh_for. rewrite var_names_app, func_names_app.
  intros (Hv & Hgs & Hf & Hfs).
  apply NoDup_app in Hv as (Hv1 & Hv12 & Hv2).
  apply NoDup_app in Hf as (Hf1 & Hf12 & Hf2).
  repeat split; try done.
  - intros n Hn. apply Hgs, elem_of_app. by left.
  - intros n Hn. apply Hfs, elem_of_app. by left.
  - intros n Hn. apply collect_all_global_none. split.
    + apply Hgs, elem_of_app. by right.
    + intros Hn'. by apply (Hv12 n).
  - intros n Hn. apply collect_all_function_none. split.
    + apply Hfs, elem_of_app. by right.
    + intros Hn'. by apply (Hf12 n).
Qed.

(** One redeclaration among otherwise new, distinct names: exactly its
    diagnostic is added, and the tables are those of the program without
    the redeclaration. *)
Lemma one_redeclaration self l1 d l2 msg :
  fresh_for self (l1 ++ l2) →
  collect (collect_all l1 self) d =
    mkAnalyzer (collect_all l1 self).(program) ((collect_all l1 self).(errors) ++ [msg])
               (collect_all l1 self).(global_scope) (collect_all l1 self).(functions) →
  (collect_all (l1 ++ d :: l2) self).(errors) = self.(errors) ++ [msg] ∧
  (collect_all (l1 ++ d :: l2) self).(global_scope) =
    (collect_all (l1 ++ l2) self).(global_scope) ∧
  (collect_all (l1 ++ d :: l2) self).(functions) =
    (collect_all (l1 ++ l2) self).(functions).
Proof.
  intros Hfresh Hd. apply fresh_for_app in Hfresh as [H1 H2].
  rewrite !collect_all_app. cbn [collect_all fold_left].
  fold (collect_all l2 (collect (collect_all l1 self) d)). rewrite Hd.
  split.
  - rewrite collect_all_fresh; [| by eapply fresh_for_tables; [| | exact H2]].
    simpl. by rewrite (collect_all_fresh l1).
  - by apply collect_all_tables.
Qed.

End CollectFacts.

(** * The claims *)

Import CollectFacts.

(** ** Scanner *)

(** C8.  For every input text the scanner returns a token list (the budget
    it is given, the length of the text, always suffices and no step can
    fail); the list ends with the end-of-input token, at column 1 of the
    last line reached, and holds no other token of that type.  Where no
    token pattern matches, the loop moves one character forward with the
    token list, line counter and line origin unchanged; so a text made only
    of characters that begin no pattern scans to the end-of-input token
    alone. *)
Theorem C8_tokenize_total_drops_unmatched (code : string) :
  (∃ tokens line_num,
     tokenize code = Some (tokens ++ [mkToken "EOF" "" line_num 1]) ∧
     Forall LexerFacts.not_EOF tokens) ∧
  (∀ c rest fuel pos line_num line_start tokens,
     regex_match (String c rest) = None →
     tokenize_loop (S fuel) (String c rest) pos line_num line_start tokens =
     tokenize_loop fuel rest (S pos) line_num line_start tokens) ∧
  (LexerFacts.all_chars LexerFacts.starts_nothing code = true →
   tokenize code = Some [mkToken "EOF" "" 1 1]).
Proof.
  split; [| split].
  - unfold tokenize.
    destruct (LexerFacts.tokenize_loop_total (String.length code) code 0 1 0 [])
      as (new & ln & -> & Hnew); [done |].
    by exists new, ln.
  - intros c rest fuel pos ln ls tokens Hm. simpl. by rewrite Hm.
  - intros Hall. unfold tokenize.
    by rewrite LexerFacts.tokenize_loop_starts_nothing.
Qed.

Lemma C8_witness :
  regex_match "@x" = None ∧
  tokenize_loop 2 "@x" 0 1 0 [] = tokenize_loop 1 "x" 1 1 0 [] ∧
  LexerFacts.all_chars LexerFacts.starts_nothing "@#$?" = true ∧
  tokenize "@#$?" = Some [mkToken "EOF" "" 1 1].
Proof.
  split; [reflexivity |]. split.
  - apply (proj1 (proj2 (C8_tokenize_total_drops_unmatched "@x"))). reflexivity.
  - split; [reflexivity |].
    apply (proj2 (proj2 (C8_tokenize_total_drops_unmatched "@#$?"))). reflexivity.
Defined.

Example tokenize_drops_in_context :
  tokenize ("a @ b" +:+ String newline "c") =
  Some [mkToken "ID" "a" 1 1; mkToken "ID" "b" 1 5; mkToken "ID" "c" 2 1;
        mkToken "EOF" "" 2 1].
Proof. vm_compute. reflexivity. Qed.

(** ** Parser *)

(** What [expect] does on a token of the expected type: it is consumed,
    whatever its value. *)
Lemma expect_same_type tokens typ value pos tok :
  tokens !! pos = Some tok → tok.(type) = typ →
  expect tokens typ value pos = Ok (tok, S pos).
Proof.
  intros Htok <-. unfold expect, bind, peek, next. rewrite Htok.
  rewrite CollectFacts.str_eq_refl. simpl. by rewrite Htok.
Qed.

(** C1 (the code departs from the claim).  Where [';'] is required and the
    current token is the symbol [')'], [expect] consumes it: the text
    [int x = 1 )] parses to a Program, no error is raised. *)
Theorem C1_wrong_symbol_accepted :
  parses_to "int x = 1 )"
    (mkProgram [VarDecl "int" "x" (Some (Literal (VInt 1) "int")) false]).
Proof. exists 20. vm_compute. reflexivity. Qed.

(** C6.  [1 + 2 * 3] and [1 + (2 * 3)] parse to the same tree, with the
    product as right operand of the sum; [a = b = 1] and [a = (b = 1)]
    parse to the same tree, with the inner assignment as right operand. *)
Theorem C6_precedence_and_associativity :
  let one := Literal (VInt 1) "int" in
  let sum := BinaryOp "+" one (BinaryOp "*" (Literal (VInt 2) "int") (Literal (VInt 3) "int")) in
  let asg := BinaryOp "=" (VarRef "a") (BinaryOp "=" (VarRef "b") one) in
  expr_parses_to "1 + 2 * 3" sum ∧ expr_parses_to "1 + (2 * 3)" sum ∧
  expr_parses_to "a = b = 1" asg ∧ expr_parses_to "a = (b = 1)" asg.
Proof. repeat split; exists 20; vm_compute; reflexivity. Qed.

(** ** Semantic analyzer *)

(** C2 (the code departs from the claim).  For the program of the claim
    the diagnostics list is empty: the statement walk does not infer the
    type of a bare call statement, and the argument count is only compared
    during type inference. *)
Theorem C2_bare_call_arity_unchecked :
  analyzes_to "int add(int a, int b) { return a + b; } void g() { add(1); }" [].
Proof. exists 40. vm_compute. reflexivity. Qed.

(** The same call as an initializer is flagged. *)
Lemma arity_checked_in_initializer :
  analyzes_to "int add(int a, int b) { return a + b; } void g() { int r = add(1); }"
    ["Wrong number of arguments in call to add in function g"].
Proof. exists 40. vm_compute. reflexivity. Qed.

(** C4.  [const int x = 5; void f() { x = 6; }] yields exactly one
    diagnostic, the assignment to the const global [x]. *)
Theorem C4_const_global_assignment :
  analyzes_to "const int x = 5; void f() { x = 6; }"
    ["Assignment to const global x in function f"].
Proof. exists 40. vm_compute. reflexivity. Qed.

Lemma mismatch_spec t r :
  mismatch (Some t) r = true ↔ t ≠ "" ∧ t ≠ r ∧ ¬ (t = "int" ∧ r = "float").
Proof.
  unfold mismatch, truthy, truthy_str.
  rewrite !andb_true_iff, !negb_true_iff, andb_false_iff.
  rewrite !bool_decide_eq_false, !CollectFacts.str_eq_false.
  split.
  - intros [[Ht Hr] Hw]. repeat split; [done | congruence |].
    intros [-> ->]. destruct Hw as [Hw | Hw]; [done |].
    by apply Hw.
  - intros (Ht & Hr & Hw). repeat split; [done | congruence |].
    destruct (decide (t = "int")) as [-> | Hne]; [right | left; congruence].
    intros ->. by apply Hw.
Qed.

(** C5.  [float f() { return 1; }] yields no diagnostic and
    [int g() { return 1.5; }] yields the return-type mismatch; in general a
    returned literal of type [t] is flagged exactly when the function is not
    void, [t] is a non-empty type other than the return type, and the pair is
    not int returned as float. *)
Theorem C5_return_widening :
  analyzes_to "float f() { return 1; }" [] ∧
  analyzes_to "int g() { return 1.5; }"
    ["Return type mismatch in function g: expected int, got float"] ∧
  ∀ gs fs f v t scope errs,
    visit gs fs f (Return (Some (Literal v t))) scope errs =
    (scope,
     if bool_decide (f.(ret_type) ≠ "void" ∧ t ≠ "" ∧ t ≠ f.(ret_type) ∧
                     ¬ (t = "int" ∧ f.(ret_type) = "float"))
     then errs ++ [msg_return_type f t] else errs).
Proof.
  split; [exists 40; vm_compute; reflexivity |].
  split; [exists 40; vm_compute; reflexivity |].
  intros gs fs f v t scope errs. cbn [visit node_truthy infer_type type_text].
  f_equal.
  destruct (str_eq (ret_type f) "void") eqn:Hv; cbn [negb andb].
  - apply CollectFacts.str_eq_true in Hv.
    rewrite bool_decide_eq_false_2; [done |]. by intros [? _].
  - apply CollectFacts.str_eq_false in Hv.
    destruct (mismatch (Some t) (ret_type f)) eqn:Hm.
    + apply mismatch_spec in Hm. by rewrite bool_decide_eq_true_2.
    + rewrite bool_decide_eq_false_2; [done |].
      intros [_ Hm']. apply mismatch_spec in Hm'. congruence.
Qed.

(** How often the diagnostic [m] occurs in [errs]. *)
Definition occurrences (m : string) (errs : list string) : nat :=
  length (List.filter (str_eq m) errs).

Definition c3_source : string := "void f() { int x = y + 1; }".

Definition c3_function : FuncDeclT :=
  mkFuncDecl "void" "f" []
    (Compound [VarDecl "int" "x"
       (Some (BinaryOp "+" (VarRef "y") (Literal (VInt 1) "int"))) false]).

(** C3, as stated, fails on [void f() { int x = y + 1; }]: the
    undeclared-identifier diagnostic for [y] is not reported exactly once,
    and inferring the type of [y + 1] (in the scope that holds [x]) neither
    gives an absent type nor leaves the diagnostics as they were. *)
Lemma C3_counterexample :
  ¬ (∀ errs, analyzes_to c3_source errs →
       occurrences "Use of undeclared identifier y in function f" errs = 1) ∧
  (infer_type ∅ [("f", c3_function)] c3_function {[ "x" := ("int", false) ]}
     (BinaryOp "+" (VarRef "y") (Literal (VInt 1) "int")) []).1 ≠ None ∧
  (infer_type ∅ [("f", c3_function)] c3_function {[ "x" := ("int", false) ]}
     (BinaryOp "+" (VarRef "y") (Literal (VInt 1) "int")) []).2 ≠ [].
Proof.
  split; [| split; by vm_compute].
  intros H.
  specialize (H ["Use of undeclared identifier y in function f";
                 "Use of undeclared identifier y in function f"]).
  assert (2 = 1) as Habs; [| done].
  apply H. exists 40. vm_compute. reflexivity.
Qed.

(** C3, amended.  For a name bound in no table, type inference of the
    reference returns an absent type and records the undeclared-identifier
    diagnostic itself; an arithmetic operator with the reference as left
    operand infers [float] when the right operand infers [float] and [int]
    otherwise.  For [void f() { int x = y + 1; }] the analysis reports [y]
    as undeclared, and inferring the type of [y + 1] (in the scope that
    holds [x]) records that diagnostic and gives [int].  How often the
    analysis repeats the diagnostic is left open. *)
Theorem C3_unresolved_operand :
  (∃ errs, analyzes_to c3_source errs ∧
     "Use of undeclared identifier y in function f" ∈ errs) ∧
  infer_type ∅ [("f", c3_function)] c3_function {[ "x" := ("int", false) ]}
    (BinaryOp "+" (VarRef "y") (Literal (VInt 1) "int")) [] =
    (Some "int", ["Use of undeclared identifier y in function f"]) ∧
  ∀ gs fs f (scope : Scope) y errs,
    scope !! y = None → gs !! y = None → in_functions y fs = false →
    infer_type gs fs f scope (VarRef y) errs = (None, errs ++ [msg_undeclared f y]) ∧
    ∀ op rhs, str_in op ARITH_OPS = true →
      (infer_type gs fs f scope (BinaryOp op (VarRef y) rhs) errs).1 =
      if bool_decide
           ((infer_type gs fs f scope rhs (errs ++ [msg_undeclared f y])).1 = Some "float")
      then Some "float" else Some "int".
Proof.
  split; [| split].
  - exists ["Use of undeclared identifier y in function f";
            "Use of undeclared identifier y in function f"].
    split; [exists 40; vm_compute; reflexivity | apply list_elem_of_here].
  - vm_compute. reflexivity.
  - intros gs fs f scope y errs Hsc Hgs Hfs. split.
    + cbn [infer_type]. by rewrite Hsc, Hgs, Hfs.
    + intros op rhs Hop. cbn [infer_type]. rewrite Hsc, Hgs, Hfs.
      destruct (infer_type gs fs f scope rhs _) as [rtype e']. rewrite Hop.
      cbn [fst]. rewrite bool_decide_eq_false_2 by done. cbn [orb].
      by destruct (bool_decide (rtype = Some "float")).
Qed.

Lemma C3_witness :
  (∅ : Scope) !! "y" = None ∧ in_functions "y" [("f", c3_function)] = false ∧
  infer_type ∅ [("f", c3_function)] c3_function ∅ (VarRef "y") [] =
    (None, ["Use of undeclared identifier y in function f"]) ∧
  str_in "+" ARITH_OPS = true ∧
  (infer_type ∅ [("f", c3_function)] c3_function ∅
     (BinaryOp "+" (VarRef "y") (Literal (VInt 1) "int")) []).1 = Some "int".
Proof.
  pose proof (proj2 (proj2 C3_unresolved_operand) ∅ [("f", c3_function)] c3_function
                ∅ "y" [] eq_refl eq_refl eq_refl) as (H1 & H3).
  split; [reflexivity |]. split; [reflexivity |]. split; [exact H1 |].
  split; [reflexivity |].
  exact (H3 "+" (Literal (VInt 1) "int") eq_refl).
Defined.

(** The diagnostics the const check of an assignment to [x] adds for the
    global table. *)
Definition global_const_diagnostics (gs : Scope) (f : FuncDeclT) (x : string)
  : list string :=
  match gs !! x with
  | Some (_, true) => [msg_const_global f x]
  | _ => []
  end.

(** Is the optional initializer absent or an expression? *)
Definition init_is_expr (init : option Node) : bool :=
  match init with Some e => is_expr e | None => true end.

(** C10.  A local declaration of a name the function scope already holds is
    flagged, and then the scope entry is replaced: after the walk of the
    declaration the name is bound to the later type and const flag, a
    reference to it infers the later type, and an assignment to it is
    reported as assignment to a const variable exactly when the later
    declaration is const.  Pass 1, in contrast, keeps the entry a global
    name already has. *)
Theorem C10_local_redeclaration_replaces
    gs fs f (scope : Scope) errs var_type x init is_const :
  is_Some (scope !! x) → init_is_expr init = true →
  let r := visit gs fs f (VarDecl var_type x init is_const) scope errs in
  r.1 = <[x := (var_type, is_const)]> scope ∧
  (∃ more, r.2 = errs ++ msg_redeclaration f x :: more) ∧
  (∀ errs', infer_type gs fs f r.1 (VarRef x) errs' = (Some var_type, errs')) ∧
  (∀ v t errs',
     visit gs fs f (BinaryOp "=" (VarRef x) (Literal v t)) r.1 errs' =
     (r.1, errs' ++ (if is_const then [msg_const_local f x] else []) ++
                    global_const_diagnostics gs f x)) ∧
  (∀ self entry i,
     self.(global_scope) !! x = Some entry →
     (collect self (VarDecl var_type x i is_const)).(global_scope) !! x = Some entry).
Proof.
  intros Hx Hinit r.
  assert (r.1 = <[x := (var_type, is_const)]> scope) as Hsc.
  { subst r. cbn [visit]. destruct init as [e |]; [| done].
    destruct (node_truthy (Some e)); [| done].
    destruct (infer_type gs fs f _ e _) as [it e1].
    by apply SemanticFacts.visit_expr_scope. }
  split; [done |]. split; [| split; [| split]].
  - subst r. cbn [visit].
    rewrite (proj2 (in_scope_true x scope) Hx).
    destruct init as [e |]; [| by exists []].
    destruct (node_truthy (Some e)); [| by exists []].
    rewrite (SemanticFacts.infer_type_appends gs fs f e _ (errs ++ _)).
    destruct (infer_type gs fs f _ e []) as [it e1]. cbn [fst snd].
    destruct (mismatch it var_type).
    + rewrite (SemanticFacts.visit_appends gs fs f e _ (_ ++ _)). cbn [snd].
      eexists. rewrite <- !app_assoc. cbn [app]. reflexivity.
    + rewrite (SemanticFacts.visit_appends gs fs f e _ (_ ++ _)). cbn [snd].
      eexists. rewrite <- !app_assoc. cbn [app]. reflexivity.
  - intros errs'. rewrite Hsc. cbn [infer_type]. by rewrite lookup_insert_eq.
  - intros v t errs'. rewrite Hsc. cbn [visit]. unfold in_scope.
    rewrite lookup_insert_eq.
    change (str_in "=" ASSIGN_OPS) with true. cbn match.
    unfold global_const_diagnostics.
    destruct is_const; destruct (gs !! x) as [[? [|]] |];
      cbn [app]; rewrite <- ?app_assoc, ?app_nil_r; reflexivity.
  - intros self entry i Hentry. cbn [collect]. unfold in_scope. by rewrite Hentry.
Qed.

Lemma C10_witness :
  let f := mkFuncDecl "void" "f" [] (Compound []) in
  let scope : Scope := {[ "x" := ("int", false) ]} in
  let r := visit ∅ [] f (VarDecl "float" "x" (Some (Literal (VFloat "2.0") "float")) true)
             scope [] in
  is_Some (scope !! "x") ∧
  r.1 !! "x" = Some ("float", true) ∧
  r.2 = ["Redeclaration of x in function f"] ∧
  infer_type ∅ [] f r.1 (VarRef "x") [] = (Some "float", []) ∧
  (visit ∅ [] f (BinaryOp "=" (VarRef "x") (Literal (VInt 3) "int")) r.1 []).2 =
    ["Assignment to const variable x in function f"].
Proof.
  intros f scope r.
  assert (is_Some (scope !! "x")) as Hx by (by eexists).
  pose proof (C10_local_redeclaration_replaces ∅ [] f scope [] "float" "x"
                (Some (Literal (VFloat "2.0") "float")) true Hx eq_refl)
    as (H1 & _ & H3 & H4 & _).
  split; [exact Hx |].
  split; [fold r in H1; rewrite H1; apply lookup_insert_eq |].
  split; [reflexivity |].
  split; [exact (H3 []) |].
  fold r in H4. rewrite (H4 (VInt 3) "int" []). reflexivity.
Defined.

Lemma var_names_skip_func pre rt x ps b rest :
  var_names (pre ++ FuncDecl rt x ps b :: rest) = var_names (pre ++ rest).
Proof. by rewrite !var_names_app. Qed.

Lemma func_names_skip_var pre t x i c rest :
  func_names (pre ++ VarDecl t x i c :: rest) = func_names (pre ++ rest).
Proof. by rewrite !func_names_app. Qed.

Lemma pass1_collect_all l :
  pass1 (new (mkProgram l)) = collect_all l (new (mkProgram l)).
Proof. done. Qed.

Lemma fresh_for_new p l :
  NoDup (var_names l) → NoDup (func_names l) → fresh_for (new p) l.
Proof.
  intros Hv Hf. split; [done |]. split; [intros n _; apply lookup_empty |].
  split; [done |]. by intros n _.
Qed.

(** C7.  Two top-level variable declarations sharing a name, all other
    top-level names being distinct: pass 1 produces exactly one diagnostic,
    the redeclaration of that global; the name stays bound to the type and
    const flag of the first declaration, which is what a reference resolves
    to; and both tables are those of the program without the second
    declaration.  The same for two function declarations sharing a name:
    one redeclaration diagnostic, the table still maps the name to the
    first declaration, whose return type a call infers. *)
Theorem C7_global_redeclaration_first_wins :
  (∀ pre mid post t1 x i1 c1 t2 i2 c2,
     NoDup (var_names (pre ++ VarDecl t1 x i1 c1 :: mid ++ post)) →
     NoDup (func_names (pre ++ mid ++ post)) →
     let without :=
       pass1 (new (mkProgram (pre ++ VarDecl t1 x i1 c1 :: mid ++ post))) in
     let self :=
       pass1 (new (mkProgram
         (pre ++ VarDecl t1 x i1 c1 :: mid ++ VarDecl t2 x i2 c2 :: post))) in
     self.(errors) = ["Redeclaration of global " +:+ x] ∧
     self.(global_scope) !! x = Some (t1, c1) ∧
     self.(global_scope) = without.(global_scope) ∧
     self.(functions) = without.(functions) ∧
     ∀ f (scope : Scope) errs, scope !! x = None →
       infer_type self.(global_scope) self.(functions) f scope (VarRef x) errs =
       (Some t1, errs)) ∧
  (∀ pre mid post rt1 x ps1 b1 rt2 ps2 b2,
     NoDup (func_names (pre ++ FuncDecl rt1 x ps1 b1 :: mid ++ post)) →
     NoDup (var_names (pre ++ mid ++ post)) →
     let without :=
       pass1 (new (mkProgram (pre ++ FuncDecl rt1 x ps1 b1 :: mid ++ post))) in
     let self :=
       pass1 (new (mkProgram
         (pre ++ FuncDecl rt1 x ps1 b1 :: mid ++ FuncDecl rt2 x ps2 b2 :: post))) in
     self.(errors) = ["Redeclaration of function " +:+ x] ∧
     lookup_function x self.(functions) = Some (mkFuncDecl rt1 x ps1 b1) ∧
     self.(global_scope) = without.(global_scope) ∧
     self.(functions) = without.(functions) ∧
     ∀ f (scope : Scope) args errs,
       (infer_type self.(global_scope) self.(functions) f scope (FuncCall x args) errs).1 =
       Some rt1).
Proof.
  split.
  - intros pre mid post t1 x i1 c1 t2 i2 c2 Hv Hf without self.
    subst without self. rewrite !pass1_collect_all.
    set (first := VarDecl t1 x i1 c1) in *. set (second := VarDecl t2 x i2 c2) in *.
    set (p := mkProgram (pre ++ first :: mid ++ second :: post)) in *.
    assert (fresh_for (new p) ((pre ++ first :: mid) ++ post)) as Hfresh.
    { rewrite <- app_assoc. cbn [app]. apply fresh_for_new; [done |].
      subst first. by rewrite func_names_skip_var. }
    assert ((collect_all pre (new p)).(global_scope) !! x = None) as Hpre.
    { apply collect_all_global_none. split; [apply lookup_empty |].
      rewrite var_names_app in Hv. apply NoDup_app in Hv as (_ & Hv & _).
      intros Hx. apply (Hv x Hx). subst first. simpl. by left. }
    assert (∀ l, (collect_all (pre ++ first :: l) (new p)).(global_scope) !! x
                 = Some (t1, c1)) as Hkeep.
    { intros l. rewrite collect_all_app. cbn [collect_all fold_left].
      apply collect_all_global_keep. subst first. cbn [collect].
      rewrite (proj2 (in_scope_false _ _) Hpre). simpl. apply lookup_insert_eq. }
    destruct (one_redeclaration (new p) (pre ++ first :: mid) second post
                ("Redeclaration of global " +:+ x) Hfresh) as (He & Hg & Hfs).
    { subst second. cbn [collect].
      rewrite (proj2 (in_scope_true _ _)); [done |]. by rewrite Hkeep. }
    rewrite <- !app_assoc in He, Hg, Hfs. cbn [app] in He, Hg, Hfs.
    split; [exact He |]. split; [apply Hkeep |].
    split; [| split].
    + rewrite Hg, <- app_assoc. by apply collect_all_tables.
    + rewrite Hfs, <- app_assoc. by apply collect_all_tables.
    + intros f scope errs Hsc. cbn [infer_type]. by rewrite Hsc, Hkeep.
  - intros pre mid post rt1 x ps1 b1 rt2 ps2 b2 Hf Hv without self.
    subst without self. rewrite !pass1_collect_all.
    set (first := FuncDecl rt1 x ps1 b1) in *.
    set (second := FuncDecl rt2 x ps2 b2) in *.
    set (p := mkProgram (pre ++ first :: mid ++ second :: post)) in *.
    assert (fresh_for (new p) ((pre ++ first :: mid) ++ post)) as Hfresh.
    { rewrite <- app_assoc. cbn [app]. apply fresh_for_new; [| done].
      subst first. by rewrite var_names_skip_func. }
    assert (lookup_function x (collect_all pre (new p)).(functions) = None) as Hpre.
    { apply collect_all_function_none. split; [done |].
      rewrite func_names_app in Hf. apply NoDup_app in Hf as (_ & Hf & _).
      intros Hx. apply (Hf x Hx). subst first. simpl. by left. }
    assert (∀ l, lookup_function x (collect_all (pre ++ first :: l) (new p)).(functions)
                 = Some (mkFuncDecl rt1 x ps1 b1)) as Hkeep.
    { intros l. rewrite collect_all_app. cbn [collect_all fold_left].
      apply collect_all_function_keep. subst first. cbn [collect].
      rewrite (proj2 (in_functions_false _ _) Hpre). simpl.
      by rewrite lookup_function_app, Hpre, str_eq_refl. }
    destruct (one_redeclaration (new p) (pre ++ first :: mid) second post
                ("Redeclaration of function " +:+ x) Hfresh) as (He & Hg & Hfs).
    { subst second. cbn [collect].
      rewrite (proj2 (in_functions_true _ _)); [done |]. by rewrite Hkeep. }
    rewrite <- !app_assoc in He, Hg, Hfs. cbn [app] in He, Hg, Hfs.
    split; [exact He |]. split; [apply Hkeep |].
    split; [| split].
    + rewrite Hg, <- app_assoc. by apply collect_all_tables.
    + rewrite Hfs, <- app_assoc. by apply collect_all_tables.
    + intros f scope args errs. cbn [infer_type]. by rewrite Hkeep.
Qed.

Lemma C7_witness :
  NoDup (var_names ([] ++ VarDecl "int" "x" None false :: [] ++ [])) ∧
  NoDup (func_names ([] ++ FuncDecl "int" "f" [] (Compound []) :: [] ++ [])) ∧
  (pass1 (new (mkProgram
     [VarDecl "int" "x" None false; VarDecl "float" "x" None true]))).(errors) =
    ["Redeclaration of global x"] ∧
  (pass1 (new (mkProgram
     [VarDecl "int" "x" None false; VarDecl "float" "x" None true]))).(global_scope)
    !! "x" = Some ("int", false) ∧
  (pass1 (new (mkProgram
     [FuncDecl "int" "f" [] (Compound []);
      FuncDecl "void" "f" [("int", "a")] (Compound [])]))).(errors) =
    ["Redeclaration of function f"].
Proof.
  assert (NoDup (var_names ([] ++ VarDecl "int" "x" None false :: [] ++ []))) as Hv.
  { apply NoDup_singleton. }
  assert (NoDup (func_names
            ([] ++ FuncDecl "int" "f" [] (Compound []) :: [] ++ []))) as Hf.
  { apply NoDup_singleton. }
  split; [exact Hv |]. split; [exact Hf |].
  pose proof (proj1 C7_global_redeclaration_first_wins [] [] [] "int" "x" None false
                "float" None true Hv (NoDup_nil_2 (A:=string))) as (He & Hx & _).
  pose proof (proj2 C7_global_redeclaration_first_wins [] [] [] "int" "f" []
                (Compound []) "void" [("int", "a")] (Compound []) Hf
                (NoDup_nil_2 (A:=string))) as (He' & _).
  split; [exact He |]. split; [exact Hx | exact He'].
Defined.

(** ** Running the analysis twice *)

Definition c9_program : Program := mkProgram [VarDecl "int" "x" None false].

(** C9, as stated, fails on [int x;]: after a second [analyze] on the same
    analyzer the diagnostics list is not the one after the first. *)
Lemma C9_counterexample :
  parses_to "int x;" c9_program ∧
  (analyze (analyze (new c9_program))).(errors) ≠ (analyze (new c9_program)).(errors).
Proof. split; [exists 20; vm_compute; reflexivity | by vm_compute]. Qed.

(** The diagnostics pass 2 adds: the per-function checks, in table order,
    started from an empty list. *)
Definition function_diagnostics (gs : Scope) (fs : FuncTable) : list string :=
  fold_left (λ errs kv, check_function gs fs kv.2 errs) fs [].

Lemma fold_check_function_app gs fs (l : FuncTable) errs :
  fold_left (λ errs kv, check_function gs fs kv.2 errs) l errs =
  errs ++ fold_left (λ errs kv, check_function gs fs kv.2 errs) l [].
Proof.
  revert errs. induction l as [| kv l IH]; intros errs; simpl.
  { by rewrite app_nil_r. }
  rewrite (IH (check_function _ _ _ errs)), (IH (check_function _ _ _ [])).
  rewrite (SemanticFacts.check_function_app gs fs kv.2 errs).
  by rewrite app_assoc.
Qed.

Lemma redeclarations_nil l :
  redeclarations l = [] → ∀ self, collect_all l self = self.
Proof.
  induction l as [| d l IH]; intros Hr self; [done |].
  cbn [collect_all fold_left]. fold (collect_all l (collect self d)).
  destruct d; try done; by apply IH.
Qed.

(** C9, amended.  Analysis with a freshly built analyzer is a function of
    the tree, so two such runs give the same list.  A second [analyze] on
    the same analyzer keeps both tables and appends to the list of the first
    run: one redeclaration diagnostic for every top-level variable or
    function declaration, in program order, then the per-function
    diagnostics again.  The two lists are equal exactly when the program has
    no top-level variable or function declaration. *)
Theorem C9_analyze_twice (p : Program) :
  let once := analyze (new p) in
  let twice := analyze once in
  diagnostics p = once.(errors) ∧
  once.(errors) =
    (pass1 (new p)).(errors) ++
    function_diagnostics once.(global_scope) once.(functions) ∧
  twice.(global_scope) = once.(global_scope) ∧
  twice.(functions) = once.(functions) ∧
  twice.(errors) =
    once.(errors) ++ redeclarations p.(declarations) ++
    function_diagnostics once.(global_scope) once.(functions) ∧
  (twice.(errors) = once.(errors) ↔ redeclarations p.(declarations) = []).
Proof.
  intros once twice.
  set (s1 := pass1 (new p)).
  assert (s1 = collect_all p.(declarations) (new p)) as Hs1 by done.
  assert (once.(program) = p) as Hprog.
  { subst once. unfold analyze, pass2. simpl. fold s1. rewrite Hs1.
    by rewrite collect_all_program. }
  assert (once.(global_scope) = s1.(global_scope)) as Hgs by done.
  assert (once.(functions) = s1.(functions)) as Hfs by done.
  assert (once.(errors) =
          s1.(errors) ++ function_diagnostics s1.(global_scope) s1.(functions)) as Honce.
  { subst once. unfold analyze, pass2. simpl. fold s1.
    apply fold_check_function_app. }
  assert (pass1 once =
          mkAnalyzer p (once.(errors) ++ redeclarations p.(declarations))
                     once.(global_scope) once.(functions)) as Hp1.
  { unfold pass1. rewrite Hprog. fold (collect_all (declarations p) once).
    rewrite collect_all_seen.
    - by rewrite Hprog.
    - intros n Hn. rewrite Hgs, Hs1.
      destruct (global_scope (collect_all (declarations p) (new p)) !! n) eqn:E;
        [by eexists |].
      apply collect_all_global_none in E as [_ E]. done.
    - intros n Hn. rewrite Hfs, Hs1.
      destruct (lookup_function n (functions (collect_all (declarations p) (new p))))
        eqn:E; [by eexists |].
      apply collect_all_function_none in E as [_ E]. done. }
  assert (twice.(errors) =
          once.(errors) ++ redeclarations p.(declarations) ++
          function_diagnostics once.(global_scope) once.(functions)) as Htwice.
  { subst twice. unfold analyze at 1. rewrite Hp1. unfold pass2. simpl.
    rewrite fold_check_function_app. by rewrite <- app_assoc. }
  split; [done |]. split; [by rewrite Hgs, Hfs |].
  split; [subst twice; unfold analyze at 1; by rewrite Hp1 |].
  split; [subst twice; unfold analyze at 1; by rewrite Hp1 |].
  split; [exact Htwice |].
  rewrite Htwice. split.
  - intros Heq.
    rewrite <- (app_nil_r (errors once)) in Heq at 2.
    apply app_inv_head in Heq. by apply app_eq_nil in Heq as [? _].
  - intros Hr. rewrite Hr. cbn [app].
    rewrite Hgs, Hfs, Hs1, (redeclarations_nil _ Hr).
    unfold function_diagnostics. simpl. by rewrite app_nil_r.
Qed.

Lemma C9_witness :
  (analyze (analyze (new c9_program))).(errors) =
    (analyze (new c9_program)).(errors) ++ ["Redeclaration of global x"] ∧
  redeclarations (mkProgram []).(declarations) = [] ∧
  (analyze (analyze (new (mkProgram [])))).(errors) =
    (analyze (new (mkProgram []))).(errors).
Proof.
  split; [| split; [reflexivity |]].
  - rewrite (proj1 (proj2 (proj2 (proj2 (proj2 (C9_analyze_twice c9_program)))))).
    reflexivity.
  - apply (proj2 (proj2 (proj2 (proj2 (proj2 (C9_analyze_twice (mkProgram []))))))).
    reflexivity.
Defined.

(** * Further properties of the analyzer *)

Module AnalyzerProps.

(** Pass 1 only appends to [self.errors]. *)
Lemma collect_all_errors_prefix l : ∀ self,
  ∃ new, (collect_all l self).(errors) = self.(errors) ++ new.
Proof.
  induction l as [| d l IH]; intros self.
  { exists []. simpl. by rewrite app_nil_r. }
  cbn [collect_all fold_left]. fold (collect_all l (collect self d)).
  destruct (IH (collect self d)) as [new ->].
  destruct d; simpl; try (by exists new); case_match; simpl;
    try (by exists new); rewrite <- app_assoc; by eexists.
Qed.

Lemma fold_check_function_concat gs fs (l : FuncTable) errs :
  fold_left (λ errs kv, check_function gs fs kv.2 errs) l errs =
  errs ++ concat (map (λ kv, check_function gs fs kv.2 []) l).
Proof.
  revert errs. induction l as [| kv l IH]; intros errs; simpl.
  { by rewrite app_nil_r. }
  rewrite IH, (SemanticFacts.check_function_app gs fs kv.2 errs).
  by rewrite app_assoc.
Qed.

(** [analyze] never removes or reorders a diagnostic: the list it leaves is
    the list it found, then what pass 1 adds, then, for each function of the
    table in insertion order, the diagnostics of that function's walk started
    from an empty list. *)
Theorem analyze_appends_per_function (self : SemanticAnalyzer) :
  let after := analyze self in
  ∃ collected,
    (pass1 self).(errors) = self.(errors) ++ collected ∧
    after.(errors) =
      self.(errors) ++ collected ++
      concat (map (λ kv, check_function after.(global_scope) after.(functions) kv.2 [])
                  after.(functions)).
Proof.
  intros after.
  destruct (collect_all_errors_prefix self.(program).(declarations) self)
    as [collected Hc].
  exists collected. split; [exact Hc |].
  subst after. unfold analyze, pass2. cbn [errors global_scope functions].
  rewrite fold_check_function_concat. unfold pass1 at 1.
  fold (collect_all (declarations (program self)) self).
  by rewrite Hc, <- app_assoc.
Qed.

(** ** What pass 1 keeps *)

Lemma lookup_function_None n (fs : FuncTable) :
  lookup_function n fs = None ↔ n ∉ fs.*1.
Proof.
  induction fs as [| [k d] fs IH]; simpl.
  { split; [intros _; apply not_elem_of_nil | done]. }
  rewrite not_elem_of_cons. destruct (str_eq k n) eqn:E.
  - apply str_eq_true in E. split; [done | intros [Hne _]; by destruct Hne].
  - apply str_eq_false in E. rewrite IH.
    split; [intros ?; split; [by intros -> | done] | by intros [_ ?]].
Qed.

(** The function table has one entry per name, filed under the name of the
    declaration it holds. *)
Definition table_ok (fs : FuncTable) : Prop :=
  NoDup fs.*1 ∧ Forall (λ kv, kv.1 = kv.2.(name)) fs.

Lemma collect_table_ok self d :
  table_ok self.(functions) → table_ok (collect self d).(functions).
Proof.
  intros [Hnd Hall]. destruct d; simpl; try done; case_match; simpl; try done.
  match goal with H : in_functions _ _ = false |- _ =>
    apply in_functions_false, lookup_function_None in H end.
  split.
  - rewrite fmap_app. apply NoDup_app. repeat split; [done | | apply NoDup_singleton].
    intros n Hn Hn'. simpl in Hn'. apply list_elem_of_singleton in Hn' as ->. done.
  - apply Forall_app. split; [done |]. by apply Forall_singleton.
Qed.

(** Every top-level variable or function declaration is either entered in
    its table or answered with a diagnostic, never both and never neither;
    and the function table keeps one entry per name. *)
Theorem pass1_registers_or_reports (p : Program) :
  let self := pass1 (new p) in
  length self.(errors) + size self.(global_scope) + length self.(functions) =
    length (var_names p.(declarations)) + length (func_names p.(declarations)) ∧
  table_ok self.(functions).
Proof.
  intros self. subst self. unfold pass1. cbn [program new declarations].
  fold (collect_all (declarations p) (new p)).
  assert (∀ l s,
    length (collect_all l s).(errors) + size (collect_all l s).(global_scope) +
      length (collect_all l s).(functions) =
    length s.(errors) + size s.(global_scope) + length s.(functions) +
      length (var_names l) + length (func_names l)) as Hcount.
  { induction l as [| d l IH]; intros s; [simpl; lia |].
    cbn [collect_all fold_left]. fold (collect_all l (collect s d)). rewrite IH.
    destruct d; simpl; try lia.
    - destruct (in_functions _ _); simpl; rewrite ?length_app; simpl; lia.
    - destruct (in_scope _ _) eqn:E; simpl; rewrite ?length_app; simpl; [lia |].
      apply in_scope_false in E. rewrite map_size_insert_None by done. lia. }
  assert (∀ l s, table_ok s.(functions) → table_ok (collect_all l s).(functions)) as Hok.
  { induction l as [| d l IH]; intros s Hs; [done |].
    cbn [collect_all fold_left]. apply IH. by apply collect_table_ok. }
  split.
  - rewrite Hcount. simpl. rewrite map_size_empty. lia.
  - apply Hok. split; [apply NoDup_nil_2 | apply Forall_nil_2].
Qed.

(** The initializer of a top-level variable is dropped. *)
Definition erase_init (d : Node) : Node :=
  match d with
  | VarDecl t n _ c => VarDecl t n None c
  | _ => d
  end.

Lemma collect_all_erase_init l : ∀ s s',
  s.(errors) = s'.(errors) → s.(global_scope) = s'.(global_scope) →
  s.(functions) = s'.(functions) →
  (collect_all (map erase_init l) s).(errors) = (collect_all l s').(errors) ∧
  (collect_all (map erase_init l) s).(global_scope) = (collect_all l s').(global_scope) ∧
  (collect_all (map erase_init l) s).(functions) = (collect_all l s').(functions).
Proof.
  induction l as [| d l IH]; intros s s' He Hg Hf; [done |].
  cbn [map collect_all fold_left]. apply IH;
    destruct d; simpl; rewrite <- ?He, <- ?Hg, <- ?Hf; try done; by case_match.
Qed.

(** The initializers of global variables are never looked at: a program and
    the same program with every top-level initializer removed get the same
    diagnostics. *)
Theorem global_initializers_unchecked (decls : list Node) :
  diagnostics (mkProgram (map erase_init decls)) = diagnostics (mkProgram decls).
Proof.
  unfold diagnostics, analyze, pass2, pass1. cbn [errors program declarations new].
  fold (collect_all (map erase_init decls) (new (mkProgram (map erase_init decls)))).
  fold (collect_all decls (new (mkProgram decls))).
  destruct (collect_all_erase_init decls (new (mkProgram (map erase_init decls)))
              (new (mkProgram decls)) eq_refl eq_refl eq_refl) as (-> & -> & ->).
  done.
Qed.

(** Pass 2 starts only when pass 1 is over, so a function may be called
    before its declaration: for a declared name neither walk reports an
    undeclared function. *)
Theorem declared_function_callable (p : Program) (n : string) :
  n ∈ func_names p.(declarations) →
  let self := pass1 (new p) in
  in_functions n self.(functions) = true ∧
  ∀ f scope errs,
    visit self.(global_scope) self.(functions) f (FuncCall n []) scope errs = (scope, errs) ∧
    (infer_type self.(global_scope) self.(functions) f scope (FuncCall n []) errs).1 ≠ None.
Proof.
  intros Hn self.
  assert (in_functions n self.(functions) = true) as Hin.
  { destruct (in_functions n (functions self)) eqn:E; [done |].
    apply in_functions_false in E. subst self. unfold pass1 in E.
    cbn [program new declarations] in E.
    fold (collect_all (declarations p) (new p)) in E.
    apply collect_all_function_none in E as [_ E]. done. }
  split; [done |]. intros f scope errs. split.
  - cbn [visit visit_all]. by rewrite Hin.
  - cbn [infer_type]. unfold in_functions in Hin.
    by destruct (lookup_function n (functions self)).
Qed.

Lemma declared_function_callable_witness :
  let p := mkProgram [FuncDecl "void" "g" [] (Compound [ExprStmt (FuncCall "h" [])]);
                      FuncDecl "int" "h" [] (Compound [])] in
  "h" ∈ func_names p.(declarations) ∧
  in_functions "h" (pass1 (new p)).(functions) = true ∧
  diagnostics p = [].
Proof.
  intros p.
  assert ("h" ∈ func_names p.(declarations)) as Hh.
  { simpl. apply list_elem_of_further, list_elem_of_here. }
  split; [exact Hh |].
  split; [exact (proj1 (declared_function_callable p "h" Hh)) | reflexivity].
Defined.

Section Statements.

Variable gs : Scope.
Variable fs : FuncTable.
Variable f : FuncDeclT.

(** An assignment to a name that is a const global is reported as such even
    when the function has a local of that name, const or not: the global
    table is consulted whatever the local scope holds. *)
Theorem const_global_reported_through_shadow (scope : Scope) x t op rhs errs :
  gs !! x = Some (t, true) → str_in op ASSIGN_OPS = true →
  ∃ more,
    (visit gs fs f (BinaryOp op (VarRef x) rhs) scope errs).2 =
    errs ++
    match scope !! x with Some (_, true) => [msg_const_local f x] | _ => [] end ++
    msg_const_global f x :: more.
Proof.
  intros Hg Hop. cbn [visit]. rewrite Hop, Hg. unfold in_scope. rewrite Hg.
  rewrite andb_false_r. cbn [negb andb].
  match goal with |- context [visit gs fs f rhs scope ?e] =>
    rewrite (SemanticFacts.visit_appends gs fs f rhs scope e) end.
  cbn [snd]. exists (visit gs fs f rhs scope []).2.
  destruct (scope !! x) as [[? [|]] |]; rewrite <- ?app_assoc; reflexivity.
Qed.

(** A statement that assigns a literal to a name bound nowhere yields
    exactly one diagnostic, whatever the operator. *)
Theorem undeclared_target_reported_once (scope : Scope) y op v t errs :
  scope !! y = None → gs !! y = None → in_functions y fs = false →
  visit gs fs f (ExprStmt (BinaryOp op (VarRef y) (Literal v t))) scope errs =
  (scope, errs ++ [msg_undeclared f y]).
Proof.
  intros Hs Hg Hf. cbn [visit]. unfold in_scope. rewrite Hs, Hg, Hf.
  cbn [negb andb]. by destruct (str_in op ASSIGN_OPS).
Qed.

(** A function name used as a value is reported by type inference only: as
    a returned expression it yields one diagnostic, as a statement of its
    own none. *)
Theorem function_name_as_value (scope : Scope) x errs :
  scope !! x = None → gs !! x = None → in_functions x fs = true →
  infer_type gs fs f scope (VarRef x) errs = (None, errs ++ [msg_func_as_value f x]) ∧
  visit gs fs f (Return (Some (VarRef x))) scope errs =
    (scope, errs ++ [msg_func_as_value f x]) ∧
  visit gs fs f (ExprStmt (VarRef x)) scope errs = (scope, errs).
Proof.
  intros Hs Hg Hf. repeat split.
  - cbn [infer_type]. by rewrite Hs, Hg, Hf.
  - cbn [visit infer_type node_truthy]. unfold in_scope.
    rewrite Hs, Hg, Hf. cbn [negb andb mismatch truthy].
    by rewrite andb_false_r.
  - cbn [visit]. unfold in_scope. by rewrite Hs, Hg, Hf.
Qed.

(** Comparison and logical operators infer [bool] whatever their operands
    are, and add no diagnostic beyond those of inferring the two operands,
    left first. *)
Theorem comparison_infers_bool (scope : Scope) op l r errs :
  str_in op (COMPARE_OPS ++ LOGIC_OPS) = true →
  infer_type gs fs f scope (BinaryOp op l r) errs =
  (Some "bool",
   (infer_type gs fs f scope r (infer_type gs fs f scope l errs).2).2).
Proof.
  intros Hop. cbn [infer_type].
  destruct (infer_type gs fs f scope l errs) as [lt e1]. cbn [snd].
  destruct (infer_type gs fs f scope r e1) as [rt e2]. cbn [snd].
  assert (str_in op ARITH_OPS = false) as ->.
  { destruct (str_in op ARITH_OPS) eqn:E; [| done].
    unfold str_in, ARITH_OPS in E. cbn [existsb] in E.
    repeat (apply orb_prop in E as [E | E];
            [apply str_eq_true in E; subst op; by vm_compute in Hop |]).
    done. }
  unfold str_in in Hop. rewrite existsb_app in Hop.
  apply orb_prop in Hop as [Hop | Hop].
  - unfold str_in. by rewrite Hop.
  - unfold str_in. rewrite Hop. by destruct (existsb (str_eq op) COMPARE_OPS).
Qed.

End Statements.

Lemma const_global_reported_through_shadow_witness :
  ∃ more,
    (visit {[ "x" := ("int", true) ]} [] (mkFuncDecl "void" "f" [] (Compound []))
       (BinaryOp "=" (VarRef "x") (Literal (VInt 3) "int"))
       {[ "x" := ("int", false) ]} []).2 =
    "Assignment to const global x in function f" :: more.
Proof.
  assert (({[ "x" := ("int", true) ]} : Scope) !! "x" = Some ("int", true)) as Hx.
  { vm_compute. reflexivity. }
  destruct (const_global_reported_through_shadow {[ "x" := ("int", true) ]} []
              (mkFuncDecl "void" "f" [] (Compound []))
              {[ "x" := ("int", false) ]} "x" "int" "=" (Literal (VInt 3) "int") []
              Hx eq_refl) as [more H].
  exists more. vm_compute in H. vm_compute. exact H.
Defined.

Lemma undeclared_target_reported_once_witness :
  visit ∅ [] (mkFuncDecl "void" "f" [] (Compound []))
    (ExprStmt (BinaryOp "=" (VarRef "y") (Literal (VInt 1) "int"))) ∅ [] =
  (∅, ["Use of undeclared identifier y in function f"]).
Proof.
  exact (undeclared_target_reported_once ∅ [] (mkFuncDecl "void" "f" [] (Compound []))
           ∅ "y" "=" (VInt 1) "int" [] eq_refl eq_refl eq_refl).
Defined.

Lemma function_name_as_value_witness :
  visit ∅ [("g", mkFuncDecl "int" "g" [] (Compound []))]
    (mkFuncDecl "void" "f" [] (Compound [])) (Return (Some (VarRef "g"))) ∅ [] =
  (∅, ["Function g used as value in function f"]).
Proof.
  exact (proj1 (proj2 (function_name_as_value ∅
           [("g", mkFuncDecl "int" "g" [] (Compound []))]
           (mkFuncDecl "void" "f" [] (Compound [])) ∅ "g" []
           eq_refl eq_refl eq_refl))).
Defined.

Lemma comparison_infers_bool_witness :
  (infer_type ∅ [] (mkFuncDecl "void" "f" [] (Compound [])) ∅
     (BinaryOp "<" (VarRef "a") (Literal (VInt 1) "int")) []).1 = Some "bool".
Proof.
  rewrite (comparison_infers_bool ∅ [] (mkFuncDecl "void" "f" [] (Compound [])) ∅ "<"
             (VarRef "a") (Literal (VInt 1) "int") [] eq_refl).
  reflexivity.
Defined.

(** ** The local scope after a walk *)

(** The local declarations the walk of a node meets, in the order it meets
    them, whatever block they stand in.  A [for] loop is not walked. *)
Fixpoint local_decls (n : Node) : list (string * (string * bool)) :=
  let opt := fun o : option Node =>
    match o with
    | Some e => if node_truthy o then local_decls e else []
    | None => []
    end in
  match n with
  | Compound stmts => flat_map local_decls stmts
  | VarDecl var_type x init is_const => (x, (var_type, is_const)) :: opt init
  | If c t e => local_decls c ++ local_decls t ++ opt e
  | While c b => local_decls c ++ local_decls b
  | Return e => opt e
  | ExprStmt e => local_decls e
  | BinaryOp _ l r => local_decls l ++ local_decls r
  | UnaryOp _ e => local_decls e
  | FuncCall _ args => flat_map local_decls args
  | _ => []
  end.

(** [scope[name] = (var_type, is_const)] *)
Definition declare (sc : Scope) (d : string * (string * bool)) : Scope :=
  <[d.1 := d.2]> sc.

Section LocalScope.

Variable gs : Scope.
Variable fs : FuncTable.
Variable f : FuncDeclT.

Definition scope_spec (n : Node) : Prop :=
  ∀ scope errs, (visit gs fs f n scope errs).1 = fold_left declare (local_decls n) scope.

Lemma visit_all_scope l :
  Forall scope_spec l →
  ∀ scope errs, (visit_all (visit gs fs f) l scope errs).1 =
                fold_left declare (flat_map local_decls l) scope.
Proof.
  induction 1 as [| a l Ha Hl IH]; intros scope errs; [done |].
  cbn [visit_all flat_map]. rewrite fold_left_app, <- (Ha scope errs).
  destruct (visit gs fs f a scope errs) as [sc1 e1]. apply IH.
Qed.

Lemma visit_seq_scope a b scope errs :
  scope_spec a → scope_spec b →
  (let '(sc, e) := visit gs fs f a scope errs in visit gs fs f b sc e).1 =
  fold_left declare (local_decls a ++ local_decls b) scope.
Proof.
  intros Ha Hb. rewrite fold_left_app, <- (Ha scope errs).
  destruct (visit gs fs f a scope errs) as [sc1 e1]. apply Hb.
Qed.

Lemma visit_scope_spec n : scope_spec n.
Proof.
  induction n as [ | t x init c IHi | l IHl | c t e IHc IHt IHe | c b IHc IHb |
                   | e IHe | e IHe | op l r IHl IHr | op e IHe | | x | x args IHargs | ]
    using Node_nested_ind; intros scope errs; cbn [visit local_decls]; try done.
  - (* VarDecl *)
    destruct init as [i |]; [| done]. cbn [opt_holds] in IHi.
    destruct (node_truthy (Some i)); [| done].
    destruct (infer_type gs fs f (<[x:=(t, c)]> scope) i _) as [it e1].
    cbn [fold_left]. apply IHi.
  - (* Compound *)
    by apply visit_all_scope.
  - (* If *)
    rewrite fold_left_app, <- (IHc scope errs).
    destruct (visit gs fs f c scope errs) as [sc1 e1]. cbn [fst].
    rewrite fold_left_app, <- (IHt sc1 e1).
    destruct (visit gs fs f t sc1 e1) as [sc2 e2].
    destruct e as [e |]; [| done]. cbn [opt_holds] in IHe.
    destruct (node_truthy (Some e)); [| done]. apply IHe.
  - (* While *)
    by apply visit_seq_scope.
  - (* Return *)
    destruct e as [e |]; [| done]. cbn [opt_holds] in IHe.
    destruct (node_truthy (Some e)); [| done].
    destruct (infer_type gs fs f scope e errs) as [it e1]. apply IHe.
  - (* BinaryOp *)
    by apply visit_seq_scope.
  - (* VarRef *)
    by destruct (_ && _).
  - (* FuncCall *)
    by apply visit_all_scope.
Qed.

End LocalScope.

(** The local scope after the walk of a node is the scope before it,
    overwritten by the declarations of the node in the order of the walk.
    It does not depend on the globals, the functions or the diagnostics;
    a declaration in a nested block stays in scope after the block, and the
    declarations of a [for] loop never enter it. *)
Theorem scope_after_walk gs fs f n scope errs :
  (visit gs fs f n scope errs).1 = fold_left declare (local_decls n) scope.
Proof. apply visit_scope_spec. Qed.

End AnalyzerProps.

(** * Further properties of the scanner *)

Module LexerProps.

Import LexerFacts.

(** The token types the scanner can emit besides keywords and [EOF]. *)
Definition TOKEN_TYPES : list string := ["CHAR"; "FLOAT"; "INT"; "ID"; "OP"; "SYMBOL"].

(** What holds of every token the loop emits. *)
Definition token_ok (t : Token) : Prop :=
  (t.(type) ∈ TOKEN_TYPES ∨ (t.(type) ∈ KEYWORDS ∧ t.(value) = t.(type))) ∧
  t.(value) ≠ "" ∧
  (t.(type) = "ID" → str_in t.(value) KEYWORDS = false) ∧
  1 ≤ t.(column).

Definition line_le (a b : Token) : Prop := a.(line) ≤ b.(line).

Lemma take_str_nonempty n c r : 1 ≤ n → take_str n (String c r) ≠ "".
Proof. destruct n; [lia |]. done. Qed.

Lemma str_in_elem_of x l : str_in x l = true ↔ x ∈ l.
Proof.
  unfold str_in. induction l as [| y l IH]; simpl.
  - split; [done | intros H; by apply elem_of_nil in H].
  - rewrite orb_true_iff, IH, elem_of_cons, CollectFacts.str_eq_true. done.
Qed.

Lemma emitted_kind k :
  k ∈ token_specification.*1 →
  str_eq k "NEWLINE" = false →
  str_eq k "SKIP" || str_eq k "COMMENT" || str_eq k "MULTICOMMENT" = false →
  k ∈ TOKEN_TYPES.
Proof.
  intros Hk Hn Hs. simpl in Hk.
  repeat (apply elem_of_cons in Hk as [-> | Hk];
          [first [ by vm_compute in Hn | by vm_compute in Hs
                 | apply str_in_elem_of; by vm_compute ] |]).
  by apply elem_of_nil in Hk.
Qed.

Lemma tokenize_loop_invariant fuel :
  ∀ rest pos line_num line_start tokens res line_num',
  tokenize_loop fuel rest pos line_num line_start tokens = Some (res, line_num') →
  line_num ≤ line_num' ∧
  ∃ new, res = tokens ++ new ∧
    Forall (λ t, token_ok t ∧ line_num ≤ t.(line) ≤ line_num') new ∧
    StronglySorted line_le new.
Proof.
  induction fuel as [| fuel IH]; intros rest pos ln ls tokens res ln' H.
  { destruct rest; simpl in H; [| done]. injection H as <- <-.
    split; [done |]. exists []. rewrite app_nil_r.
    repeat split; constructor. }
  destruct rest as [| c rest']; cbn [tokenize_loop] in H.
  { injection H as <- <-. split; [done |]. exists []. rewrite app_nil_r.
    repeat split; constructor. }
  destruct (regex_match (String c rest')) as [[k n] |] eqn:Hm; [| by apply IH in H].
  apply regex_match_spec in Hm as [Hk Hn].
  destruct (str_eq k "NEWLINE") eqn:Hnl.
  { apply IH in H as (Hle & new & -> & Hall & Hs). split; [lia |].
    exists new. repeat split; [| done].
    eapply Forall_impl; [exact Hall |]. intros t [? ?]. split; [done | lia]. }
  destruct (str_eq k "SKIP" || str_eq k "COMMENT" || str_eq k "MULTICOMMENT") eqn:Hsk;
    [by apply IH in H |].
  apply IH in H as (Hle & new & -> & Hall & Hs). split; [done |].
  eexists (_ :: new). rewrite <- app_assoc. split; [done |].
  pose proof (emitted_kind k Hk Hnl Hsk) as Hty.
  split.
  - constructor; [| done]. split; [| simpl; lia].
    destruct (str_eq k "ID" && str_in (take_str n (String c rest')) KEYWORDS) eqn:Hkw.
    + apply andb_prop in Hkw as [_ Hkw].
      repeat split; simpl; [right | apply take_str_nonempty; lia | | lia].
      * split; [by apply str_in_elem_of | done].
      * intros ->. by vm_compute in Hkw.
    + repeat split; simpl; [by left | apply take_str_nonempty; lia | | lia].
      intros ->. by rewrite CollectFacts.str_eq_refl in Hkw.
  - constructor; [done |].
    eapply Forall_impl; [exact Hall |]. intros t [_ [? _]]. unfold line_le. simpl. lia.
Qed.

(** Every token before the final [EOF] has one of the six literal,
    identifier, operator and symbol types or is a keyword whose type is its
    own text; its text is not empty; a token typed [ID] is never a keyword;
    columns start at 1; and line numbers start at 1, never decrease along
    the list, and none exceeds the line of the final [EOF]. *)
Theorem tokenize_tokens_well_formed (code : string) (tokens : list Token) :
  tokenize code = Some tokens →
  ∃ body last_line,
    tokens = body ++ [mkToken "EOF" "" last_line 1] ∧
    Forall (λ t, token_ok t ∧ 1 ≤ t.(line) ≤ last_line) body ∧
    StronglySorted line_le body.
Proof.
  unfold tokenize.
  destruct (tokenize_loop (String.length code) code 0 1 0 []) as [[res ln] |] eqn:H;
    [| done].
  intros [= <-]. apply tokenize_loop_invariant in H as (_ & new & -> & Hall & Hs).
  by exists new, ln.
Qed.

Lemma tokenize_tokens_well_formed_witness :
  ∃ body last_line,
    [mkToken "if" "if" 1 1; mkToken "ID" "x" 1 4; mkToken "EOF" "" 1 1] =
      body ++ [mkToken "EOF" "" last_line 1] ∧
    Forall (λ t, token_ok t ∧ 1 ≤ t.(line) ≤ last_line) body ∧
    StronglySorted line_le body.
Proof.
  apply (tokenize_tokens_well_formed "if x"). vm_compute. reflexivity.
Defined.

(** ** Texts of one kind *)

Lemma span_all p s : all_chars p s = true → span p s = String.length s.
Proof.
  induction s as [| c r IH]; simpl; [done |].
  intros H. apply andb_prop in H as [-> Hr]. by rewrite IH.
Qed.

Lemma drop_str_all s : drop_str (String.length s) s = "".
Proof. induction s; simpl; done. Qed.

Lemma take_str_all s : take_str (String.length s) s = s.
Proof. unfold take_str. induction s as [| c r IH]; simpl; [done |]. by rewrite IH. Qed.

Lemma length_append s t : String.length (s +:+ t) = String.length s + String.length t.
Proof. induction s as [| c r IH]; simpl; [done |]. by rewrite IH. Qed.

Lemma drop_str_append s t : drop_str (String.length s) (s +:+ t) = t.
Proof. induction s as [| c r IH]; simpl; [by destruct t | done]. Qed.

Lemma take_str_append s t : take_str (String.length s) (s +:+ t) = s.
Proof.
  unfold take_str. induction s as [| c r IH]; simpl; [by destruct t |]. by rewrite IH.
Qed.

(** A greedy class stops where the class ends. *)
Lemma span_append p s t :
  all_chars p s = true →
  span p (s +:+ t) = String.length s + span p t.
Proof.
  induction s as [| c r IH]; simpl; [done |].
  intros H. apply andb_prop in H as [-> Hr]. by rewrite IH.
Qed.

Lemma id_start_class c :
  is_id_start c = true →
  is_digit c = false ∧ Ascii.eqb c "/" = false ∧ Ascii.eqb c "'" = false.
Proof.
  destruct c as [[] [] [] [] [] [] [] []]; vm_compute; intros H;
    first [discriminate H | done].
Qed.

Lemma digit_class c :
  is_digit c = true →
  Ascii.eqb c "/" = false ∧ Ascii.eqb c "'" = false ∧ Ascii.eqb c "." = false.
Proof.
  destruct c as [[] [] [] [] [] [] [] []]; vm_compute; intros H;
    first [discriminate H | done].
Qed.

Lemma blank_class c :
  is_blank c || Ascii.eqb c newline = true →
  is_digit c = false ∧ is_id_start c = false ∧ is_symbol c = false ∧
  Ascii.eqb c "/" = false ∧ Ascii.eqb c "'" = false.
Proof.
  destruct c as [[] [] [] [] [] [] [] []]; vm_compute; intros H;
    first [discriminate H | done].
Qed.

Lemma early_rules_fail c r :
  Ascii.eqb c "/" = false → Ascii.eqb c "'" = false →
  match_COMMENT (String c r) = None ∧ match_MULTICOMMENT (String c r) = None ∧
  match_CHAR (String c r) = None.
Proof.
  intros Hs Hq. repeat split; simpl; destruct r; try done; by rewrite ?Hs, ?Hq.
Qed.

Lemma regex_match_identifier c r :
  is_id_start c = true →
  regex_match (String c r) = Some ("ID", 1 + span is_id_char r).
Proof.
  intros Hc. destruct (id_start_class c Hc) as (Hd & Hs & Hq).
  destruct (early_rules_fail c r Hs Hq) as (H1 & H2 & H3).
  unfold regex_match, token_specification, first_match.
  rewrite H1, H2, H3.
  unfold match_FLOAT, match_INT. cbn [span]. rewrite Hd. cbn [Nat.eqb].
  cbn [match_ID]. by rewrite Hc.
Qed.

Lemma regex_match_digits d t :
  all_chars is_digit d = true → d ≠ "" →
  span is_digit t = 0 →
  regex_match (d +:+ t) =
    match t with
    | String c e =>
        if Ascii.eqb c "." && negb (span is_digit e =? 0)
        then Some ("FLOAT", String.length d + 1 + span is_digit e)
        else Some ("INT", String.length d)
    | EmptyString => Some ("INT", String.length d)
    end.
Proof.
  intros Hd Hne Ht.
  destruct d as [| c r]; [done |]. clear Hne.
  pose proof Hd as Hd'. cbn [all_chars] in Hd'. apply andb_prop in Hd' as [Hc Hr].
  destruct (digit_class c Hc) as (Hs & Hq & _).
  destruct (early_rules_fail c (r +:+ t) Hs Hq) as (H1 & H2 & H3).
  unfold regex_match, token_specification, first_match.
  change (String c r +:+ t) with (String c (r +:+ t)) in *.
  rewrite H1, H2, H3.
  unfold match_FLOAT, match_INT.
  change (String c (r +:+ t)) with (String c r +:+ t).
  rewrite (span_append is_digit (String c r) t Hd), Ht, Nat.add_0_r.
  rewrite drop_str_append.
  change (String.length (String c r) =? 0) with false. cbn match.
  destruct t as [| c' e]; [done |].
  destruct (Ascii.eqb c' "."); [| done].
  cbn [andb]. by destruct (span is_digit e =? 0).
Qed.

(** A text that is one identifier-shaped word scans to one token (the
    longest identifier is taken, so a keyword is only recognized as the whole
    word): typed by its own text if that is a keyword, [ID] otherwise. *)
Theorem tokenize_word (c : ascii) (r : string) :
  is_id_start c = true → all_chars is_id_char r = true →
  tokenize (String c r) =
  Some [mkToken (if str_in (String c r) KEYWORDS then String c r else "ID")
                (String c r) 1 1;
        mkToken "EOF" "" 1 1].
Proof.
  intros Hc Hr. unfold tokenize. cbn [String.length tokenize_loop].
  rewrite (regex_match_identifier c r Hc), (span_all _ _ Hr).
  change (1 + String.length r) with (String.length (String c r)).
  rewrite take_str_all, drop_str_all.
  change (str_eq "ID" "NEWLINE") with false.
  change (str_eq "ID" "SKIP" || str_eq "ID" "COMMENT" || str_eq "ID" "MULTICOMMENT")
    with false.
  change (str_eq "ID" "ID") with true. cbn match. cbn [andb].
  by destruct r.
Qed.

Lemma tokenize_word_witness :
  tokenize "iffy" = Some [mkToken "ID" "iffy" 1 1; mkToken "EOF" "" 1 1] ∧
  tokenize "while" = Some [mkToken "while" "while" 1 1; mkToken "EOF" "" 1 1].
Proof.
  split.
  - exact (tokenize_word "i" "ffy" eq_refl eq_refl).
  - exact (tokenize_word "w" "hile" eq_refl eq_refl).
Defined.

(** One turn of the loop on a match that is emitted as a token. *)
Lemma tokenize_loop_emit fuel s pos line_num line_start tokens k n :
  s ≠ "" → regex_match s = Some (k, n) → k ∈ TOKEN_TYPES →
  tokenize_loop (S fuel) s pos line_num line_start tokens =
  tokenize_loop fuel (drop_str n s) (pos + n) line_num line_start
    (tokens ++
     [mkToken (if str_eq k "ID" && str_in (take_str n s) KEYWORDS
               then take_str n s else k)
              (take_str n s) line_num (pos - line_start + 1)]).
Proof.
  intros Hs Hm Hk. destruct s as [| c r]; [done |].
  cbn [tokenize_loop]. rewrite Hm.
  assert (str_eq k "NEWLINE" = false ∧
          str_eq k "SKIP" || str_eq k "COMMENT" || str_eq k "MULTICOMMENT" = false)
    as [-> ->]; [| done].
  unfold TOKEN_TYPES in Hk.
  repeat (apply elem_of_cons in Hk as [-> | Hk]; [by vm_compute |]).
  by apply elem_of_nil in Hk.
Qed.

Lemma append_nil_r s : s +:+ "" = s.
Proof.
  induction s as [| c r IH]; [done |].
  change (String c r +:+ "") with (String c (r +:+ "")). by rewrite IH.
Qed.

Lemma token_type_INT : "INT" ∈ TOKEN_TYPES.
Proof. apply str_in_elem_of. by vm_compute. Qed.

Lemma token_type_FLOAT : "FLOAT" ∈ TOKEN_TYPES.
Proof. apply str_in_elem_of. by vm_compute. Qed.

Lemma token_type_SYMBOL : "SYMBOL" ∈ TOKEN_TYPES.
Proof. apply str_in_elem_of. by vm_compute. Qed.

(** Number literals.  A run of digits scans to one [INT]; digits, a dot and
    digits scan to one [FLOAT]; but digits followed by a bare dot are an
    [INT] and then the symbol [.], which sits in the column after the
    digits. *)
Theorem tokenize_number (d : string) :
  all_chars is_digit d = true → d ≠ "" →
  tokenize d = Some [mkToken "INT" d 1 1; mkToken "EOF" "" 1 1] ∧
  tokenize (d +:+ ".") =
    Some [mkToken "INT" d 1 1; mkToken "SYMBOL" "." 1 (String.length d + 1);
          mkToken "EOF" "" 1 1] ∧
  ∀ e, all_chars is_digit e = true → e ≠ "" →
    tokenize (d +:+ "." +:+ e) =
      Some [mkToken "FLOAT" (d +:+ "." +:+ e) 1 1; mkToken "EOF" "" 1 1].
Proof.
  intros Hd Hne.
  assert (∃ k, String.length d = S k) as [k Hk].
  { destruct d; [done | by eexists]. }
  split; [| split].
  - unfold tokenize. rewrite Hk.
    rewrite (tokenize_loop_emit k d 0 1 0 [] "INT" (String.length d));
      [| done | | apply token_type_INT].
    + rewrite drop_str_all, take_str_all. by destruct k.
    + pose proof (regex_match_digits d "" Hd Hne eq_refl) as H.
      by rewrite append_nil_r in H.
  - unfold tokenize. rewrite length_append, Hk. cbn [String.length Nat.add].
    rewrite Nat.add_1_r.
    rewrite (tokenize_loop_emit (S k) (d +:+ ".") 0 1 0 [] "INT" (String.length d));
      [| by destruct d | | apply token_type_INT].
    + rewrite drop_str_append, take_str_append.
      rewrite (tokenize_loop_emit k "." _ 1 0 _ "SYMBOL" 1);
        [| done | by vm_compute | apply token_type_SYMBOL].
      cbn [drop_str]. cbn [app].
      change (str_eq "INT" "ID") with false.
      change (str_eq "SYMBOL" "ID") with false. cbn [andb].
      change (take_str 1 ".") with ".".
      rewrite Hk, !Nat.sub_0_r, !Nat.add_1_r. by destruct k.
    + exact (regex_match_digits d "." Hd Hne eq_refl).
  - intros e He Hnee.
    assert ((span is_digit e =? 0) = false) as Hspan.
    { rewrite (span_all _ _ He). destruct e; [done | done]. }
    change (d +:+ "." +:+ e) with (d +:+ String "." e).
    pose proof (regex_match_digits d (String "." e) Hd Hne eq_refl) as Hm.
    cbv beta iota in Hm.
    change (Ascii.eqb "." ".") with true in Hm. rewrite Hspan in Hm.
    cbn [andb negb] in Hm. rewrite (span_all _ _ He) in Hm.
    assert (String.length d + 1 + String.length e = String.length (d +:+ String "." e))
      as Hlen.
    { rewrite length_append. simpl. lia. }
    rewrite Hlen in Hm.
    unfold tokenize.
    destruct (String.length (d +:+ String "." e)) as [| k'] eqn:Hk'; [lia |].
    rewrite <- Hk' in Hm.
    assert (d +:+ String "." e ≠ "") as Hne' by (by destruct d).
    rewrite (tokenize_loop_emit k' (d +:+ String "." e) 0 1 0 [] "FLOAT" _ Hne' Hm
               token_type_FLOAT).
    rewrite drop_str_all, take_str_all. by destruct k'.
Qed.

Lemma tokenize_number_witness :
  tokenize "123." =
    Some [mkToken "INT" "123" 1 1; mkToken "SYMBOL" "." 1 4; mkToken "EOF" "" 1 1] ∧
  tokenize "12.5" = Some [mkToken "FLOAT" "12.5" 1 1; mkToken "EOF" "" 1 1].
Proof.
  assert ("123" ≠ "") as H1 by discriminate.
  assert ("12" ≠ "") as H2 by discriminate.
  assert ("5" ≠ "") as H3 by discriminate.
  split.
  - exact (proj1 (proj2 (tokenize_number "123" eq_refl H1))).
  - exact (proj2 (proj2 (tokenize_number "12" eq_refl H2)) "5" eq_refl H3).
Defined.

(** ** Blank text and comments *)

(** [[ \t]] or a line feed. *)
Definition is_space (c : ascii) : bool := is_blank c || Ascii.eqb c newline.

Fixpoint count_newlines (s : string) : nat :=
  match s with
  | EmptyString => 0
  | String c r => (if Ascii.eqb c newline then 1 else 0) + count_newlines r
  end.

Lemma match_OP_not_symbol c r : is_symbol c = false → match_OP (String c r) = None.
Proof.
  intros Hs. cbn [match_OP]. destruct r as [| b r]; [done |].
  destruct (str_in _ OPERATORS) eqn:E; [| done].
  unfold str_in, OPERATORS in E. simpl in E. unfold str_eq in E. simpl in E.
  repeat (apply orb_prop in E as [E | E];
          [ apply andb_prop in E as [E _]; apply Ascii.eqb_eq in E as ->;
            by vm_compute in Hs |]).
  done.
Qed.

Lemma blank_not_newline c : is_blank c = true → Ascii.eqb c newline = false.
Proof.
  destruct c as [[] [] [] [] [] [] [] []]; vm_compute; intros H;
    first [discriminate H | done].
Qed.

Lemma regex_match_space c r :
  is_space c = true →
  regex_match (String c r) =
    if Ascii.eqb c newline then Some ("NEWLINE", 1)
    else Some ("SKIP", span is_blank (String c r)).
Proof.
  intros Hc. destruct (blank_class c Hc) as (Hd & Hi & Hs & Hsl & Hq).
  destruct (early_rules_fail c r Hsl Hq) as (H1 & H2 & H3).
  unfold regex_match, token_specification, first_match.
  rewrite H1, H2, H3, (match_OP_not_symbol c r Hs).
  unfold match_FLOAT, match_INT, match_SKIP. cbn [span match_ID match_SYMBOL match_NEWLINE].
  rewrite Hd, Hi, Hs. cbn [Nat.eqb].
  unfold is_space in Hc. destruct (Ascii.eqb c newline) eqn:En.
  - destruct (is_blank c) eqn:Eb; [| done].
    apply blank_not_newline in Eb. congruence.
  - rewrite orb_false_r in Hc. by rewrite Hc.
Qed.

Lemma all_chars_drop p n s : all_chars p s = true → all_chars p (drop_str n s) = true.
Proof.
  revert s. induction n as [| n IH]; intros [| c r]; simpl; try done.
  intros H. apply andb_prop in H as [_ H]. by apply IH.
Qed.

Lemma count_newlines_drop_blank s :
  count_newlines (drop_str (span is_blank s) s) = count_newlines s.
Proof.
  induction s as [| c r IH]; simpl; [done |].
  destruct (is_blank c) eqn:E; simpl; [| done].
  by rewrite (blank_not_newline c E).
Qed.

Lemma tokenize_loop_space fuel :
  ∀ s pos line_num line_start tokens,
  all_chars is_space s = true → String.length s ≤ fuel →
  tokenize_loop fuel s pos line_num line_start tokens =
  Some (tokens, line_num + count_newlines s).
Proof.
  induction fuel as [| fuel IH]; intros s pos ln ls tokens Hall Hlen.
  { destruct s; simpl in *; [by rewrite Nat.add_0_r | lia]. }
  destruct s as [| c r]; [simpl; by rewrite Nat.add_0_r |].
  pose proof Hall as Hall'. cbn [all_chars] in Hall'.
  apply andb_prop in Hall' as [Hc Hr].
  cbn [tokenize_loop]. rewrite (regex_match_space c r Hc).
  destruct (Ascii.eqb c newline) eqn:En.
  - change (str_eq "NEWLINE" "NEWLINE") with true. cbn match. cbn [drop_str].
    rewrite IH; [| done | simpl in Hlen; lia].
    cbn [count_newlines]. rewrite En. f_equal. f_equal. lia.
  - change (str_eq "SKIP" "NEWLINE") with false.
    change (str_eq "SKIP" "SKIP" || str_eq "SKIP" "COMMENT" || str_eq "SKIP" "MULTICOMMENT")
      with true. cbn match.
    assert (1 ≤ span is_blank (String c r)) as Hspan.
    { cbn [span]. unfold is_space in Hc. rewrite En, orb_false_r in Hc.
      rewrite Hc. lia. }
    rewrite IH.
    + by rewrite count_newlines_drop_blank.
    + by apply all_chars_drop.
    + rewrite length_drop_str. simpl in *. lia.
Qed.

(** A text of blanks, tabs and line feeds only scans to the [EOF] token
    alone, on the line after the last line feed, and parses to the empty
    program; the empty text is the special case of line 1. *)
Theorem blank_text_is_empty_program (s : string) :
  all_chars is_space s = true →
  tokenize s = Some [mkToken "EOF" "" (1 + count_newlines s) 1] ∧
  parses_to s (mkProgram []) ∧
  analyzes_to s [].
Proof.
  intros Hall.
  assert (tokenize s = Some [mkToken "EOF" "" (1 + count_newlines s) 1]) as Ht.
  { unfold tokenize. by rewrite tokenize_loop_space. }
  split; [exact Ht |]. split.
  - exists 1. unfold parse. rewrite Ht. reflexivity.
  - exists 1. unfold check_source, parse. rewrite Ht. reflexivity.
Qed.

Lemma blank_text_is_empty_program_witness :
  tokenize (String newline (String " " (String newline ""))) =
    Some [mkToken "EOF" "" 3 1] ∧
  parses_to "" (mkProgram []).
Proof.
  split.
  - exact (proj1 (blank_text_is_empty_program
                    (String newline (String " " (String newline ""))) eq_refl)).
  - exact (proj1 (proj2 (blank_text_is_empty_program "" eq_refl))).
Defined.

(** Comments.  A line comment is skipped up to, not including, the next
    line feed.  A block comment is skipped up to and including the first
    [*/], and its line feeds do not advance the line counter or the line
    origin.  A [/*] that is never closed is no comment: the [/] is scanned
    as a symbol of its own. *)
Theorem comments_skipped (r : string) :
  (∀ fuel pos line_num line_start tokens,
     tokenize_loop (S fuel) (String "/" (String "/" r)) pos line_num line_start tokens =
     tokenize_loop fuel (drop_str (span is_dot r) r) (pos + (2 + span is_dot r))
       line_num line_start tokens) ∧
  (∀ i, find_close r = Some i →
     ∀ fuel pos line_num line_start tokens,
     tokenize_loop (S fuel) (String "/" (String "*" r)) pos line_num line_start tokens =
     tokenize_loop fuel (drop_str (i + 2) r) (pos + (2 + i + 2))
       line_num line_start tokens) ∧
  (find_close r = None → regex_match (String "/" (String "*" r)) = Some ("SYMBOL", 1)).
Proof.
  split; [| split].
  - intros fuel pos ln ls tokens. cbn [tokenize_loop].
    assert (regex_match (String "/" (String "/" r)) = Some ("COMMENT", 2 + span is_dot r))
      as -> by reflexivity.
    change (str_eq "COMMENT" "NEWLINE") with false.
    change (str_eq "COMMENT" "SKIP" || str_eq "COMMENT" "COMMENT" ||
            str_eq "COMMENT" "MULTICOMMENT") with true.
    cbn match. reflexivity.
  - intros i Hi fuel pos ln ls tokens. cbn [tokenize_loop].
    assert (regex_match (String "/" (String "*" r)) = Some ("MULTICOMMENT", 2 + i + 2))
      as ->.
    { unfold regex_match, token_specification, first_match.
      change (match_COMMENT (String "/" (String "*" r))) with (@None nat).
      cbn [match_MULTICOMMENT]. change (Ascii.eqb "/" "/" && Ascii.eqb "*" "*") with true.
      cbn match. by rewrite Hi. }
    change (str_eq "MULTICOMMENT" "NEWLINE") with false.
    change (str_eq "MULTICOMMENT" "SKIP" || str_eq "MULTICOMMENT" "COMMENT" ||
            str_eq "MULTICOMMENT" "MULTICOMMENT") with true.
    cbn match.
    replace (2 + i + 2) with (S (S (i + 2))) by lia. reflexivity.
  - intros Hn. unfold regex_match, token_specification, first_match.
    change (match_COMMENT (String "/" (String "*" r))) with (@None nat).
    cbn [match_MULTICOMMENT]. change (Ascii.eqb "/" "/" && Ascii.eqb "*" "*") with true.
    cbn match. rewrite Hn. cbn [option_map].
    change (match_CHAR (String "/" (String "*" r))) with (@None nat).
    change (match_FLOAT (String "/" (String "*" r))) with (@None nat).
    change (match_INT (String "/" (String "*" r))) with (@None nat).
    change (match_ID (String "/" (String "*" r))) with (@None nat).
    change (match_OP (String "/" (String "*" r))) with (@None nat).
    reflexivity.
Qed.

Lemma comments_skipped_witness :
  find_close (String newline "x*/y") = Some 2 ∧
  tokenize ("/*" +:+ String newline "x*/y") =
    Some [mkToken "ID" "y" 1 7; mkToken "EOF" "" 1 1] ∧
  find_close "x" = None ∧
  regex_match "/*x" = Some ("SYMBOL", 1).
Proof.
  split; [reflexivity |]. split; [| split; [reflexivity |]].
  - unfold tokenize.
    change (String.length ("/*" +:+ String newline "x*/y")) with 7.
    change ("/*" +:+ String newline "x*/y")
      with (String "/" (String "*" (String newline "x*/y"))).
    rewrite (proj1 (proj2 (comments_skipped (String newline "x*/y"))) 2 eq_refl).
    reflexivity.
  - exact (proj2 (proj2 (comments_skipped "x")) eq_refl).
Defined.

(** ** The text of an [INT] token *)

(** A property of every token the loop emits holds of its whole result. *)
Lemma tokenize_loop_Forall (Q : Token → Prop) :
  (∀ s k n ln col, regex_match s = Some (k, n) →
     Q (mkToken (if str_eq k "ID" && str_in (take_str n s) KEYWORDS
                 then take_str n s else k) (take_str n s) ln col)) →
  ∀ fuel rest pos line_num line_start tokens res line_num',
  tokenize_loop fuel rest pos line_num line_start tokens = Some (res, line_num') →
  Forall Q tokens → Forall Q res.
Proof.
  intros HQ. induction fuel as [| fuel IH]; intros rest pos ln ls tokens res ln' H Htok.
  { destruct rest; simpl in H; [| done]. by injection H as <- <-. }
  destruct rest as [| c rest']; cbn [tokenize_loop] in H.
  { by injection H as <- <-. }
  destruct (regex_match (String c rest')) as [[k n] |] eqn:Hm; [| by eapply IH].
  destruct (str_eq k "NEWLINE"); [by eapply IH |].
  destruct (str_eq k "SKIP" || str_eq k "COMMENT" || str_eq k "MULTICOMMENT");
    [by eapply IH |].
  eapply IH; [exact H |]. apply Forall_app. split; [done |].
  apply List.Forall_cons; [| apply List.Forall_nil]. by apply HQ.
Qed.

Lemma take_span_all p s : all_chars p (take_str (span p s) s) = true.
Proof.
  unfold take_str. induction s as [| c r IH]; simpl; [done |].
  destruct (p c) eqn:E; [| done]. simpl. by rewrite E, IH.
Qed.

Lemma regex_match_INT s n :
  regex_match s = Some ("INT", n) → n = span is_digit s ∧ n ≠ 0.
Proof.
  unfold regex_match, token_specification. cbn [first_match].
  destruct (match_COMMENT s); [done |].
  destruct (match_MULTICOMMENT s); [done |].
  destruct (match_CHAR s); [done |].
  destruct (match_FLOAT s); [done |].
  unfold match_INT. destruct (span is_digit s =? 0) eqn:E.
  - destruct (match_ID s); [done |]. destruct (match_OP s); [done |].
    destruct (match_SYMBOL s); [done |]. destruct (match_SKIP s); [done |].
    destruct (match_NEWLINE s); done.
  - intros [= <-]. by apply Nat.eqb_neq in E.
Qed.

Lemma int_digits_all s : ∀ acc,
  all_chars is_digit s = true → Parser.int_digits acc s ≠ None.
Proof.
  induction s as [| c r IH]; intros acc H; simpl; [done |].
  simpl in H. apply andb_prop in H as [-> Hr]. by apply IH.
Qed.

(** The text of an [INT] token is a non-empty run of decimal digits. *)
Definition int_token_ok (t : Token) : Prop :=
  t.(type) = "INT" → t.(value) ≠ "" ∧ all_chars is_digit t.(value) = true.

Lemma tokenize_int_tokens code tokens :
  tokenize code = Some tokens → Forall int_token_ok tokens.
Proof.
  unfold tokenize.
  destruct (tokenize_loop (String.length code) code 0 1 0 []) as [[res ln] |] eqn:H;
    [| done].
  intros [= <-]. apply Forall_app. split.
  - eapply (tokenize_loop_Forall int_token_ok); [| exact H | apply List.Forall_nil].
    intros s k n l col Hm. unfold int_token_ok. cbn [type value].
    destruct (str_eq k "ID" && str_in (take_str n s) KEYWORDS) eqn:Hkw.
    + apply andb_prop in Hkw as [_ Hkw]. intros Hv. rewrite Hv in Hkw.
      by vm_compute in Hkw.
    + intros ->. apply regex_match_INT in Hm as [-> Hn].
      split; [| apply take_span_all].
      destruct s as [| c r]; [done |]. apply take_str_nonempty. lia.
  - apply List.Forall_cons; [| apply List.Forall_nil]. intros Hty. by vm_compute in Hty.
Qed.

(** [int(s)] is defined on a non-empty run of at most [MAX_STR_DIGITS]
    digits, and on no longer string. *)
Lemma int_of_str_digits s :
  s ≠ "" → all_chars is_digit s = true →
  Parser.int_of_str s = None ↔ Parser.MAX_STR_DIGITS < String.length s.
Proof.
  intros Hne Hall. unfold Parser.int_of_str. destruct s as [| c r]; [done |].
  destruct (Parser.MAX_STR_DIGITS <? String.length (String c r)) eqn:E.
  - apply Nat.ltb_lt in E. done.
  - apply Nat.ltb_ge in E. split; [| lia].
    intros H. by apply int_digits_all in H.
Qed.

(** [int(tok.value)] is defined on the token. *)
Definition int_converts (t : Token) : Prop :=
  t.(type) = "INT" → Parser.int_of_str t.(value) ≠ None.

(** No [INT] token has more than [MAX_STR_DIGITS] characters. *)
Definition short_ints (tokens : list Token) : bool :=
  forallb (λ t, negb (str_eq t.(type) "INT") ||
                (String.length t.(value) <=? Parser.MAX_STR_DIGITS)) tokens.

Lemma tokenize_int_converts code tokens :
  tokenize code = Some tokens → short_ints tokens = true →
  Forall int_converts tokens.
Proof.
  intros Htok Hshort. apply tokenize_int_tokens in Htok.
  unfold short_ints in Hshort. rewrite forallb_forall in Hshort.
  apply Forall_forall. intros t Ht Hty.
  rewrite Forall_forall in Htok. destruct (Htok t Ht Hty) as [Hne Hall].
  apply list_elem_of_In in Ht. specialize (Hshort t Ht).
  rewrite Hty in Hshort. change (str_eq "INT" "INT") with true in Hshort.
  cbn [negb orb] in Hshort. apply Nat.leb_le in Hshort.
  rewrite (int_of_str_digits _ Hne Hall). lia.
Qed.

(** A run of digits scans to one [INT] token. *)
Lemma tokenize_digits d :
  all_chars is_digit d = true → d ≠ "" →
  tokenize d = Some [mkToken "INT" d 1 1; mkToken "EOF" "" 1 1].
Proof.
  intros Hd Hne.
  assert (∃ k, String.length d = S k) as [k Hk].
  { destruct d; [done | by eexists]. }
  unfold tokenize. rewrite Hk.
  rewrite (tokenize_loop_emit k d 0 1 0 [] "INT" (String.length d));
    [| done | | apply token_type_INT].
  - rewrite drop_str_all, take_str_all. by destruct k.
  - pose proof (regex_match_digits d "" Hd Hne eq_refl) as H.
    by rewrite append_nil_r in H.
Qed.

End LexerProps.

(** * Further properties of the parser *)

Module ParserProps.

Section Outcomes.

Variable tokens : list Token.

Lemma bind_ok {A B} (m : M A) (k : A → M B) pos b pos' :
  bind m k pos = Ok (b, pos') →
  ∃ a p, m pos = Ok (a, p) ∧ k a p = Ok (b, pos').
Proof.
  unfold bind. destruct (m pos) as [[a p] | |]; [| done | done].
  intros H. by exists a, p.
Qed.

Lemma peek_ok pos t p :
  peek tokens pos = Ok (t, p) → p = pos ∧ tokens !! pos = Some t.
Proof. unfold peek. destruct (tokens !! pos); [| done]. by intros [= -> ->]. Qed.

Lemma next_ok pos t p :
  next tokens pos = Ok (t, p) → p = S pos ∧ tokens !! pos = Some t.
Proof. unfold next. destruct (tokens !! pos); [| done]. by intros [= -> ->]. Qed.

Lemma expect_ok typ value pos t p :
  expect tokens typ value pos = Ok (t, p) → p = S pos ∧ tokens !! pos = Some t.
Proof.
  unfold expect. intros H. apply bind_ok in H as (a & q & Hp & H).
  apply peek_ok in Hp as [-> Ha]. destruct (_ && _); [done |].
  apply next_ok in H as [-> H]. done.
Qed.

Lemma ret_ok {A} (a b : A) pos p : ret a pos = Ok (b, p) → b = a ∧ p = pos.
Proof. by intros [= -> ->]. Qed.

End Outcomes.

(** Take a successful run of a method apart, one [bind] at a time. *)
Ltac step_ok :=
  match goal with
  | H : bind _ _ _ = Ok _ |- _ =>
      let a := fresh "a" in let p := fresh "p" in let Hm := fresh "Hm" in
      apply bind_ok in H as (a & p & Hm & H); cbv beta in H
  | H : peek _ _ = Ok _ |- _ =>
      let Hl := fresh "Hl" in
      apply peek_ok in H as [-> Hl]; apply lookup_lt_Some in Hl
  | H : next _ _ = Ok _ |- _ =>
      let Hl := fresh "Hl" in
      apply next_ok in H as [-> Hl]; apply lookup_lt_Some in Hl
  | H : expect _ _ _ _ = Ok _ |- _ =>
      let Hl := fresh "Hl" in
      apply expect_ok in H as [-> Hl]; apply lookup_lt_Some in Hl
  | H : ret _ _ = Ok _ |- _ => apply ret_ok in H as [-> ->]
  | H : raise _ _ = Ok _ |- _ => discriminate H
  | H : out_of_fuel _ = Ok _ |- _ => discriminate H
  | H : (if ?b then _ else _) _ = Ok _ |- _ => destruct b eqn:?
  | H : match ?x with _ => _ end _ = Ok _ |- _ => destruct x eqn:?
  end.

Section Progress.

Variable tokens : list Token.

Definition expr_ok (e : Node) : Prop := is_expr e = true.
Definition exprs_ok (l : list Node) : Prop := forallb is_expr l = true.

Lemma parse_postfix_post f :
  ∀ lhs pos e p,
  parse_postfix tokens f lhs pos = Ok (e, p) → expr_ok lhs →
  pos ≤ p ≤ length tokens ∧ expr_ok e.
Proof.
  induction f as [| f IH]; intros lhs pos e p H Hl; [done |].
  cbn [parse_postfix] in H. repeat step_ok.
  - apply IH in H as [? ?]; [split; [lia | done] | done].
  - split; [lia | done].
Qed.

Ltac ok_solve :=
  unfold expr_ok, exprs_ok in *; cbn [is_expr]; rewrite ?forallb_app;
  cbn [forallb is_expr];
  repeat match goal with H : _ = true |- _ => rewrite H end;
  done.

Lemma parse_expression_post f :
  (∀ min_prec pos e p,
     parse_expression tokens f min_prec pos = Ok (e, p) →
     pos < p ≤ length tokens ∧ expr_ok e) ∧
  (∀ args pos l p,
     parse_args tokens f args pos = Ok (l, p) → exprs_ok args →
     pos < p ≤ length tokens ∧ exprs_ok l) ∧
  (∀ min_prec lhs pos e p,
     parse_binary tokens f min_prec lhs pos = Ok (e, p) → expr_ok lhs →
     pos ≤ p ≤ length tokens ∧ expr_ok e).
Proof.
  induction f as [| f (IHe & IHa & IHb)]; [done |].
  split; [| split].
  - intros min_prec pos e p H. cbn [parse_expression] in H.
    repeat step_ok;
      repeat match goal with
      | H : parse_expression _ _ _ _ = Ok _ |- _ => apply IHe in H as [? ?]
      | H : parse_args _ _ _ _ = Ok _ |- _ => apply IHa in H as [? ?]; [| done]
      end;
      repeat match goal with
      | H : parse_postfix _ _ _ _ = Ok _ |- _ =>
          apply parse_postfix_post in H as [? ?]; [| ok_solve]
      end;
      repeat match goal with
      | H : parse_binary _ _ _ _ _ = Ok _ |- _ => apply IHb in H as [? ?]; [| done]
      end; (split; [lia | ok_solve]).
  - intros args pos l p H Hargs. cbn [parse_args] in H.
    repeat step_ok;
      repeat match goal with
      | H : parse_expression _ _ _ _ = Ok _ |- _ => apply IHe in H as [? ?]
      end;
      repeat match goal with
      | H : parse_args _ _ _ _ = Ok _ |- _ => apply IHa in H as [? ?]; [| ok_solve]
      end; (split; [lia | ok_solve]).
  - intros min_prec lhs pos e p H Hl. cbn [parse_binary] in H.
    repeat step_ok;
      repeat match goal with
      | H : parse_expression _ _ _ _ = Ok _ |- _ => apply IHe in H as [? ?]
      end;
      repeat match goal with
      | H : parse_binary _ _ _ _ _ = Ok _ |- _ => apply IHb in H as [? ?]; [| ok_solve]
      end; (split; [lia | ok_solve]).
Qed.

Lemma parse_expr_post f min_prec pos e p :
  parse_expression tokens f min_prec pos = Ok (e, p) →
  pos < p ≤ length tokens ∧ expr_ok e.
Proof. apply parse_expression_post. Qed.

Ltac use_expr_post :=
  repeat match goal with
  | H : parse_expression _ _ _ _ = Ok _ |- _ => apply parse_expr_post in H as [? _]
  end.

Lemma parse_declarators_post f :
  ∀ typ is_const decls pos l p,
  parse_declarators tokens f typ is_const decls pos = Ok (l, p) →
  pos ≤ p ≤ length tokens.
Proof.
  induction f as [| f IH]; intros typ is_const decls pos l p H; [done |].
  cbn [parse_declarators] in H.
  repeat step_ok; use_expr_post;
    repeat match goal with
    | H : parse_declarators _ _ _ _ _ _ = Ok _ |- _ => apply IH in H
    end; lia.
Qed.

Lemma parse_params_post f :
  ∀ params pos l p,
  parse_params tokens f params pos = Ok (l, p) → pos < p ≤ length tokens.
Proof.
  induction f as [| f IH]; intros params pos l p H; [done |].
  cbn [parse_params] in H.
  repeat step_ok;
    repeat match goal with
    | H : parse_params _ _ _ _ = Ok _ |- _ => apply IH in H
    end; lia.
Qed.

Ltac use_decl_post :=
  use_expr_post;
  repeat match goal with
  | H : parse_declarators _ _ _ _ _ _ = Ok _ |- _ => apply parse_declarators_post in H
  | H : parse_params _ _ _ _ = Ok _ |- _ => apply parse_params_post in H
  end.

Lemma parse_statement_post f :
  (∀ pos d p, parse_declaration tokens f pos = Ok (d, p) → pos < p ≤ length tokens) ∧
  (∀ pos d p, parse_typed_declaration tokens f pos = Ok (d, p) →
     pos < p ≤ length tokens) ∧
  (∀ pos c p, parse_compound tokens f pos = Ok (c, p) → pos < p ≤ length tokens) ∧
  (∀ stmts pos l p, parse_statements tokens f stmts pos = Ok (l, p) →
     pos ≤ p ≤ length tokens) ∧
  (∀ pos s p, parse_statement tokens f pos = Ok (s, p) → pos < p ≤ length tokens).
Proof.
  induction f as [| f (IHd & IHt & IHc & IHss & IHs)]; [done |].
  split; [| split; [| split; [| split]]].
  - intros pos d p H. cbn [parse_declaration] in H.
    repeat step_ok; apply IHt in H; lia.
  - intros pos d p H. cbn [parse_typed_declaration] in H.
    repeat step_ok; use_decl_post;
      repeat match goal with
      | H : parse_compound _ _ _ = Ok _ |- _ => apply IHc in H
      end; lia.
  - intros pos c p H. cbn [parse_compound] in H.
    repeat step_ok;
      repeat match goal with
      | H : parse_statements _ _ _ _ = Ok _ |- _ => apply IHss in H
      end; lia.
  - intros stmts pos l p H. cbn [parse_statements] in H.
    repeat step_ok;
      repeat match goal with
      | H : parse_statement _ _ _ = Ok _ |- _ => apply IHs in H
      | H : parse_statements _ _ _ _ = Ok _ |- _ => apply IHss in H
      end; lia.
  - intros pos s p H. cbn [parse_statement] in H.
    repeat step_ok; use_decl_post;
      repeat match goal with
      | H : parse_statement _ _ _ = Ok _ |- _ => apply IHs in H
      | H : parse_compound _ _ _ = Ok _ |- _ => apply IHc in H
      | H : parse_declaration _ _ _ = Ok _ |- _ => apply IHd in H
      | H : parse_typed_declaration _ _ _ = Ok _ |- _ => apply IHt in H
      end; lia.
Qed.

Lemma parse_loop_post f :
  ∀ decls pos prog p,
  parse_loop tokens f decls pos = Ok (prog, p) →
  pos ≤ p ∧ ∃ t, tokens !! p = Some t ∧ t.(type) = "EOF".
Proof.
  induction f as [| f IH]; intros decls pos prog p H; [done |].
  cbn [parse_loop] in H.
  apply bind_ok in H as (t & q & Hp & H). apply peek_ok in Hp as [-> Ht].
  destruct (negb (str_eq (type t) "EOF")) eqn:E.
  - apply bind_ok in H as (d & q & Hd & H).
    apply parse_statement_post in Hd. apply IH in H as [? ?]. split; [lia | done].
  - apply ret_ok in H as [-> ->]. split; [done |]. exists t. split; [done |].
    apply negb_false_iff in E. by apply CollectFacts.str_eq_true in E.
Qed.

End Progress.

(** Every successful call of [parse_expression] consumes at least one token
    and stops within the token list; the tree it returns is built from
    literals, references, calls, unary and binary operators only, so the
    statement walk of it leaves the local scope as it is. *)
Theorem parse_expression_result tokens fuel min_prec pos e p :
  parse_expression tokens fuel min_prec pos = Ok (e, p) →
  pos < p ≤ length tokens ∧ is_expr e = true ∧
  ∀ gs fs f scope errs, (visit gs fs f e scope errs).1 = scope.
Proof.
  intros H. apply parse_expr_post in H as [Hp He].
  split; [done |]. split; [done |].
  intros gs fs f scope errs. by apply SemanticFacts.visit_expr_scope.
Qed.

Lemma parse_expression_result_witness :
  ∃ tokens, tokenize "f(a, 1) + -b" = Some tokens ∧
  ∃ e, parse_expression tokens 20 0 0 = Ok (e, 9) ∧ 0 < 9 ≤ length tokens ∧
       is_expr e = true.
Proof.
  eexists. split; [vm_compute; reflexivity |].
  eexists. split; [vm_compute; reflexivity |].
  match goal with |- 0 < 9 ≤ length ?toks ∧ is_expr ?e = true =>
    pose proof (parse_expression_result toks 20 0 0 e 9 eq_refl) as (H1 & H2 & _)
  end.
  split; [exact H1 | exact H2].
Defined.

(** Every successful call of [parse_statement], [parse_compound] or
    [parse_declaration] consumes at least one token and stops within the
    token list; and when [parse] returns a Program, the position it stopped
    at holds a token of type [EOF]. *)
Theorem parser_progress tokens fuel pos n p :
  (parse_statement tokens fuel pos = Ok (n, p) → pos < p ≤ length tokens) ∧
  (parse_compound tokens fuel pos = Ok (n, p) → pos < p ≤ length tokens) ∧
  (parse_declaration tokens fuel pos = Ok (n, p) → pos < p ≤ length tokens) ∧
  (∀ decls prog, parse_loop tokens fuel decls pos = Ok (prog, p) →
     pos ≤ p ∧ ∃ t, tokens !! p = Some t ∧ t.(type) = "EOF").
Proof.
  split; [| split; [| split]].
  - apply parse_statement_post.
  - apply parse_statement_post.
  - apply parse_statement_post.
  - intros decls prog. apply parse_loop_post.
Qed.

Lemma parser_progress_witness :
  ∃ tokens, tokenize "int f() { return 1; }" = Some tokens ∧
  ∃ prog, parse_loop tokens 20 [] 0 = Ok (prog, 9) ∧
  ∃ t, tokens !! 9 = Some t ∧ t.(type) = "EOF".
Proof.
  eexists. split; [vm_compute; reflexivity |].
  eexists. split; [vm_compute; reflexivity |].
  match goal with |- ∃ t, ?toks !! 9 = Some t ∧ _ =>
    exact (proj2 (proj2 (proj2 (proj2 (parser_progress toks 20 0 (Compound []) 9)))
                    [] _ eq_refl))
  end.
Defined.

(** ** Running the methods on a known stretch of tokens *)

Section Running.

Variable tokens : list Token.

Lemma bind_Ok {A B} (m : M A) (k : A → M B) pos a p :
  m pos = Ok (a, p) → bind m k pos = k a p.
Proof. unfold bind. by intros ->. Qed.

Lemma next_at pos t : tokens !! pos = Some t → next tokens pos = Ok (t, S pos).
Proof. unfold next. by intros ->. Qed.

Lemma peek_at pos t : tokens !! pos = Some t → peek tokens pos = Ok (t, pos).
Proof. unfold peek. by intros ->. Qed.

Lemma expect_at typ value pos t :
  tokens !! pos = Some t → t.(type) = typ →
  expect tokens typ value pos = Ok (t, S pos).
Proof.
  intros Htok <-. unfold expect, bind, peek, next. rewrite Htok.
  rewrite CollectFacts.str_eq_refl. simpl. by rewrite Htok.
Qed.

(** The tokens from [pos] on start with [t]. *)
Lemma drop_cons pos t rest :
  drop pos tokens = t :: rest →
  tokens !! pos = Some t ∧ drop (S pos) tokens = rest.
Proof.
  intros H. split.
  - rewrite <- (Nat.add_0_r pos), <- lookup_drop, H. done.
  - rewrite <- Nat.add_1_r, <- drop_drop, H. done.
Qed.

End Running.

Ltac run_bind :=
  erewrite bind_Ok by
    first [ apply next_at; eassumption
          | apply peek_at; eassumption
          | eapply expect_at; [eassumption | eassumption] ].

(** One parameter as written: the token read as its type, its name, and the
    token after the name. *)
Fixpoint param_tokens (ps : list (Token * Token * Token)) : list Token :=
  match ps with
  | [] => []
  | (t, n, s) :: ps' => t :: n :: s :: param_tokens ps'
  end.

(** Names are identifiers; a comma follows every parameter but the last. *)
Fixpoint params_shape (ps : list (Token * Token * Token)) : Prop :=
  match ps with
  | [] => False
  | [(t, n, s)] => n.(type) = "ID" ∧ s.(value) ≠ ","
  | (t, n, s) :: ps' => n.(type) = "ID" ∧ s.(value) = "," ∧ params_shape ps'
  end.

Definition param_pair (p : Token * Token * Token) : string * string :=
  (p.1.1.(value), p.1.2.(value)).

(** A list of N comma-separated parameters is read into exactly N
    (type, name) pairs, in source order, and the position is left on the
    token after the last name.  Whatever token stands where a type is
    expected is taken as the type. *)
Theorem parse_params_round_trip tokens (ps : list (Token * Token * Token)) :
  params_shape ps →
  ∀ fuel pos rest params,
  length ps ≤ fuel →
  drop pos tokens = param_tokens ps ++ rest →
  parse_params tokens fuel params pos =
  Ok (params ++ map param_pair ps, pos + 3 * length ps - 1).
Proof.
  induction ps as [| [[t n] s] ps IH]; intros Hshape fuel pos rest params Hfuel Hdrop;
    [done |].
  destruct fuel as [| fuel]; [simpl in Hfuel; lia |].
  cbn [param_tokens] in Hdrop. cbn [app] in Hdrop.
  apply drop_cons in Hdrop as [D0 Hdrop].
  apply drop_cons in Hdrop as [D1 Hdrop].
  apply drop_cons in Hdrop as [D2 Hdrop].
  assert (type n = "ID") as Hn by (destruct ps; apply Hshape).
  cbn [parse_params]. do 3 run_bind.
  destruct ps as [| q ps].
  - destruct Hshape as [_ Hs]. apply CollectFacts.str_eq_false in Hs. rewrite Hs.
    unfold ret. cbn [map length]. do 2 f_equal. lia.
  - destruct Hshape as (_ & Hs & Hshape). rewrite Hs.
    change (str_eq "," ",") with true. cbn match. run_bind.
    rewrite (IH Hshape fuel (S (S (S pos))) rest); [| simpl in *; lia | done].
    cbn [map length]. rewrite <- app_assoc. cbn [app]. do 2 f_equal. lia.
Qed.

Lemma parse_params_round_trip_witness :
  ∃ tokens, tokenize "int f(int a, float b) {}" = Some tokens ∧
  parse_params tokens 5 [] 3 = Ok ([("int", "a"); ("float", "b")], 8).
Proof.
  eexists. split; [vm_compute; reflexivity |].
  match goal with |- parse_params ?toks _ _ _ = _ =>
    refine (parse_params_round_trip toks
      [(mkToken "int" "int" 1 7, mkToken "ID" "a" 1 11, mkToken "SYMBOL" "," 1 12);
       (mkToken "float" "float" 1 14, mkToken "ID" "b" 1 20, mkToken "SYMBOL" ")" 1 21)]
      _ 5 3 _ [] _ _)
  end.
  - simpl. split; [reflexivity | split; [reflexivity | split; [reflexivity | discriminate]]].
  - simpl. lia.
  - vm_compute. reflexivity.
Defined.

(** ** Chains of operators of one precedence level *)

(** An identifier that is not spelled like a prefix operator. *)
Definition is_atom (t : Token) : bool :=
  str_eq t.(type) "ID" && negb (str_in t.(value) ["!"; "+"; "-"; "++"; "--"]).

(** An operator token of precedence [prec]. *)
Definition level_op (prec : nat) (t : Token) : bool :=
  str_in t.(type) ["OP"; "SYMBOL"] &&
  match PRECEDENCE t.(value) with Some p => p =? prec | None => false end.

(** A token the loop of binary operators stops at, for a given [min_prec]. *)
Definition stops (min_prec : nat) (t : Token) : bool :=
  match PRECEDENCE t.(value) with
  | Some p => negb (str_in t.(type) ["OP"; "SYMBOL"] && (min_prec <=? p))
  | None => true
  end.

(** A token after an identifier that starts neither a call nor a postfix
    operator. *)
Definition follows_atom (t : Token) : bool :=
  negb (str_eq t.(value) "(") && negb (str_in t.(value) ["++"; "--"]).

Definition ends_chain (min_prec : nat) (t : Token) : bool :=
  follows_atom t && stops min_prec t.

Definition chain_link (prec : nat) (p : Token * Token) : bool :=
  level_op prec p.1 && is_atom p.2.

Fixpoint chain_tokens (rest : list (Token * Token)) : list Token :=
  match rest with
  | [] => []
  | (o, a) :: rest' => o :: a :: chain_tokens rest'
  end.

Definition left_chain (a0 : Token) (rest : list (Token * Token)) : Node :=
  fold_left (λ acc p, BinaryOp p.1.(value) acc (VarRef p.2.(value))) rest
    (VarRef a0.(value)).

Fixpoint right_chain (a0 : Token) (rest : list (Token * Token)) : Node :=
  match rest with
  | [] => VarRef a0.(value)
  | (o, a1) :: rest' => BinaryOp o.(value) (VarRef a0.(value)) (right_chain a1 rest')
  end.

Lemma length_chain_tokens rest : length (chain_tokens rest) = 2 * length rest.
Proof. induction rest as [| [o a] rest IH]; simpl; [done | lia]. Qed.

Lemma PRECEDENCE_follows v p : PRECEDENCE v = Some p →
  str_eq v "(" = false ∧ str_in v ["++"; "--"] = false.
Proof.
  intros H. split.
  - destruct (str_eq v "(") eqn:E; [| done].
    apply CollectFacts.str_eq_true in E. subst v. vm_compute in H. discriminate H.
  - destruct (str_in v ["++"; "--"]) eqn:E; [| done].
    apply LexerProps.str_in_elem_of in E.
    rewrite !elem_of_cons in E. destruct E as [-> | [-> | E]];
      [vm_compute in H; discriminate H | vm_compute in H; discriminate H |].
    by apply elem_of_nil in E.
Qed.

Lemma PRECEDENCE_assign v p : PRECEDENCE v = Some p →
  str_in v ASSIGN_OPS = (p =? 0).
Proof.
  intros H. destruct (str_in v ASSIGN_OPS) eqn:E.
  - apply LexerProps.str_in_elem_of in E. unfold ASSIGN_OPS in E.
    rewrite !elem_of_cons in E.
    repeat (destruct E as [-> | E];
            [vm_compute in H; injection H as <-; reflexivity |]).
    by apply elem_of_nil in E.
  - unfold PRECEDENCE in H. fold ASSIGN_OPS in H. rewrite E in H.
    repeat match type of H with
           | (if ?b then _ else _) = _ => destruct b
           end;
      first [discriminate H | injection H as <-; reflexivity].
Qed.

Section Chains.

Variable tokens : list Token.

Lemma parse_expression_atom fuel min_prec pos a t :
  tokens !! pos = Some a → tokens !! S pos = Some t →
  is_atom a = true → follows_atom t = true →
  parse_expression tokens (S (S fuel)) min_prec pos =
  parse_binary tokens (S fuel) min_prec (VarRef a.(value)) (S pos).
Proof.
  intros Ha Ht Hatom Hfol.
  apply andb_true_iff in Hatom as [Hid Hpre].
  apply negb_true_iff in Hpre.
  apply andb_true_iff in Hfol as [Hpar Hpost].
  apply negb_true_iff in Hpar. apply negb_true_iff in Hpost.
  apply CollectFacts.str_eq_true in Hid.
  remember (S fuel) as fuel' eqn:Hfuel.
  cbn [parse_expression]. run_bind. rewrite Hpre, Hid.
  change (str_eq "ID" "INT") with false.
  change (str_eq "ID" "FLOAT") with false.
  change (str_eq "ID" "CHAR") with false.
  change (str_in "ID" ["true"; "false"]) with false.
  change (str_eq "ID" "ID") with true.
  cbv match.
  unfold bind at 1. unfold bind at 1. rewrite (next_at _ _ _ Ha).
  unfold bind at 1.
  rewrite (peek_at _ _ _ Ht). rewrite Hpar. unfold ret at 1.
  subst fuel'. cbn [parse_postfix]. unfold bind at 1. unfold bind at 1.
  rewrite (peek_at _ _ _ Ht). rewrite Hpost. reflexivity.
Qed.

Lemma parse_binary_stop fuel min_prec lhs pos t :
  tokens !! pos = Some t → stops min_prec t = true →
  parse_binary tokens (S fuel) min_prec lhs pos = Ok (lhs, pos).
Proof.
  intros Ht Hstop. cbn [parse_binary]. run_bind. unfold stops in Hstop.
  destruct (PRECEDENCE (value t)); [| done].
  apply negb_true_iff in Hstop. by rewrite Hstop.
Qed.

Lemma parse_binary_op fuel min_prec prec lhs pos o :
  tokens !! pos = Some o → level_op prec o = true → min_prec ≤ prec →
  parse_binary tokens (S fuel) min_prec lhs pos =
  bind (parse_expression tokens fuel (if prec =? 0 then prec else prec + 1))
       (λ rhs, parse_binary tokens fuel min_prec (BinaryOp o.(value) lhs rhs))
       (S pos).
Proof.
  intros Ho Hop Hle. cbn [parse_binary]. run_bind.
  apply andb_true_iff in Hop as [Hty Hp].
  destruct (PRECEDENCE (value o)) as [p |] eqn:E; [| done].
  apply Nat.eqb_eq in Hp. subst p.
  rewrite Hty, (PRECEDENCE_assign _ _ E).
  apply Nat.leb_le in Hle. rewrite Hle. cbn [andb].
  unfold bind at 1. by rewrite (next_at _ _ _ Ho).
Qed.

Lemma level_op_follows prec o : level_op prec o = true → follows_atom o = true.
Proof.
  intros H. apply andb_true_iff in H as [_ H].
  destruct (PRECEDENCE (value o)) as [p |] eqn:E; [| done].
  destruct (PRECEDENCE_follows _ _ E) as [H1 H2].
  unfold follows_atom. by rewrite H1, H2.
Qed.

Lemma level_op_stops prec o : level_op prec o = true → stops (S prec) o = true.
Proof.
  intros H. apply andb_true_iff in H as [_ H]. unfold stops.
  destruct (PRECEDENCE (value o)) as [p |]; [| done].
  apply Nat.eqb_eq in H. subst p.
  assert ((S prec <=? prec) = false) as -> by (apply Nat.leb_gt; lia).
  by rewrite andb_false_r.
Qed.

Lemma stops_mono m m' t : m ≤ m' → stops m t = true → stops m' t = true.
Proof.
  intros Hle. unfold stops. destruct (PRECEDENCE (value t)) as [p |]; [| done].
  rewrite !negb_true_iff, !andb_false_iff. intros [H | H]; [by left | right].
  apply Nat.leb_gt in H. apply Nat.leb_gt. lia.
Qed.

(** The token after an operand of the chain: the next operator or the token
    that ends the chain. *)
Lemma chain_head prec m rest stop tail :
  forallb (chain_link prec) rest = true → ends_chain m stop = true → m ≤ prec →
  ∃ t l, chain_tokens rest ++ stop :: tail = t :: l ∧
         follows_atom t = true ∧ stops (S prec) t = true.
Proof.
  intros Hrest Hstop Hm. destruct rest as [| [o a] rest].
  - exists stop, tail. apply andb_true_iff in Hstop as [H1 H2].
    split; [done |]. split; [done |]. apply (stops_mono m); [lia | done].
  - exists o, (a :: chain_tokens rest ++ stop :: tail).
    cbn [forallb] in Hrest. apply andb_true_iff in Hrest as [Hl _].
    apply andb_true_iff in Hl as [Ho _].
    split; [done |]. split; [by apply (level_op_follows prec) | by apply level_op_stops].
Qed.

Lemma parse_binary_left_chain prec m stop tail :
  0 < prec → m ≤ prec → ends_chain m stop = true →
  ∀ rest lhs pos fuel,
  forallb (chain_link prec) rest = true →
  2 * length rest + 1 ≤ fuel →
  drop pos tokens = chain_tokens rest ++ stop :: tail →
  parse_binary tokens fuel m lhs pos =
  Ok (fold_left (λ acc p, BinaryOp p.1.(value) acc (VarRef p.2.(value))) rest lhs,
      pos + 2 * length rest).
Proof.
  intros Hprec Hm Hstop.
  induction rest as [| [o a] rest IH]; intros lhs pos fuel Hrest Hfuel Hdrop.
  - cbn [chain_tokens app] in Hdrop. apply drop_cons in Hdrop as [Ht _].
    destruct fuel as [| fuel]; [simpl in Hfuel; lia |].
    apply andb_true_iff in Hstop as [_ Hstop].
    rewrite (parse_binary_stop fuel m lhs pos stop Ht Hstop).
    cbn [fold_left length]. do 2 f_equal. lia.
  - cbn [chain_tokens app] in Hdrop.
    apply drop_cons in Hdrop as [Ho Hdrop].
    apply drop_cons in Hdrop as [Ha Hdrop].
    cbn [forallb] in Hrest. apply andb_true_iff in Hrest as [Hl Hrest].
    apply andb_true_iff in Hl as [Hop Hatom]. cbn [fst snd] in Hop, Hatom.
    destruct (chain_head prec m rest stop tail Hrest Hstop Hm) as (t & l & Ht & Hfol & Hst).
    rewrite Ht in Hdrop. destruct (drop_cons _ _ _ _ Hdrop) as [Ht' _].
    rewrite <- Ht in Hdrop.
    cbn [length] in Hfuel.
    destruct fuel as [| [| [| fuel]]]; [lia | lia | lia |].
    rewrite (parse_binary_op (S (S fuel)) m prec lhs pos o Ho Hop Hm).
    assert ((prec =? 0) = false) as -> by (apply Nat.eqb_neq; lia).
    rewrite Nat.add_1_r. unfold bind.
    rewrite (parse_expression_atom fuel (S prec) (S pos) a t Ha Ht' Hatom Hfol).
    rewrite (parse_binary_stop fuel (S prec) _ (S (S pos)) t Ht' Hst).
    rewrite (IH _ (S (S pos)) (S (S fuel)) Hrest); [| lia | done].
    cbn [fold_left length fst snd]. do 2 f_equal. lia.
Qed.

End Chains.

(** Operands joined by binary operators of one precedence level, none of
    them an assignment, group to the left: [a - b - c] is [(a - b) - c],
    however long the chain. *)
Theorem same_level_chain_left_assoc tokens prec min_prec a0 rest stop tail fuel pos :
  0 < prec → min_prec ≤ prec →
  is_atom a0 = true → forallb (chain_link prec) rest = true →
  ends_chain min_prec stop = true →
  2 * length rest + 2 ≤ fuel →
  drop pos tokens = a0 :: chain_tokens rest ++ stop :: tail →
  parse_expression tokens fuel min_prec pos =
  Ok (left_chain a0 rest, pos + 1 + 2 * length rest).
Proof.
  intros Hprec Hm Ha0 Hrest Hstop Hfuel Hdrop.
  apply drop_cons in Hdrop as [Ha Hdrop].
  destruct (chain_head prec min_prec rest stop tail Hrest Hstop Hm)
    as (t & l & Ht & Hfol & _).
  rewrite Ht in Hdrop. destruct (drop_cons _ _ _ _ Hdrop) as [Ht' _].
  rewrite <- Ht in Hdrop.
  destruct fuel as [| [| fuel]]; [lia | lia |].
  rewrite (parse_expression_atom tokens fuel min_prec pos a0 t Ha Ht' Ha0 Hfol).
  rewrite (parse_binary_left_chain tokens prec min_prec stop tail Hprec Hm Hstop
             rest _ (S pos) (S fuel) Hrest); [| lia | done].
  unfold left_chain. do 2 f_equal. lia.
Qed.

Lemma same_level_chain_left_assoc_witness :
  ∃ tokens, tokenize "a - b + c;" = Some tokens ∧
  parse_expression tokens 6 0 0 =
  Ok (BinaryOp "+" (BinaryOp "-" (VarRef "a") (VarRef "b")) (VarRef "c"), 5).
Proof.
  eexists. split; [vm_compute; reflexivity |].
  match goal with |- parse_expression ?toks _ _ _ = _ =>
    refine (same_level_chain_left_assoc toks 5 0 (mkToken "ID" "a" 1 1)
      [(mkToken "SYMBOL" "-" 1 3, mkToken "ID" "b" 1 5);
       (mkToken "SYMBOL" "+" 1 7, mkToken "ID" "c" 1 9)]
      (mkToken "SYMBOL" ";" 1 10) _ 6 0 _ _ _ _ _ _ _)
  end.
  - lia.
  - lia.
  - reflexivity.
  - reflexivity.
  - reflexivity.
  - simpl. lia.
  - vm_compute. reflexivity.
Defined.

(** Assignments group to the right: [a = b += c] is [a = (b += c)], however
    long the chain. *)
Theorem assignment_chain_right_assoc tokens stop tail rest :
  ends_chain 0 stop = true →
  ∀ a0 fuel pos,
  is_atom a0 = true → forallb (chain_link 0) rest = true →
  2 * length rest + 2 ≤ fuel →
  drop pos tokens = a0 :: chain_tokens rest ++ stop :: tail →
  parse_expression tokens fuel 0 pos =
  Ok (right_chain a0 rest, pos + 1 + 2 * length rest).
Proof.
  intros Hstop.
  induction rest as [| [o a1] rest IH]; intros a0 fuel pos Ha0 Hrest Hfuel Hdrop.
  - cbn [chain_tokens app] in Hdrop.
    apply drop_cons in Hdrop as [Ha Hdrop]. apply drop_cons in Hdrop as [Ht _].
    apply andb_true_iff in Hstop as [Hfol Hst].
    destruct fuel as [| [| fuel]]; [simpl in Hfuel; lia | simpl in Hfuel; lia |].
    rewrite (parse_expression_atom tokens fuel 0 pos a0 stop Ha Ht Ha0 Hfol).
    rewrite (parse_binary_stop tokens fuel 0 _ (S pos) stop Ht Hst).
    cbn [right_chain length]. do 2 f_equal. lia.
  - cbn [chain_tokens app] in Hdrop.
    apply drop_cons in Hdrop as [Ha Hdrop].
    destruct (drop_cons _ _ _ _ Hdrop) as [Ho Hdrop'].
    cbn [forallb] in Hrest. apply andb_true_iff in Hrest as [Hl Hrest].
    apply andb_true_iff in Hl as [Hop Hatom]. cbn [fst snd] in Hop, Hatom.
    cbn [length] in Hfuel.
    destruct fuel as [| [| [| fuel]]]; [lia | lia | lia |].
    rewrite (parse_expression_atom tokens (S fuel) 0 pos a0 o Ha Ho Ha0
               (level_op_follows 0 o Hop)).
    rewrite (parse_binary_op tokens (S fuel) 0 0 _ (S pos) o Ho Hop (Nat.le_refl 0)).
    change (if 0 =? 0 then 0 else 0 + 1) with 0. unfold bind.
    rewrite (IH a1 (S fuel) (S (S pos)) Hatom Hrest); [| lia | done].
    assert (tokens !! (S (S pos) + 1 + 2 * length rest) = Some stop) as Hend.
    { rewrite <- Nat.add_assoc, <- lookup_drop, Hdrop'. cbn [lookup].
      change ((a1 :: chain_tokens rest ++ stop :: tail) !! (1 + 2 * length rest))
        with ((chain_tokens rest ++ stop :: tail) !! (2 * length rest)).
      apply list_lookup_middle. by rewrite length_chain_tokens. }
    apply andb_true_iff in Hstop as [_ Hst].
    rewrite (parse_binary_stop tokens fuel 0 _ _ stop Hend Hst).
    cbn [right_chain length]. do 2 f_equal. lia.
Qed.

Lemma assignment_chain_right_assoc_witness :
  ∃ tokens, tokenize "a = b += c;" = Some tokens ∧
  parse_expression tokens 6 0 0 =
  Ok (BinaryOp "=" (VarRef "a") (BinaryOp "+=" (VarRef "b") (VarRef "c")), 5).
Proof.
  eexists. split; [vm_compute; reflexivity |].
  match goal with |- parse_expression ?toks _ _ _ = _ =>
    refine (assignment_chain_right_assoc toks (mkToken "SYMBOL" ";" 1 11) _
      [(mkToken "SYMBOL" "=" 1 3, mkToken "ID" "b" 1 5);
       (mkToken "OP" "+=" 1 7, mkToken "ID" "c" 1 10)]
      _ (mkToken "ID" "a" 1 1) 6 0 _ _ _ _)
  end.
  - reflexivity.
  - reflexivity.
  - reflexivity.
  - simpl. lia.
  - vm_compute. reflexivity.
Defined.

(** ** Declarations *)

Lemma expect_value tokens typ v pos t :
  tokens !! pos = Some t → t.(value) = v →
  expect tokens typ (Some v) pos = Ok (t, S pos).
Proof.
  intros Htok <-. unfold expect, bind, peek, next. rewrite Htok.
  rewrite CollectFacts.str_eq_refl, andb_false_r. by rewrite Htok.
Qed.

Lemma parse_declarators_stop tokens fuel typ is_const decls pos t :
  tokens !! pos = Some t → str_eq t.(value) "," = false →
  parse_declarators tokens (S fuel) typ is_const decls pos = Ok (decls, pos).
Proof. intros Ht Hv. cbn [parse_declarators]. run_bind. by rewrite Hv. Qed.

Ltac run_ret := erewrite bind_Ok by (cbv [ret]; reflexivity).

(** Where a declaration is expected, a literal is taken as the type: a token
    of type [INT], [FLOAT] or [CHAR] passes the test on the upper-cased
    token type just as a type keyword does, and its text becomes the
    declared type. *)
Theorem literal_accepted_as_type tokens fuel pos t n s tail :
  t.(type) ∈ ["int"; "float"; "char"; "bool"; "void"; "INT"; "FLOAT"; "CHAR"] →
  n.(type) = "ID" → s.(value) = ";" →
  drop pos tokens = t :: n :: s :: tail →
  3 ≤ fuel →
  parse_declaration tokens fuel pos =
  Ok (PyList [VarDecl t.(value) n.(value) None false], pos + 3).
Proof.
  intros Hty Hn Hs Hdrop Hfuel.
  apply drop_cons in Hdrop as [D0 Hdrop].
  apply drop_cons in Hdrop as [D1 Hdrop].
  apply drop_cons in Hdrop as [D2 _].
  destruct fuel as [| [| [| fuel]]]; [lia | lia | lia |].
  assert (str_eq (type t) "const" = false ∧
          str_in (type t) ["int"; "float"; "char"; "bool"; "void"] ||
          str_in (upper (type t)) ["INT"; "FLOAT"; "CHAR"; "BOOL"; "VOID"] = true)
    as [Hc Hstart].
  { repeat (apply elem_of_cons in Hty as [-> | Hty]; [split; reflexivity |]).
    by apply elem_of_nil in Hty. }
  remember (S fuel) as fuel1 eqn:Hf1.
  cbn [parse_declaration]. run_bind. rewrite Hc, Hstart.
  subst fuel1. remember fuel as fuel0 eqn:Hf0.
  cbn [parse_typed_declaration]. run_bind. rewrite Hc. run_ret. do 3 run_bind.
  rewrite Hs. change (str_eq ";" "(") with false. cbv match.
  unfold is_assign_tok. rewrite Hs. change (str_eq ";" "=") with false.
  rewrite andb_false_r. cbn [orb]. run_ret.
  erewrite bind_Ok by (eapply parse_declarators_stop; [exact D2 | by rewrite Hs]).
  erewrite bind_Ok by (apply expect_value; [exact D2 | exact Hs]).
  unfold ret. do 2 f_equal. lia.
Qed.

Lemma literal_accepted_as_type_witness :
  ∃ tokens, tokenize "1 x;" = Some tokens ∧
  parse_declaration tokens 3 0 = Ok (PyList [VarDecl "1" "x" None false], 3).
Proof.
  eexists. split; [vm_compute; reflexivity |].
  match goal with |- parse_declaration ?toks _ _ = _ =>
    refine (literal_accepted_as_type toks 3 0 (mkToken "INT" "1" 1 1)
      (mkToken "ID" "x" 1 3) (mkToken "SYMBOL" ";" 1 4) _ _ _ _ _ _)
  end.
  - apply LexerProps.str_in_elem_of. reflexivity.
  - reflexivity.
  - reflexivity.
  - vm_compute. reflexivity.
  - lia.
Defined.

(** A text that ends in [const]: the [EOF] token is read as the type, and
    the read of the name goes past the end of the token list, so that the
    exception is an [IndexError], not a [ParseError]. *)
Theorem const_before_EOF_raises_IndexError tokens fuel pos c e :
  c.(type) = "const" →
  drop pos tokens = [c; e] →
  2 ≤ fuel →
  parse_declaration tokens fuel pos = Raise IndexError.
Proof.
  intros Hc Hdrop Hfuel.
  apply drop_cons in Hdrop as [D0 Hdrop].
  apply drop_cons in Hdrop as [D1 Hdrop].
  assert (tokens !! S (S pos) = None) as D2.
  { rewrite <- (Nat.add_0_r (S (S pos))), <- lookup_drop, Hdrop. done. }
  destruct fuel as [| [| fuel]]; [lia | lia |].
  remember fuel as fuel0 eqn:Hf0.
  cbn [parse_declaration]. run_bind. rewrite Hc.
  change (str_eq "const" "const") with true. cbv match.
  cbn [parse_typed_declaration]. run_bind. rewrite Hc.
  change (str_eq "const" "const") with true. cbv match.
  do 2 run_bind. unfold bind at 1. unfold expect, bind, peek. by rewrite D2.
Qed.

Lemma const_before_EOF_raises_IndexError_witness :
  ∃ tokens, tokenize "int x; const" = Some tokens ∧
  parse_declaration tokens 2 3 = Raise IndexError.
Proof.
  eexists. split; [vm_compute; reflexivity |].
  match goal with |- parse_declaration ?toks _ _ = _ =>
    refine (const_before_EOF_raises_IndexError toks 2 3 (mkToken "const" "const" 1 8)
      (mkToken "EOF" "" 1 1) _ _ _)
  end.
  - reflexivity.
  - vm_compute. reflexivity.
  - lia.
Defined.

(** ** The exceptions the parser raises *)

Section Raises.

Variable tokens : list Token.

Lemma bind_raise {A B} (m : M A) (k : A → M B) pos e :
  bind m k pos = Raise e →
  m pos = Raise e ∨ ∃ a p, m pos = Ok (a, p) ∧ k a p = Raise e.
Proof.
  unfold bind. destruct (m pos) as [[a p] | e' |]; [| | done].
  - intros H. right. by exists a, p.
  - intros [= ->]. by left.
Qed.

Lemma peek_raise pos e : peek tokens pos = Raise e → e = IndexError.
Proof. unfold peek. destruct (tokens !! pos); [done |]. by intros [= <-]. Qed.

Lemma next_raise pos e : next tokens pos = Raise e → e = IndexError.
Proof. unfold next. destruct (tokens !! pos); [done |]. by intros [= <-]. Qed.

Lemma expect_raise typ value pos e :
  expect tokens typ value pos = Raise e → e ≠ ValueError.
Proof.
  unfold expect. intros H. apply bind_raise in H as [H | (a & p & _ & H)].
  - apply peek_raise in H. by subst e.
  - destruct (_ && _); [by injection H as <- |].
    apply next_raise in H. by subst e.
Qed.

End Raises.

(** Take a run that raised [ValueError] apart, one [bind] at a time. *)
Ltac step_raise :=
  match goal with
  | H : bind _ _ _ = Raise ValueError |- _ =>
      let a := fresh "a" in let p := fresh "p" in let Hm := fresh "Hm" in
      apply bind_raise in H as [H | (a & p & Hm & H)]; cbv beta in H
  | H : peek _ _ = Raise ValueError |- _ => apply peek_raise in H; discriminate H
  | H : next _ _ = Raise ValueError |- _ => apply next_raise in H; discriminate H
  | H : expect _ _ _ _ = Raise ValueError |- _ => by apply expect_raise in H
  | H : ret _ _ = Raise _ |- _ => discriminate H
  | H : raise (ParseError _) _ = Raise ValueError |- _ => discriminate H
  | H : out_of_fuel _ = Raise _ |- _ => discriminate H
  | H : (if ?b then _ else _) _ = Raise _ |- _ => destruct b eqn:?
  | H : match ?x with _ => _ end _ = Raise _ |- _ => destruct x eqn:?
  end.

Section NoValueError.

Variable tokens : list Token.
Hypothesis Hints : Forall LexerProps.int_converts tokens.

Lemma parse_postfix_raise f :
  ∀ lhs pos, parse_postfix tokens f lhs pos ≠ Raise ValueError.
Proof.
  induction f as [| f IH]; intros lhs pos H; [done |].
  cbn [parse_postfix] in H. repeat step_raise. by apply IH in H.
Qed.

(** The one place that raises [ValueError]: [int(tok.value)] on a token of
    type [INT]. *)
Ltac int_case :=
  match goal with
  | Hp : peek _ _ = Ok (?t, _), E : str_eq (type ?t) "INT" = true,
    E' : int_of_str (value ?t) = None |- _ =>
      apply peek_ok in Hp as [_ Hp];
      apply CollectFacts.str_eq_true in E;
      exact (Forall_lookup_1 _ _ _ _ Hints Hp E E')
  end.

Lemma parse_expression_raise f :
  (∀ min_prec pos, parse_expression tokens f min_prec pos ≠ Raise ValueError) ∧
  (∀ args pos, parse_args tokens f args pos ≠ Raise ValueError) ∧
  (∀ min_prec lhs pos, parse_binary tokens f min_prec lhs pos ≠ Raise ValueError).
Proof.
  induction f as [| f (IHe & IHa & IHb)]; [done |].
  split; [| split].
  - intros min_prec pos H. cbn [parse_expression] in H.
    repeat step_raise;
      first [ int_case
            | by apply IHe in H | by apply IHa in H | by apply IHb in H
            | by apply parse_postfix_raise in H ].
  - intros args pos H. cbn [parse_args] in H.
    repeat step_raise; first [ by apply IHe in H | by apply IHa in H ].
  - intros min_prec lhs pos H. cbn [parse_binary] in H.
    repeat step_raise; first [ by apply IHe in H | by apply IHb in H ].
Qed.

Lemma parse_declarators_raise f :
  ∀ typ is_const decls pos,
  parse_declarators tokens f typ is_const decls pos ≠ Raise ValueError.
Proof.
  induction f as [| f IH]; intros typ is_const decls pos H; [done |].
  cbn [parse_declarators] in H.
  repeat step_raise;
    first [ by apply parse_expression_raise in H | by apply IH in H ].
Qed.

Lemma parse_params_raise f :
  ∀ params pos, parse_params tokens f params pos ≠ Raise ValueError.
Proof.
  induction f as [| f IH]; intros params pos H; [done |].
  cbn [parse_params] in H. repeat step_raise. by apply IH in H.
Qed.

Lemma parse_statement_raise f :
  (∀ pos, parse_declaration tokens f pos ≠ Raise ValueError) ∧
  (∀ pos, parse_typed_declaration tokens f pos ≠ Raise ValueError) ∧
  (∀ pos, parse_compound tokens f pos ≠ Raise ValueError) ∧
  (∀ stmts pos, parse_statements tokens f stmts pos ≠ Raise ValueError) ∧
  (∀ pos, parse_statement tokens f pos ≠ Raise ValueError).
Proof.
  induction f as [| f (IHd & IHt & IHc & IHss & IHs)]; [done |].
  split; [| split; [| split; [| split]]].
  - intros pos H. cbn [parse_declaration] in H.
    repeat step_raise; by apply IHt in H.
  - intros pos H. cbn [parse_typed_declaration] in H.
    repeat step_raise;
      first [ by apply parse_params_raise in H
            | by apply parse_declarators_raise in H
            | by apply parse_expression_raise in H
            | by apply IHc in H ].
  - intros pos H. cbn [parse_compound] in H.
    repeat step_raise; by apply IHss in H.
  - intros stmts pos H. cbn [parse_statements] in H.
    repeat step_raise; first [ by apply IHs in H | by apply IHss in H ].
  - intros pos H. cbn [parse_statement] in H.
    repeat step_raise;
      first [ by apply parse_expression_raise in H
            | by apply IHs in H | by apply IHc in H
            | by apply IHd in H | by apply IHt in H ].
Qed.

Lemma parse_loop_raise f :
  ∀ decls pos, parse_loop tokens f decls pos ≠ Raise ValueError.
Proof.
  induction f as [| f IH]; intros decls pos H; [done |].
  cbn [parse_loop] in H.
  repeat step_raise; first [ by apply parse_statement_raise in H | by apply IH in H ].
Qed.

End NoValueError.

(** [int(tok.value)] fails only beyond the digit limit of the interpreter:
    for every text none of whose [INT] tokens has more than 4300 digits,
    whatever the recursion budget, neither [parse] nor [parse_expression]
    raises [ValueError]. *)
Theorem ValueError_only_beyond_digit_limit fuel code tokens :
  tokenize code = Some tokens → LexerProps.short_ints tokens = true →
  parse fuel code ≠ Raise ValueError ∧ parse_expr fuel code ≠ Raise ValueError.
Proof.
  intros Htok Hshort. unfold parse, parse_expr. rewrite Htok.
  pose proof (LexerProps.tokenize_int_converts code tokens Htok Hshort) as Hints.
  unfold run. split.
  - destruct (parse_loop tokens fuel [] 0) as [[a p] | e |] eqn:H; [done | | done].
    intros [= ->]. by apply parse_loop_raise in H.
  - destruct (parse_expression tokens fuel 0 0) as [[a p] | e |] eqn:H; [done | | done].
    intros [= ->]. by apply parse_expression_raise in H.
Qed.

Lemma ValueError_only_beyond_digit_limit_witness :
  parse 20 "int x = 12;" ≠ Raise ValueError ∧
  parse_expr 20 "int x = 12;" ≠ Raise ValueError.
Proof.
  refine (ValueError_only_beyond_digit_limit 20 "int x = 12;" _ _ _).
  - vm_compute. reflexivity.
  - vm_compute. reflexivity.
Defined.

Lemma digit_not_prefix_op c r :
  is_digit c = true → str_in (String c r) ["!"; "+"; "-"; "++"; "--"] = false.
Proof.
  intros Hc.
  assert (Ascii.eqb c "!" = false ∧ Ascii.eqb c "+" = false ∧ Ascii.eqb c "-" = false)
    as (H1 & H2 & H3).
  { destruct c as [[] [] [] [] [] [] [] []]; vm_compute in Hc;
      first [discriminate Hc | by vm_compute]. }
  unfold str_in, str_eq. cbn [existsb String.eqb]. by rewrite H1, H2, H3.
Qed.

(** Beyond the limit it does fail: a text that is one run of more than 4300
    digits makes [parse_expression] raise [ValueError], whatever the
    recursion budget above zero. *)
Theorem long_literal_raises_ValueError d fuel :
  LexerFacts.all_chars is_digit d = true → MAX_STR_DIGITS < String.length d →
  parse_expr (S fuel) d = Raise ValueError.
Proof.
  intros Hd Hlen.
  assert (d ≠ "") as Hne by (intros ->; simpl in Hlen; lia).
  unfold parse_expr. rewrite (LexerProps.tokenize_digits d Hd Hne).
  destruct d as [| c r]; [done |].
  simpl in Hd. apply andb_prop in Hd as [Hc _].
  unfold run. cbn [parse_expression].
  unfold bind at 1. unfold peek at 1. cbn [lookup list_lookup value type].
  rewrite (digit_not_prefix_op c r Hc).
  change (str_eq "INT" "INT") with true. cbv match.
  unfold bind at 1. unfold bind at 1. unfold next at 1.
  cbn [lookup list_lookup value].
  unfold int_of_str. apply Nat.ltb_lt in Hlen. rewrite Hlen. done.
Qed.

Lemma long_literal_raises_ValueError_witness :
  parse_expr 1 (Nat.iter 4301 (String "7") EmptyString) = Raise ValueError.
Proof.
  refine (long_literal_raises_ValueError (Nat.iter 4301 (String "7") EmptyString) 0 _ _).
  - vm_compute. reflexivity.
  - apply Nat.ltb_lt. vm_compute. reflexivity.
Defined.

(** ** The parser on the tokens of a text *)

Lemma token_ok_not_EOF t : LexerProps.token_ok t → t.(type) ≠ "EOF".
Proof.
  intros [[H | [H _]] _] Heq; rewrite Heq in H;
    apply LexerProps.str_in_elem_of in H; by vm_compute in H.
Qed.

(** When [parse] returns a Program for a text, every token of the text has
    been consumed: the position it stops at is that of the final [EOF], the
    last token of the list. *)
Theorem parse_consumes_every_token code tokens fuel decls pos prog p :
  tokenize code = Some tokens →
  parse_loop tokens fuel decls pos = Ok (prog, p) →
  S p = length tokens.
Proof.
  unfold tokenize.
  destruct (tokenize_loop (String.length code) code 0 1 0 []) as [[res ln] |] eqn:H;
    [| done].
  intros [= <-] Hp.
  apply LexerProps.tokenize_loop_invariant in H as (_ & new & -> & Hall & _).
  cbn [app] in *.
  apply parse_loop_post in Hp as (_ & t & Ht & Hty).
  rewrite length_app. cbn [length].
  destruct (decide (p < length new)) as [Hlt | Hge].
  - rewrite lookup_app_l in Ht by done.
    apply (Forall_lookup_1 _ _ _ _ Hall) in Ht as [Hok _].
    by apply token_ok_not_EOF in Hok.
  - apply lookup_lt_Some in Ht. rewrite length_app in Ht. cbn [length] in Ht. lia.
Qed.

Lemma parse_consumes_every_token_witness :
  ∃ tokens prog, tokenize "int f() { return 1; }" = Some tokens ∧
  parse_loop tokens 20 [] 0 = Ok (prog, 9) ∧ 10 = length tokens.
Proof.
  eexists. eexists. split; [vm_compute; reflexivity |].
  split; [vm_compute; reflexivity |].
  refine (parse_consumes_every_token "int f() { return 1; }" _ 20 [] 0 _ 9 _ _).
  - vm_compute. reflexivity.
  - vm_compute. reflexivity.
Defined.

End ParserProps.
